(** * CalcTopoIndex: the topographic index ln(a / tan beta) of DHSVM

    A shallow embedding of [CalcTopoIndex] (src/CalcTopoIndex.c) and the
    properties of its flow-accumulation sweep.

    Numeric models.  The C code computes on [float], [double] and [int],
    and the development has it twice.  The first model computes on exact
    numbers: every floating value is a real number ([R]) and every [int] an
    integer ([Z]), so that rounding, underflow, overflow, infinities and NaN
    are out of it.  What is proved of it is what the code computes in exact
    arithmetic; its theorems on the values of areas and slopes are stated
    under hypotheses that keep every divisor of the source non-zero, so that
    none of them depends on the value Rocq gives to a division by zero.  The
    second model, [Float32], computes on IEEE 754 binary32 and binary64
    numbers and on 32-bit integers; it shows where the code on the numbers
    of the machine leaves what holds in exact arithmetic.

    Memory model.  A two-dimensional array is a total function of its two
    indices.  Memory allocation is assumed to succeed, so that [calloc]
    returns zero-filled grids.  An access off the grid, which is undefined
    in C, reads or writes a slot of the function; the code makes none when
    every cell of [OrderedCellsfine] lies in the grid. *)

From Stdlib Require Import Reals Lra Lia ZArith List Bool Sorted FunctionalExtensionality.
From Stdlib Require Import SpecFloat.
Import ListNotations.

Open Scope R_scope.

(** ** Outcome of a computation that may call [ReportError] *)

(** [ReportError] ends the run.  [Fatal s] records the state the program was
    in when it was called, [Ok s] is a normal completion in state [s]. *)
Inductive outcome (A : Type) : Type :=
| Ok (v : A)
| Fatal (v : A).

Arguments Ok {A} v.
Arguments Fatal {A} v.

Definition bind {A : Type} (m : outcome A) (k : A -> outcome A) : outcome A :=
  match m with
  | Ok v => k v
  | Fatal v => Fatal v
  end.

(** The state an outcome carries, whichever way the run ended. *)
Definition final {A : Type} (m : outcome A) : A :=
  match m with
  | Ok v => v
  | Fatal v => v
  end.

Definition is_fatal {A : Type} (m : outcome A) : bool :=
  match m with
  | Ok _ => false
  | Fatal _ => true
  end.

(** ** Loops *)

(** The index sequence of [for (k = n-1; k > -1; k--)]. *)
Fixpoint countdown (n : nat) : list nat :=
  match n with
  | O => []
  | S k => k :: countdown k
  end.

(** The index sequence of [for (n = 0; n < count; n++)]. *)
Definition countup (count : nat) : list nat := seq 0 count.

(** A loop whose body cannot fail. *)
Definition for_each {S : Type} (idx : list nat) (body : nat -> S -> S) (s : S) : S :=
  fold_left (fun acc i => body i acc) idx s.

(** A loop whose body may call [ReportError]: the first failure ends it. *)
Fixpoint for_eachM {S : Type} (idx : list nat) (body : nat -> S -> outcome S) (s : S)
  : outcome S :=
  match idx with
  | [] => Ok s
  | i :: rest =>
      match body i s with
      | Ok s' => for_eachM rest body s'
      | Fatal s' => Fatal s'
      end
  end.

(** ** Data *)

(** [(int) f] for a [float] [f]: truncation toward zero. *)
Definition float_to_int (r : R) : Z :=
  if Rle_dec 0 r then Int_part r else (- Int_part (- r))%Z.

(** [#define VERTRES 1] *)
Definition VERTRES : Z := 1.

(** An entry of [OrderedCellsfine]: the coordinates of a cell. *)
Module ITEM.
Record t : Type := mk { x : Z; y : Z }.
End ITEM.

(** The fields of [FINEPIX] the function reads or writes. *)
Record FINEPIX : Type := mkFINEPIX {
  Dem : R;
  Mask : Z;
  TopoIndex : R
}.

(** The fields of [MAPSIZE] the function reads.  [OrderedCellsfine] is the
    array together with its length, [NumCellsfine]. *)
Record MAPSIZE : Type := mkMAPSIZE {
  NXfine : Z;
  NYfine : Z;
  DMASS : R;
  OrderedCellsfine : list ITEM.t
}.

Definition NumCellsfine (Map : MAPSIZE) : nat := length (OrderedCellsfine Map).

(** [OrderedCellsfine[k]] *)
Definition cell_at (Map : MAPSIZE) (k : nat) : ITEM.t :=
  nth k (OrderedCellsfine Map) (ITEM.mk 0 0).

(** A two-dimensional array [g[y][x]]. *)
Definition grid (A : Type) : Type := Z -> Z -> A.

Definition grid_set {A : Type} (g : grid A) (y x : Z) (v : A) : grid A :=
  fun y' x' => if ((y' =? y) && (x' =? x))%Z then v else g y' x'.

(** What [calloc] returns. *)
Definition zero_grid : grid R := fun _ _ => 0.

(** The three accumulator grids and the fine map. *)
Record state : Type := mkstate {
  a : grid R;
  tanbeta : grid R;
  contour_length : grid R;
  FineMap : grid FINEPIX
}.

Definition set_a (s : state) (y x : Z) (v : R) : state :=
  mkstate (grid_set (a s) y x v) (tanbeta s) (contour_length s) (FineMap s).

Definition set_tanbeta (s : state) (y x : Z) (v : R) : state :=
  mkstate (a s) (grid_set (tanbeta s) y x v) (contour_length s) (FineMap s).

Definition set_contour_length (s : state) (y x : Z) (v : R) : state :=
  mkstate (a s) (tanbeta s) (grid_set (contour_length s) y x v) (FineMap s).

Definition set_TopoIndex (s : state) (y x : Z) (v : R) : state :=
  mkstate (a s) (tanbeta s) (contour_length s)
    (grid_set (FineMap s) y x
       (mkFINEPIX (Dem (FineMap s y x)) (Mask (FineMap s y x)) v)).

(** The local arrays [neighbor_elev], [temp_slope], [delta_a] and the counter
    [lower].  Every slot the code reads was written earlier in the same
    iteration of the sweep, so each cell starts from fresh locals. *)
Record locals : Type := mklocals {
  neighbor_elev : nat -> R;
  temp_slope : nat -> R;
  delta_a : nat -> R;
  lower : Z
}.

Definition arr_set (f : nat -> R) (n : nat) (v : R) : nat -> R :=
  fun m => if Nat.eqb m n then v else f m.

Definition set_neighbor_elev (l : locals) (n : nat) (v : R) : locals :=
  mklocals (arr_set (neighbor_elev l) n v) (temp_slope l) (delta_a l) (lower l).

Definition set_temp_slope (l : locals) (n : nat) (v : R) : locals :=
  mklocals (neighbor_elev l) (arr_set (temp_slope l) n v) (delta_a l) (lower l).

Definition set_delta_a (l : locals) (n : nat) (v : R) : locals :=
  mklocals (neighbor_elev l) (temp_slope l) (arr_set (delta_a l) n v) (lower l).

Definition set_lower (l : locals) (v : Z) : locals :=
  mklocals (neighbor_elev l) (temp_slope l) (delta_a l) v.

Definition fresh_locals : locals :=
  mklocals (fun _ => 0) (fun _ => 0) (fun _ => 0) 0.

(** Modelled from the spec: [valid_cell_fine] is declared in slopeaspect.h and
    its body is not part of src/; the spec has it true exactly when "the
    neighbor lies" inside "the grid", the dense array of size
    [NYfine] x [NXfine]. *)
Definition valid_cell_fine (Map : MAPSIZE) (x y : Z) : bool :=
  ((0 <=? x) && (x <? NXfine Map) && (0 <=? y) && (y <? NYfine Map))%Z.

(** ** The function *)

Section CalcTopoIndex.

(** The constants of constants.h and settings.h, which are not part of
    src/: the mask value of a cell outside the basin, and the number of
    neighbors of a cell of the fine grid. *)
Variable OUTSIDEBASIN : Z.
Variable NDIRSfine : Z.

(** The lookup tables; an array with an empty initializer holds zeros. *)
Definition xneighbor : list Z :=
  if (NDIRSfine =? 4)%Z then [0; 1; 0; -1]%Z
  else if (NDIRSfine =? 8)%Z then [-1; 0; 1; 1; 1; 0; -1; -1]%Z
  else [].

Definition yneighbor : list Z :=
  if (NDIRSfine =? 4)%Z then [-1; 0; 1; 0]%Z
  else if (NDIRSfine =? 8)%Z then [1; 1; 1; 0; -1; -1; -1; 0]%Z
  else [].

Definition xn_of (x : Z) (n : nat) : Z := (x + nth n xneighbor 0%Z)%Z.
Definition yn_of (y : Z) (n : nat) : Z := (y + nth n yneighbor 0%Z)%Z.

Variable Map : MAPSIZE.

(** The first loop over the cells: [a[y][x] = dx * dy]. *)
Definition init_body (dx dy : Z) (k : nat) (s : state) : state :=
  let y := ITEM.y (cell_at Map k) in
  let x := ITEM.x (cell_at Map k) in
  set_a s y x (IZR (dx * dy)).

(** "fill neighbor array" *)
Definition fill_body (FM : grid FINEPIX) (x y : Z) (n : nat) (l : locals) : locals :=
  let xn := xn_of x n in
  let yn := yn_of y n in
  if valid_cell_fine Map xn yn then
    set_neighbor_elev l n
      (if (Mask (FM yn xn) =? 0)%Z then IZR OUTSIDEBASIN else Dem (FM yn xn))
  else
    set_neighbor_elev l n (IZR OUTSIDEBASIN).

(** [if (n==0 || n==2 || n==4 || n==6)] *)
Definition diagonal (n : nat) : bool :=
  (n =? 0)%nat || (n =? 2)%nat || (n =? 4)%nat || (n =? 6)%nat.

(** The first loop of [case 8]: the slopes, [tanbeta], [contour_length],
    [delta_a] and the count of the neighbors that are not lower. *)
Definition slope_body (length_diagonal celev : R) (y x : Z) (n : nat)
    (sl : state * locals) : state * locals :=
  let (s, l) := sl in
  let l :=
    if Req_dec_T (neighbor_elev l n) (IZR OUTSIDEBASIN)
    then set_neighbor_elev l n celev
    else l in
  if Rlt_dec (neighbor_elev l n) celev then
    if diagonal n then
      let l := set_temp_slope l n ((celev - neighbor_elev l n) / length_diagonal) in
      let s := set_contour_length s y x (contour_length s y x + 0.4 * DMASS Map) in
      let s := set_tanbeta s y x (tanbeta s y x + temp_slope l n * (0.4 * DMASS Map)) in
      let l := set_delta_a l n (a s y x * temp_slope l n * (0.4 * DMASS Map)) in
      (s, l)
    else
      let l := set_temp_slope l n ((celev - neighbor_elev l n) / DMASS Map) in
      let s := set_contour_length s y x (contour_length s y x + 0.6 * DMASS Map) in
      let s := set_tanbeta s y x (tanbeta s y x + temp_slope l n * (0.6 * DMASS Map)) in
      let l := set_delta_a l n (a s y x * temp_slope l n * (0.6 * DMASS Map)) in
      (s, l)
  else
    (s, set_lower l (lower l + 1)).

(** The value [tanbeta] gets in a flat area. *)
Definition flat_tanbeta (length_diagonal : R) : R :=
  IZR (NDIRSfine ÷ 2) * ((0.5 * IZR VERTRES) / length_diagonal) +
  IZR (NDIRSfine ÷ 2) * ((0.5 * IZR VERTRES) / DMASS Map).

Definition flat_body (length_diagonal : R) (y x : Z) (sl : state * locals)
  : state * locals :=
  let (s, l) := sl in
  if (lower l =? 8)%Z
  then (set_tanbeta s y x (flat_tanbeta length_diagonal), l)
  else (s, l).

(** [a[yt][xt] += delta_a[n]/tanbeta[y][x]] *)
Definition route_to (s : state) (l : locals) (y x : Z) (n : nat) (yt xt : Z) : state :=
  set_a s yt xt (a s yt xt + delta_a l n / tanbeta s y x).

(** "Distributing total upslope area to downslope neighboring cells" *)
Definition route_body (l : locals) (celev : R) (y x : Z) (n : nat) (s : state)
  : outcome state :=
  if Rlt_dec (neighbor_elev l n) celev then
    match n with
    | 0%nat => Ok (route_to s l y x n (y + 1) (x - 1))
    | 1%nat => Ok (route_to s l y x n (y + 1) x)
    | 2%nat => Ok (route_to s l y x n (y + 1) (x + 1))
    | 3%nat => Ok (route_to s l y x n y (x + 1))
    | 4%nat => Ok (route_to s l y x n (y - 1) (x + 1))
    | 5%nat => Ok (route_to s l y x n (y - 1) x)
    | 6%nat => Ok (route_to s l y x n (y - 1) (x - 1))
    | 7%nat => Ok (route_to s l y x n y (x - 1))
    | _ => Fatal s
    end
  else Ok s.

(** [lower = 0], the slope loop and the flat-area test of [case 8]. *)
Definition slope_pass (length_diagonal celev : R) (y x : Z) (l : locals) (s : state)
  : state * locals :=
  let l := set_lower l 0 in
  let sl := for_each (countup (Z.to_nat NDIRSfine))
              (slope_body length_diagonal celev y x) (s, l) in
  flat_body length_diagonal y x sl.

(** [case 8:] of [switch (NDIRSfine)] *)
Definition case_8 (length_diagonal celev : R) (y x : Z) (l : locals) (s : state)
  : outcome state :=
  let (s, l) := slope_pass length_diagonal celev y x l s in
  for_eachM (countup (Z.to_nat NDIRSfine)) (route_body l celev y x) s.

(** The loop that fills [neighbor_elev] for the cell [(x, y)]. *)
Definition fill_pass (FM : grid FINEPIX) (x y : Z) : locals :=
  for_each (countup (Z.to_nat NDIRSfine)) (fill_body FM x y) fresh_locals.

(** The body of the sweep, "Loop through all cells in descending order of
    elevation". *)
Definition sweep_body (length_diagonal : R) (k : nat) (s : state) : outcome state :=
  let y := ITEM.y (cell_at Map k) in
  let x := ITEM.x (cell_at Map k) in
  let l := fill_pass (FineMap s) x y in
  let celev := Dem (FineMap s y x) in
  if (NDIRSfine =? 8)%Z then case_8 length_diagonal celev y x l s
  else if (NDIRSfine =? 4)%Z then Fatal s
  else Fatal s.

(** The state and the locals of the step at [OrderedCellsfine[k]] when its
    routing loop starts. *)
Definition before_routing (length_diagonal : R) (k : nat) (s : state)
  : state * locals :=
  let y := ITEM.y (cell_at Map k) in
  let x := ITEM.x (cell_at Map k) in
  slope_pass length_diagonal (Dem (FineMap s y x)) y x (fill_pass (FineMap s) x y) s.

(** The last loop over the cells: [TopoIndex = log(a/tanbeta)]. *)
Definition final_body (k : nat) (s : state) : state :=
  let y := ITEM.y (cell_at Map k) in
  let x := ITEM.x (cell_at Map k) in
  set_TopoIndex s y x (ln (a s y x / tanbeta s y x)).

Definition dx_of : Z := float_to_int (DMASS Map).
Definition dy_of : Z := float_to_int (DMASS Map).

(** [sqrt((pow(dx, 2)) + (pow(dy, 2)))] *)
Definition length_diagonal_of : R := sqrt (IZR dx_of ^ 2 + IZR dy_of ^ 2).

Definition initial_state (FM : grid FINEPIX) : state :=
  mkstate zero_grid zero_grid zero_grid FM.

Definition init_pass (s : state) : state :=
  for_each (countdown (NumCellsfine Map)) (init_body dx_of dy_of) s.

Definition sweep_pass (s : state) : outcome state :=
  for_eachM (countdown (NumCellsfine Map)) (sweep_body length_diagonal_of) s.

Definition final_pass (s : state) : outcome state :=
  Ok (for_each (countdown (NumCellsfine Map)) final_body s).

(** The function, up to the diagnostic output, which [printmap = 0]
    disables. *)
Definition CalcTopoIndex (FM : grid FINEPIX) : outcome state :=
  bind (sweep_pass (init_pass (initial_state FM))) final_pass.

End CalcTopoIndex.

(** ** What one step of the sweep computes

    The loops of [case 8] in closed form, for the 8-neighbor stencil. *)

Section Cell.

Variable OUTSIDEBASIN : Z.
Variable Map : MAPSIZE.
Variable length_diagonal : R.
Variable FM : grid FINEPIX.
Variables x y : Z.

(** The elevation the "fill neighbor array" loop stores for neighbor [n]. *)
Definition raw_elev (n : nat) : R :=
  if valid_cell_fine Map (xn_of 8 x n) (yn_of 8 y n) then
    if (Mask (FM (yn_of 8 y n) (xn_of 8 x n)) =? 0)%Z
    then IZR OUTSIDEBASIN
    else Dem (FM (yn_of 8 y n) (xn_of 8 x n))
  else IZR OUTSIDEBASIN.

(** The elevation of neighbor [n] once the sentinel is replaced by the
    elevation of the cell itself. *)
Definition flat_elev (n : nat) : R :=
  if Req_dec_T (raw_elev n) (IZR OUTSIDEBASIN) then Dem (FM y x) else raw_elev n.

(** Neighbor [n] is strictly lower than the cell. *)
Definition is_lower (n : nat) : bool :=
  if Rlt_dec (flat_elev n) (Dem (FM y x)) then true else false.

(** [temp_slope[n]] and the length of contour it is weighted with. *)
Definition slope_to (n : nat) : R :=
  if diagonal n
  then (Dem (FM y x) - flat_elev n) / length_diagonal
  else (Dem (FM y x) - flat_elev n) / DMASS Map.

Definition contour_to (n : nat) : R :=
  if diagonal n then 0.4 * DMASS Map else 0.6 * DMASS Map.

(** The sum of [f n] over the strictly lower neighbors [n < k]. *)
Fixpoint sum_lower (f : nat -> R) (k : nat) : R :=
  match k with
  | O => 0
  | S k' => sum_lower f k' + (if is_lower k' then f k' else 0)
  end.

(** The number of neighbors [n < k] that are not strictly lower. *)
Fixpoint count_not_lower (k : nat) : Z :=
  match k with
  | O => 0
  | S k' => (count_not_lower k' + (if is_lower k' then 0 else 1))%Z
  end.

(** [tanbeta[y][x]] at the end of the step, from its value [tb] before. *)
Definition tanbeta_after (tb : R) : R :=
  if (count_not_lower 8 =? 8)%Z
  then flat_tanbeta 8 Map length_diagonal
  else tb + sum_lower (fun n => slope_to n * contour_to n) 8.

(** What the step adds to [a[y'][x']]. *)
Definition inflow (area tb : R) (y' x' : Z) : R :=
  sum_lower
    (fun n =>
       if ((y' =? yn_of 8 y n) && (x' =? xn_of 8 x n))%Z
       then area * slope_to n * contour_to n / tanbeta_after tb
       else 0) 8.

End Cell.

(** One step of the sweep, at cell [(x, y)]. *)
Definition process_cell (OUTSIDEBASIN : Z) (Map : MAPSIZE) (length_diagonal : R)
    (c : ITEM.t) (s : state) : state :=
  let x := ITEM.x c in
  let y := ITEM.y c in
  let FM := FineMap s in
  mkstate
    (fun y' x' =>
       a s y' x' +
       inflow OUTSIDEBASIN Map length_diagonal FM x y (a s y x) (tanbeta s y x) y' x')
    (grid_set (tanbeta s) y x
       (tanbeta_after OUTSIDEBASIN Map length_diagonal FM x y (tanbeta s y x)))
    (grid_set (contour_length s) y x
       (contour_length s y x +
        sum_lower OUTSIDEBASIN Map FM x y (contour_to Map) 8))
    FM.

(** ** The sweep as a sequence of cells *)

(** The cells the three loops over [OrderedCellsfine] run their body at, in
    the order of execution. *)
Definition visited (Map : MAPSIZE) : list ITEM.t :=
  map (cell_at Map) (countdown (NumCellsfine Map)).

(** The bodies of the first and of the last loop, at a cell. *)
Definition init_cell (Map : MAPSIZE) (c : ITEM.t) (s : state) : state :=
  set_a s (ITEM.y c) (ITEM.x c) (IZR (dx_of Map * dy_of Map)).

Definition final_cell (c : ITEM.t) (s : state) : state :=
  set_TopoIndex s (ITEM.y c) (ITEM.x c)
    (ln (a s (ITEM.y c) (ITEM.x c) / tanbeta s (ITEM.y c) (ITEM.x c))).

(** A loop body run at each cell of a list, first cell first. *)
Definition run (f : ITEM.t -> state -> state) (cells : list ITEM.t) (s : state)
  : state :=
  fold_left (fun acc c => f c acc) cells s.

(** None of the 8 neighbors of cell [c] is strictly lower than [c]. *)
Definition no_lower (OUTSIDEBASIN : Z) (Map : MAPSIZE) (FM : grid FINEPIX)
    (c : ITEM.t) : Prop :=
  forall n, (n < 8)%nat ->
    is_lower OUTSIDEBASIN Map FM (ITEM.x c) (ITEM.y c) n = false.

(** The areas and the slopes of a state are not negative. *)
Definition nonneg_state (s : state) : Prop :=
  (forall y x, 0 <= a s y x) /\ (forall y x, 0 <= tanbeta s y x).

(** The elevation of a cell. *)
Definition elev (FM : grid FINEPIX) (c : ITEM.t) : R :=
  Dem (FM (ITEM.y c) (ITEM.x c)).

(** A sequence of cells in which no cell is higher than a cell before it. *)
Definition descending (FM : grid FINEPIX) (cells : list ITEM.t) : Prop :=
  StronglySorted (fun c1 c2 => elev FM c2 <= elev FM c1) cells.

(** The sum of [f c] over the cells [c] of a list. *)
Definition sum_cells (f : ITEM.t -> R) (cells : list ITEM.t) : R :=
  fold_right (fun c acc => f c + acc) 0 cells.

(** The test [lower == 8] of the code: no neighbor of [c] is strictly lower,
    so [c] keeps what it has received (an outlet or a sink of the basin). *)
Definition is_sink (OUTSIDEBASIN : Z) (Map : MAPSIZE) (FM : grid FINEPIX)
    (c : ITEM.t) : bool :=
  (count_not_lower OUTSIDEBASIN Map FM (ITEM.x c) (ITEM.y c) 8 =? 8)%Z.

(** Every cell of the grid that is inside the basin is in the list. *)
Definition covers (Map : MAPSIZE) (FM : grid FINEPIX) (cells : list ITEM.t) : Prop :=
  forall x y,
    valid_cell_fine Map x y = true -> Mask (FM y x) <> 0%Z ->
    In (ITEM.mk x y) cells.

(** The area the sinks of a list of cells hold in state [s]. *)
Definition sink_area (OUTSIDEBASIN : Z) (Map : MAPSIZE) (FM : grid FINEPIX)
    (s : state) (cells : list ITEM.t) : R :=
  sum_cells
    (fun c => if is_sink OUTSIDEBASIN Map FM c
              then a s (ITEM.y c) (ITEM.x c) else 0) cells.

(** The area of the cells of a list in state [s]. *)
Definition area_of (s : state) (cells : list ITEM.t) : R :=
  sum_cells (fun c => a s (ITEM.y c) (ITEM.x c)) cells.

(** ** Inputs of the scenarios *)

Definition cell (x y : Z) : ITEM.t := ITEM.mk x y.

(** The 1 x 2 row: elevation 20 on the left, 10 on the right, cell size 10.
    The left cell is [OrderedCellsfine[1]], so it is processed first. *)
Definition row2_map : MAPSIZE := mkMAPSIZE 2 1 10 [cell 1 0; cell 0 0].

Definition row2_fine : grid FINEPIX :=
  fun y x => mkFINEPIX (if (x =? 0)%Z then 20 else 10) 1 0.

(** The flat 3 x 3 basin: elevation 10 everywhere, cell size 10. *)
Definition flat3_map : MAPSIZE :=
  mkMAPSIZE 3 3 10
    [cell 0 0; cell 1 0; cell 2 0;
     cell 0 1; cell 1 1; cell 2 1;
     cell 0 2; cell 1 2; cell 2 2].

Definition flat3_fine : grid FINEPIX := fun _ _ => mkFINEPIX 10 1 0.

(** A basin of one cell, and a map with no cell to process. *)
Definition single_map : MAPSIZE := mkMAPSIZE 1 1 10 [cell 0 0].

Definition empty_map : MAPSIZE := mkMAPSIZE 1 1 10 [].

(** The 1 x 2 row again, the right cell now at elevation 0. *)
Definition pit_fine : grid FINEPIX :=
  fun y x => mkFINEPIX (if (x =? 0)%Z then 20 else 0) 1 0.

(** A 1 x 3 row of elevations 30, 20 and 10, listed from the highest cell to
    the lowest. *)
Definition row3_map : MAPSIZE := mkMAPSIZE 3 1 10 [cell 0 0; cell 1 0; cell 2 0].

Definition row3_fine : grid FINEPIX :=
  fun y x => mkFINEPIX (if (x =? 0)%Z then 30 else if (x =? 1)%Z then 20 else 10) 1 0.

(** The same row, listed from the lowest cell to the highest. *)
Definition row3_up_map : MAPSIZE := mkMAPSIZE 3 1 10 [cell 2 0; cell 1 0; cell 0 0].

(** ** Allocation of the grids

    Lines 106-128 of the source: each of the three grids is an array of
    [NYfine] rows obtained by one call of [calloc] for the array of row
    pointers and one call for each row; a null result is reported with
    [ReportError].  Whether a call succeeds is not decided by the program:
    [calloc_ok i] tells whether the call number [i] of the run returns a
    non-null pointer.  The state of these loops is the number of calls made
    so far. *)

Definition calloc_call (calloc_ok : nat -> bool) (calls : nat) : outcome nat :=
  if calloc_ok calls then Ok (S calls) else Fatal calls.

(** [if (!(g = calloc(NYfine, ...))) ReportError(...);
    for (i = 0; i < NYfine; i++)
      if (!(g[i] = calloc(NXfine, ...))) ReportError(...);] *)
Definition alloc_grid (calloc_ok : nat -> bool) (Map : MAPSIZE) (calls : nat)
  : outcome nat :=
  bind (calloc_call calloc_ok calls)
    (for_eachM (countup (Z.to_nat (NYfine Map))) (fun _ => calloc_call calloc_ok)).

(** The allocation of [a], [tanbeta] and [contour_length], in this order. *)
Definition allocate (calloc_ok : nat -> bool) (Map : MAPSIZE) : outcome nat :=
  bind (bind (alloc_grid calloc_ok Map 0%nat) (alloc_grid calloc_ok Map))
    (alloc_grid calloc_ok Map).

(** The function with its allocations: the computation starts when all of
    them have succeeded. *)
Definition CalcTopoIndex_alloc (calloc_ok : nat -> bool) (OUTSIDEBASIN NDIRSfine : Z)
    (Map : MAPSIZE) (FM : grid FINEPIX) : outcome state :=
  match allocate calloc_ok Map with
  | Ok _ => CalcTopoIndex OUTSIDEBASIN NDIRSfine Map FM
  | Fatal _ => Fatal (initial_state FM)
  end.

(** ** Relations between cells *)

(** The step at cell [c] routes area into cell [c']: [c'] is one of the
    strictly lower neighbors of [c]. *)
Definition feeds (OUTSIDEBASIN : Z) (Map : MAPSIZE) (FM : grid FINEPIX)
    (c c' : ITEM.t) : Prop :=
  exists n, (n < 8)%nat /\
    is_lower OUTSIDEBASIN Map FM (ITEM.x c) (ITEM.y c) n = true /\
    c' = ITEM.mk (xn_of 8 (ITEM.x c) n) (yn_of 8 (ITEM.y c) n).

(** Every neighbor of [c] is off the grid or outside the basin. *)
Definition isolated (Map : MAPSIZE) (FM : grid FINEPIX) (c : ITEM.t) : Prop :=
  forall n, (n < 8)%nat ->
    valid_cell_fine Map (xn_of 8 (ITEM.x c) n) (yn_of 8 (ITEM.y c) n) = false \/
    Mask (FM (yn_of 8 (ITEM.y c) n) (xn_of 8 (ITEM.x c) n)) = 0%Z.



(** Cell [c'] is one of the 8 neighbors of cell [c]. *)
Definition adjacent (c c' : ITEM.t) : Prop :=
  exists n, (n < 8)%nat /\
    c' = ITEM.mk (xn_of 8 (ITEM.x c) n) (yn_of 8 (ITEM.y c) n).
(** ** The function on the numbers of the machine

    The model above computes on exact numbers.  [Float32] is the same code
    on the numbers the compiled program computes with: a [float] is an
    IEEE 754 binary32 number, a [double] a binary64 number, and every
    operation rounds to nearest, ties to even ([SpecFloat]).  An expression
    is evaluated in the type C gives it: an operation on two [float]s is a
    binary32 operation, an operation with a [double] operand (the literals
    [0.4], [0.6] and [0.5], the results of [pow] and [sqrt]) is a binary64
    operation on the converted operands, and an assignment to a [float]
    rounds to binary32.  An [int] is a 32-bit integer in two's complement.

    The function [log] of math.h is computed where the C standard fixes its
    value, and left as a call elsewhere. *)

Module Float32.

Local Open Scope Z_scope.

(** Conversions.  A value that is not a number, or is infinite, converts
    to itself. *)
Definition to_float (v : spec_float) : spec_float :=
  match v with
  | S754_finite s m e => binary_round 24 128 s m e
  | _ => v
  end.

Definition to_double (v : spec_float) : spec_float :=
  match v with
  | S754_finite s m e => binary_round 53 1024 s m e
  | _ => v
  end.

Definition float_of_int (z : Z) : spec_float := binary_normalize 24 128 z 0 false.

Definition double_of_int (z : Z) : spec_float := binary_normalize 53 1024 z 0 false.

Definition INT_MIN : Z := -2147483648.
Definition INT_MAX : Z := 2147483647.

(** [(int) f]: truncation toward zero.  The conversion of a value out of the
    range of [int] is undefined in C; the conversion instruction of x86-64
    gives [INT_MIN]. *)
Definition int_of_float (v : spec_float) : Z :=
  match v with
  | S754_zero _ => 0
  | S754_finite s m e =>
      let q := if 0 <=? e then Zpos m * 2 ^ e else Zpos m / 2 ^ (- e) in
      let z := if s then - q else q in
      if (INT_MIN <=? z) && (z <=? INT_MAX) then z else INT_MIN
  | _ => INT_MIN
  end.

(** The product of two [int]s.  An overflow is undefined in C; the multiply
    instruction keeps the low 32 bits. *)
Definition int_mul (i j : Z) : Z := (i * j + 2 ^ 31) mod 2 ^ 32 - 2 ^ 31.

(** Operations on [float]s and on [double]s. *)
Definition fadd : spec_float -> spec_float -> spec_float := SFadd 24 128.
Definition fsub : spec_float -> spec_float -> spec_float := SFsub 24 128.
Definition fmul : spec_float -> spec_float -> spec_float := SFmul 24 128.
Definition fdiv : spec_float -> spec_float -> spec_float := SFdiv 24 128.

Definition dadd : spec_float -> spec_float -> spec_float := SFadd 53 1024.
Definition dmul : spec_float -> spec_float -> spec_float := SFmul 53 1024.
Definition ddiv : spec_float -> spec_float -> spec_float := SFdiv 53 1024.
Definition dsqrt : spec_float -> spec_float := SFsqrt 53 1024.

(** The literals [0.4], [0.6] and [0.5]: the binary64 numbers nearest to
    4/10, 6/10 and 1/2. *)
Definition d_0_4 : spec_float := ddiv (double_of_int 4) (double_of_int 10).
Definition d_0_6 : spec_float := ddiv (double_of_int 6) (double_of_int 10).
Definition d_0_5 : spec_float := ddiv (double_of_int 1) (double_of_int 2).

(** [pow(i, 2)] for an [int] [i]: the square of the converted operand. *)
Definition pow_2 (i : Z) : spec_float := dmul (double_of_int i) (double_of_int i).

(** The value is zero, of either sign. *)
Definition is_zero (v : spec_float) : bool :=
  match v with
  | S754_zero _ => true
  | _ => false
  end.

(** A [float] that is known, or the [float] that [log] gives for the
    [double] [q]. *)
Inductive topo_value : Type :=
| known (v : spec_float)
| log_of (q : spec_float).

(** [log(q)], stored in a [float].  For an argument that is zero, negative,
    infinite or not a number the C standard fixes the result (C99, F.9.3.7):
    log(+-0) is minus infinity, log(+infinity) is +infinity, and the log of
    a negative number or of a NaN is a NaN. *)
Definition log (q : spec_float) : topo_value :=
  match q with
  | S754_zero _ => known (S754_infinity true)
  | S754_infinity false => known (S754_infinity false)
  | S754_infinity true => known S754_nan
  | S754_nan => known S754_nan
  | S754_finite true _ _ => known S754_nan
  | S754_finite false _ _ => log_of q
  end.

Record FINEPIX : Type := mkFINEPIX {
  Dem : spec_float;
  Mask : Z;
  TopoIndex : topo_value
}.

Record MAPSIZE : Type := mkMAPSIZE {
  NXfine : Z;
  NYfine : Z;
  DMASS : spec_float;
  OrderedCellsfine : list ITEM.t
}.

Definition NumCellsfine (Map : MAPSIZE) : nat := length (OrderedCellsfine Map).

Definition cell_at (Map : MAPSIZE) (k : nat) : ITEM.t :=
  nth k (OrderedCellsfine Map) (ITEM.mk 0 0).

(** What [calloc] returns: every [float] is +0. *)
Definition zero_grid : grid spec_float := fun _ _ => S754_zero false.

Record state : Type := mkstate {
  a : grid spec_float;
  tanbeta : grid spec_float;
  contour_length : grid spec_float;
  FineMap : grid FINEPIX
}.

Definition set_a (s : state) (y x : Z) (v : spec_float) : state :=
  mkstate (grid_set (a s) y x v) (tanbeta s) (contour_length s) (FineMap s).

Definition set_tanbeta (s : state) (y x : Z) (v : spec_float) : state :=
  mkstate (a s) (grid_set (tanbeta s) y x v) (contour_length s) (FineMap s).

Definition set_contour_length (s : state) (y x : Z) (v : spec_float) : state :=
  mkstate (a s) (tanbeta s) (grid_set (contour_length s) y x v) (FineMap s).

Definition set_TopoIndex (s : state) (y x : Z) (v : topo_value) : state :=
  mkstate (a s) (tanbeta s) (contour_length s)
    (grid_set (FineMap s) y x
       (mkFINEPIX (Dem (FineMap s y x)) (Mask (FineMap s y x)) v)).

Record locals : Type := mklocals {
  neighbor_elev : nat -> spec_float;
  temp_slope : nat -> spec_float;
  delta_a : nat -> spec_float;
  lower : Z
}.

Definition arr_set (f : nat -> spec_float) (n : nat) (v : spec_float)
  : nat -> spec_float :=
  fun m => if Nat.eqb m n then v else f m.

Definition set_neighbor_elev (l : locals) (n : nat) (v : spec_float) : locals :=
  mklocals (arr_set (neighbor_elev l) n v) (temp_slope l) (delta_a l) (lower l).

Definition set_temp_slope (l : locals) (n : nat) (v : spec_float) : locals :=
  mklocals (neighbor_elev l) (arr_set (temp_slope l) n v) (delta_a l) (lower l).

Definition set_delta_a (l : locals) (n : nat) (v : spec_float) : locals :=
  mklocals (neighbor_elev l) (temp_slope l) (arr_set (delta_a l) n v) (lower l).

Definition set_lower (l : locals) (v : Z) : locals :=
  mklocals (neighbor_elev l) (temp_slope l) (delta_a l) v.

Definition fresh_locals : locals :=
  mklocals (fun _ => S754_zero false) (fun _ => S754_zero false)
    (fun _ => S754_zero false) 0.

(** Modelled from the spec: [valid_cell_fine] is declared in slopeaspect.h and
    its body is not part of src/; the spec has it true exactly when "the
    neighbor lies" inside "the grid", the dense array of size
    [NYfine] x [NXfine]. *)
Definition valid_cell_fine (Map : MAPSIZE) (x y : Z) : bool :=
  (0 <=? x) && (x <? NXfine Map) && (0 <=? y) && (y <? NYfine Map).

Section CalcTopoIndex.

Variable OUTSIDEBASIN : Z.
Variable NDIRSfine : Z.
Variable Map : MAPSIZE.

(** [a[y][x] = dx * dy] *)
Definition init_body (dx dy : Z) (k : nat) (s : state) : state :=
  let y := ITEM.y (cell_at Map k) in
  let x := ITEM.x (cell_at Map k) in
  set_a s y x (float_of_int (int_mul dx dy)).

(** "fill neighbor array" *)
Definition fill_body (FM : grid FINEPIX) (x y : Z) (n : nat) (l : locals) : locals :=
  let xn := xn_of NDIRSfine x n in
  let yn := yn_of NDIRSfine y n in
  if valid_cell_fine Map xn yn then
    set_neighbor_elev l n
      (if Mask (FM yn xn) =? 0 then float_of_int OUTSIDEBASIN else Dem (FM yn xn))
  else
    set_neighbor_elev l n (float_of_int OUTSIDEBASIN).

(** The first loop of [case 8]. *)
Definition slope_body (length_diagonal celev : spec_float) (y x : Z) (n : nat)
    (sl : state * locals) : state * locals :=
  let (s, l) := sl in
  let l :=
    if SFeqb (neighbor_elev l n) (float_of_int OUTSIDEBASIN)
    then set_neighbor_elev l n celev
    else l in
  if SFltb (neighbor_elev l n) celev then
    if diagonal n then
      let l := set_temp_slope l n
                 (fdiv (fsub celev (neighbor_elev l n)) length_diagonal) in
      let s := set_contour_length s y x
                 (to_float (dadd (to_double (contour_length s y x))
                                 (dmul d_0_4 (to_double (DMASS Map))))) in
      let s := set_tanbeta s y x
                 (to_float (dadd (to_double (tanbeta s y x))
                                 (dmul (to_double (temp_slope l n))
                                       (dmul d_0_4 (to_double (DMASS Map)))))) in
      let l := set_delta_a l n
                 (to_float (dmul (to_double (fmul (a s y x) (temp_slope l n)))
                                 (dmul d_0_4 (to_double (DMASS Map))))) in
      (s, l)
    else
      let l := set_temp_slope l n
                 (fdiv (fsub celev (neighbor_elev l n)) (DMASS Map)) in
      let s := set_contour_length s y x
                 (to_float (dadd (to_double (contour_length s y x))
                                 (dmul d_0_6 (to_double (DMASS Map))))) in
      let s := set_tanbeta s y x
                 (to_float (dadd (to_double (tanbeta s y x))
                                 (dmul (to_double (temp_slope l n))
                                       (dmul d_0_6 (to_double (DMASS Map)))))) in
      let l := set_delta_a l n
                 (to_float (dmul (to_double (fmul (a s y x) (temp_slope l n)))
                                 (dmul d_0_6 (to_double (DMASS Map))))) in
      (s, l)
  else
    (s, set_lower l (lower l + 1)).

(** [((NDIRSfine/2)*((0.5 * VERTRES)/length_diagonal)) +
     ((NDIRSfine/2)*((0.5 * VERTRES)/(Map->DMASS)))] *)
Definition flat_tanbeta (length_diagonal : spec_float) : spec_float :=
  to_float
    (dadd
       (dmul (double_of_int (NDIRSfine ÷ 2))
          (ddiv (dmul d_0_5 (double_of_int VERTRES)) (to_double length_diagonal)))
       (dmul (double_of_int (NDIRSfine ÷ 2))
          (ddiv (dmul d_0_5 (double_of_int VERTRES)) (to_double (DMASS Map))))).

Definition flat_body (length_diagonal : spec_float) (y x : Z) (sl : state * locals)
  : state * locals :=
  let (s, l) := sl in
  if lower l =? 8
  then (set_tanbeta s y x (flat_tanbeta length_diagonal), l)
  else (s, l).

(** [delta_a[n]/tanbeta[y][x]] *)
Definition routed (s : state) (l : locals) (y x : Z) (n : nat) : spec_float :=
  fdiv (delta_a l n) (tanbeta s y x).

(** [a[yt][xt] += delta_a[n]/tanbeta[y][x]] *)
Definition route_to (s : state) (l : locals) (y x : Z) (n : nat) (yt xt : Z) : state :=
  set_a s yt xt (fadd (a s yt xt) (routed s l y x n)).

Definition route_body (l : locals) (celev : spec_float) (y x : Z) (n : nat) (s : state)
  : outcome state :=
  if SFltb (neighbor_elev l n) celev then
    match n with
    | 0%nat => Ok (route_to s l y x n (y + 1) (x - 1))
    | 1%nat => Ok (route_to s l y x n (y + 1) x)
    | 2%nat => Ok (route_to s l y x n (y + 1) (x + 1))
    | 3%nat => Ok (route_to s l y x n y (x + 1))
    | 4%nat => Ok (route_to s l y x n (y - 1) (x + 1))
    | 5%nat => Ok (route_to s l y x n (y - 1) x)
    | 6%nat => Ok (route_to s l y x n (y - 1) (x - 1))
    | 7%nat => Ok (route_to s l y x n y (x - 1))
    | _ => Fatal s
    end
  else Ok s.

Definition slope_pass (length_diagonal celev : spec_float) (y x : Z) (l : locals)
    (s : state) : state * locals :=
  let l := set_lower l 0 in
  let sl := for_each (countup (Z.to_nat NDIRSfine))
              (slope_body length_diagonal celev y x) (s, l) in
  flat_body length_diagonal y x sl.

Definition case_8 (length_diagonal celev : spec_float) (y x : Z) (l : locals)
    (s : state) : outcome state :=
  let (s, l) := slope_pass length_diagonal celev y x l s in
  for_eachM (countup (Z.to_nat NDIRSfine)) (route_body l celev y x) s.

Definition fill_pass (FM : grid FINEPIX) (x y : Z) : locals :=
  for_each (countup (Z.to_nat NDIRSfine)) (fill_body FM x y) fresh_locals.

Definition sweep_body (length_diagonal : spec_float) (k : nat) (s : state)
  : outcome state :=
  let y := ITEM.y (cell_at Map k) in
  let x := ITEM.x (cell_at Map k) in
  let l := fill_pass (FineMap s) x y in
  let celev := Dem (FineMap s y x) in
  if NDIRSfine =? 8 then case_8 length_diagonal celev y x l s
  else if NDIRSfine =? 4 then Fatal s
  else Fatal s.

(** The state and the locals of the step at [OrderedCellsfine[k]] when its
    routing loop starts. *)
Definition before_routing (length_diagonal : spec_float) (k : nat) (s : state)
  : state * locals :=
  let y := ITEM.y (cell_at Map k) in
  let x := ITEM.x (cell_at Map k) in
  slope_pass length_diagonal (Dem (FineMap s y x)) y x (fill_pass (FineMap s) x y) s.

(** [FineMap[y][x].TopoIndex = log(a[y][x]/tanbeta[y][x])] *)
Definition final_body (k : nat) (s : state) : state :=
  let y := ITEM.y (cell_at Map k) in
  let x := ITEM.x (cell_at Map k) in
  set_TopoIndex s y x (log (to_double (fdiv (a s y x) (tanbeta s y x)))).

Definition dx_of : Z := int_of_float (DMASS Map).
Definition dy_of : Z := int_of_float (DMASS Map).

(** [length_diagonal = sqrt((pow(dx, 2)) + (pow(dy, 2)))] *)
Definition length_diagonal_of : spec_float :=
  to_float (dsqrt (dadd (pow_2 dx_of) (pow_2 dy_of))).

Definition initial_state (FM : grid FINEPIX) : state :=
  mkstate zero_grid zero_grid zero_grid FM.

Definition init_pass (s : state) : state :=
  for_each (countdown (NumCellsfine Map)) (init_body dx_of dy_of) s.

Definition sweep_pass (s : state) : outcome state :=
  for_eachM (countdown (NumCellsfine Map)) (sweep_body length_diagonal_of) s.

Definition final_pass (s : state) : outcome state :=
  Ok (for_each (countdown (NumCellsfine Map)) final_body s).

(** The function, up to the diagnostic output, which [printmap = 0]
    disables. *)
Definition CalcTopoIndex (FM : grid FINEPIX) : outcome state :=
  bind (sweep_pass (init_pass (initial_state FM))) final_pass.

End CalcTopoIndex.

(** The 1 x 2 row with cell size 10 whose elevations are the two smallest
    positive [float]s: 2^-148 on the left, 2^-149 on the right.  The left
    cell is [OrderedCellsfine[1]], so it is processed first. *)
Definition tiny_map : MAPSIZE :=
  mkMAPSIZE 2 1 (float_of_int 10) [ITEM.mk 1 0; ITEM.mk 0 0].

Definition tiny_fine : grid FINEPIX :=
  fun y x =>
    mkFINEPIX (if x =? 0 then S754_finite false 2 (-149)
               else S754_finite false 1 (-149)) 1 (known (S754_zero false)).

(** A basin of one cell of size 46341, the least whole size whose square
    is above [INT_MAX]. *)
Definition wide_map : MAPSIZE := mkMAPSIZE 1 1 (float_of_int 46341) [ITEM.mk 0 0].

Definition level_fine : grid FINEPIX :=
  fun _ _ => mkFINEPIX (float_of_int 10) 1 (known (S754_zero false)).

End Float32.

(** * Proofs *)

(** ** Loops *)

Lemma for_each_app {S : Type} (l1 l2 : list nat) (body : nat -> S -> S) (s : S) :
  for_each (l1 ++ l2) body s = for_each l2 body (for_each l1 body s).
Proof. unfold for_each. apply fold_left_app. Qed.

Lemma for_eachM_app {S : Type} (l1 l2 : list nat) (body : nat -> S -> outcome S)
    (s s1 : S) :
  for_eachM l1 body s = Ok s1 ->
  for_eachM (l1 ++ l2) body s = for_eachM l2 body s1.
Proof.
  revert s. induction l1 as [|i l1 IH]; intros s H; simpl in *.
  - now inversion H.
  - destruct (body i s) as [s'|s']; [now apply IH | discriminate].
Qed.

Lemma for_each_single {S : Type} (i : nat) (body : nat -> S -> S) (s : S) :
  for_each [i] body s = body i s.
Proof. reflexivity. Qed.

Lemma countup_S (k : nat) : countup (S k) = countup k ++ [k].
Proof. unfold countup. now rewrite seq_S. Qed.

Lemma map_nth_countdown {A : Type} (l : list A) (d : A) :
  map (fun k => nth k l d) (countdown (length l)) = rev l.
Proof.
  induction l as [|c l IH] using rev_ind; [reflexivity|].
  rewrite length_app, Nat.add_comm, rev_app_distr. simpl.
  rewrite app_nth2, Nat.sub_diag by lia. simpl. f_equal.
  rewrite <- IH. clear IH.
  assert (H : forall n, (n <= length l)%nat ->
            map (fun k => nth k (l ++ [c]) d) (countdown n) =
            map (fun k => nth k l d) (countdown n)).
  { induction n as [|n IHn]; intros Hn; [reflexivity|]. simpl.
    rewrite app_nth1 by lia. f_equal. apply IHn. lia. }
  now apply H.
Qed.

Lemma for_each_map {S A : Type} (f : nat -> A) (g : A -> S -> S) (idx : list nat) (s : S) :
  for_each idx (fun k => g (f k)) s = fold_left (fun acc c => g c acc) (map f idx) s.
Proof.
  revert s. induction idx as [|i idx IH]; intros s; [reflexivity|]. simpl. apply IH.
Qed.

Lemma for_eachM_ok {S : Type} (f : nat -> S -> S) (body : nat -> S -> outcome S)
    (idx : list nat) (s : S) :
  (forall k s', body k s' = Ok (f k s')) ->
  for_eachM idx body s = Ok (for_each idx f s).
Proof.
  intros H. revert s. induction idx as [|i idx IH]; intros s; [reflexivity|].
  simpl. rewrite H. apply IH.
Qed.

(** ** Records and grids *)

Lemma grid_set_same {A : Type} (g : grid A) (y x : Z) (v : A) :
  grid_set g y x v y x = v.
Proof. unfold grid_set. now rewrite !Z.eqb_refl. Qed.

Lemma grid_set_other {A : Type} (g : grid A) (y x y' x' : Z) (v : A) :
  (y', x') <> (y, x) -> grid_set g y x v y' x' = g y' x'.
Proof.
  intros H. unfold grid_set.
  destruct (Z.eqb_spec y' y); destruct (Z.eqb_spec x' x); simpl; try reflexivity.
  subst. now elim H.
Qed.

Lemma grid_ext {A : Type} (g h : grid A) : (forall y x, g y x = h y x) -> g = h.
Proof.
  intros H. apply functional_extensionality. intros y.
  apply functional_extensionality. intros x. apply H.
Qed.

Lemma arr_set_same (f : nat -> R) (n : nat) (v : R) : arr_set f n v n = v.
Proof. unfold arr_set. now rewrite Nat.eqb_refl. Qed.

Lemma arr_set_other (f : nat -> R) (n m : nat) (v : R) :
  m <> n -> arr_set f n v m = f m.
Proof. intros H. unfold arr_set. now destruct (Nat.eqb_spec m n). Qed.

(** Two grids are equal when they agree at every cell; the cell a
    [grid_set] writes is tried first. *)
Ltac grid_eq :=
  apply grid_ext; intros ?y' ?x'; unfold grid_set;
  let E := fresh "E" in
  match goal with
  | |- context [((?u =? ?v)%Z && (?p =? ?q)%Z)%bool] =>
      destruct ((u =? v)%Z && (p =? q)%Z)%bool eqn:E;
      [ apply andb_true_iff in E; destruct E as [?E ?E];
        repeat match goal with H : (_ =? _)%Z = true |- _ => apply Z.eqb_eq in H end;
        subst; try rewrite !Z.eqb_refl; simpl; try lra
      | try reflexivity; try lra ]
  end.

Ltac slope_case :=
  solve [ f_equal; grid_eq
        | rewrite ?arr_set_same; (reflexivity || assumption)
        | let m := fresh "m" in let Hm := fresh "Hm" in
          intros m Hm; rewrite ?arr_set_other by exact Hm; reflexivity
        | discriminate
        | intros _; reflexivity
        | lia ].

(** ** One step of the sweep *)

Section CellProofs.

Variable OUTSIDEBASIN : Z.
Variable Map : MAPSIZE.
Variable length_diagonal : R.
Variable FM : grid FINEPIX.
Variables x y : Z.

Let celev : R := Dem (FM y x).
Let raw := raw_elev OUTSIDEBASIN Map FM x y.
Let flat := flat_elev OUTSIDEBASIN Map FM x y.
Let low := is_lower OUTSIDEBASIN Map FM x y.
Let slope := slope_to OUTSIDEBASIN Map length_diagonal FM x y.
Let contour := contour_to Map.
Let sum := sum_lower OUTSIDEBASIN Map FM x y.
Let count := count_not_lower OUTSIDEBASIN Map FM x y.

Lemma fill_loop_spec (k : nat) (l : locals) (n : nat) :
  neighbor_elev
    (for_each (countup k) (fill_body OUTSIDEBASIN 8 Map FM x y) l) n =
  if (n <? k)%nat then raw n else neighbor_elev l n.
Proof.
  induction k as [|k IH].
  - reflexivity.
  - rewrite countup_S, for_each_app, for_each_single.
    unfold fill_body at 1.
    destruct (Nat.eqb_spec n k) as [->|Hn].
    + replace (k <? S k)%nat with true by (symmetry; apply Nat.ltb_lt; lia).
      unfold raw, raw_elev.
      destruct (valid_cell_fine Map (xn_of 8 x k) (yn_of 8 y k)); simpl;
        now rewrite arr_set_same.
    + assert (E : (n <? S k)%nat = (n <? k)%nat).
      { destruct (Nat.ltb_spec n k), (Nat.ltb_spec n (S k)); try reflexivity; lia. }
      rewrite E, <- IH.
      destruct (valid_cell_fine Map (xn_of 8 x k) (yn_of 8 y k)); simpl;
        now rewrite arr_set_other.
Qed.

(** One iteration of the slope loop, on a state and locals in which slot [n]
    still holds what the fill loop stored. *)
Lemma slope_body_spec (n : nat) (s : state) (l : locals) :
  neighbor_elev l n = raw n ->
  let r := slope_body OUTSIDEBASIN Map length_diagonal celev y x n (s, l) in
  fst r =
    mkstate (a s)
      (grid_set (tanbeta s) y x
         (tanbeta s y x + (if low n then slope n * contour n else 0)))
      (grid_set (contour_length s) y x
         (contour_length s y x + (if low n then contour n else 0)))
      (FineMap s) /\
  neighbor_elev (snd r) n = flat n /\
  (forall m, m <> n -> neighbor_elev (snd r) m = neighbor_elev l m) /\
  (low n = true -> delta_a (snd r) n = a s y x * slope n * contour n) /\
  (forall m, m <> n -> delta_a (snd r) m = delta_a l m) /\
  (low n = true -> temp_slope (snd r) n = slope n) /\
  (forall m, m <> n -> temp_slope (snd r) m = temp_slope l m) /\
  lower (snd r) = (lower l + (if low n then 0 else 1))%Z.
Proof.
  intros Hraw r. subst r.
  unfold slope_body, low, is_lower, slope, slope_to, contour, contour_to.
  fold flat celev. unfold flat, flat_elev. fold raw celev. rewrite Hraw.
  destruct s as [sa st sc sf].
  destruct (Req_dec_T (raw n) (IZR OUTSIDEBASIN)) as [He|Hne]; simpl;
    rewrite ?arr_set_same, ?Hraw.
  - destruct (Rlt_dec celev celev) as [Habs|_]; [lra|]. simpl.
    repeat split; slope_case.
  - destruct (Rlt_dec (raw n) celev) as [Hlt|Hge]; simpl.
    + destruct (diagonal n); simpl; rewrite ?arr_set_same, ?grid_set_same;
        repeat split; slope_case.
    + repeat split; slope_case.
Qed.

Lemma slope_loop_spec (s : state) (k : nat) (l : locals) :
  (forall n, (n < 8)%nat -> neighbor_elev l n = raw n) ->
  (k <= 8)%nat ->
  let r := for_each (countup k)
             (slope_body OUTSIDEBASIN Map length_diagonal celev y x) (s, l) in
  fst r =
    mkstate (a s)
      (grid_set (tanbeta s) y x
         (tanbeta s y x + sum (fun n => slope n * contour n) k))
      (grid_set (contour_length s) y x (contour_length s y x + sum contour k))
      (FineMap s) /\
  (forall n, (n < k)%nat -> neighbor_elev (snd r) n = flat n) /\
  (forall n, (k <= n)%nat -> neighbor_elev (snd r) n = neighbor_elev l n) /\
  (forall n, (n < k)%nat -> low n = true ->
             delta_a (snd r) n = a s y x * slope n * contour n) /\
  (forall n, (n < k)%nat -> low n = true -> temp_slope (snd r) n = slope n) /\
  lower (snd r) = (lower l + count k)%Z.
Proof.
  intros Hl. induction k as [|k IH]; intros Hk r.
  - subst r. simpl. repeat split; try (intros; lia); try lia.
    destruct s as [sa st sc sf]; simpl. f_equal; grid_eq.
  - assert (Hk' : (k <= 8)%nat) by lia. specialize (IH Hk').
    subst r. rewrite countup_S, for_each_app.
    set (r0 := for_each (countup k) _ _) in *.
    destruct IH as (Hs & Hne1 & Hne2 & Hda & Hts & Hlow).
    destruct r0 as [s0 l0]. simpl in Hs, Hne1, Hne2, Hda, Hts, Hlow.
    rewrite !for_each_single.
    assert (Hraw : neighbor_elev l0 k = raw k).
    { rewrite Hne2 by lia. apply Hl. lia. }
    destruct (slope_body_spec k s0 l0 Hraw) as (Ts & Tn1 & Tn2 & Td1 & Td2 & Tt1 & Tt2 & Tl).
    set (r1 := slope_body _ _ _ _ _ _ _ _) in *.
    simpl sum. simpl count. fold (low k).
    repeat split.
    + rewrite Ts, Hs. simpl. rewrite !grid_set_same. f_equal; grid_eq.
    + intros n Hn. destruct (Nat.eq_dec n k) as [->|Hnk]; [exact Tn1|].
      rewrite Tn2 by exact Hnk. apply Hne1. lia.
    + intros n Hn. rewrite Tn2 by lia. apply Hne2. lia.
    + intros n Hn Hln. destruct (Nat.eq_dec n k) as [->|Hnk].
      * rewrite Td1 by exact Hln. rewrite Hs. reflexivity.
      * rewrite Td2 by exact Hnk. apply Hda; [lia | exact Hln].
    + intros n Hn Hln. destruct (Nat.eq_dec n k) as [->|Hnk].
      * now apply Tt1.
      * rewrite Tt2 by exact Hnk. apply Hts; [lia | exact Hln].
    + rewrite Tl, Hlow. lia.
Qed.


Lemma count_not_lower_bounds (k : nat) :
  (0 <= count k <= Z.of_nat k)%Z.
Proof.
  induction k as [|k IH]; simpl; [lia|].
  fold (count k) (low k). destruct (low k); lia.
Qed.

Lemma count_not_lower_full (k : nat) :
  count k = Z.of_nat k <-> (forall n, (n < k)%nat -> low n = false).
Proof.
  induction k as [|k IH]; simpl.
  - split; [intros _ n Hn; lia | reflexivity].
  - fold (count k) (low k). pose proof (count_not_lower_bounds k) as Hb.
    destruct (low k) eqn:Hk; split.
    + intros H. lia.
    + intros H. specialize (H k (Nat.lt_succ_diag_r k)). congruence.
    + intros H n Hn. destruct (Nat.eq_dec n k) as [->|Hnk]; [exact Hk|].
      apply IH; lia.
    + intros H. assert (count k = Z.of_nat k) by (apply IH; intros; apply H; lia).
      lia.
Qed.

Lemma sum_lower_ext (f g : nat -> R) (k : nat) :
  (forall n, (n < k)%nat -> low n = true -> f n = g n) ->
  sum f k = sum g k.
Proof.
  induction k as [|k IH]; intros H; simpl; [reflexivity|].
  fold (sum f k) (sum g k) (low k). rewrite IH by (intros; apply H; auto; lia).
  destruct (low k) eqn:Hk; [|reflexivity]. rewrite (H k); auto.
Qed.

Lemma sum_lower_none (f : nat -> R) (k : nat) :
  (forall n, (n < k)%nat -> low n = false) -> sum f k = 0.
Proof.
  induction k as [|k IH]; intros H; simpl; [reflexivity|].
  fold (sum f k) (low k). rewrite IH by (intros; apply H; lia).
  rewrite (H k) by lia. lra.
Qed.

(** The routing loop. *)
Lemma route_loop_spec (l : locals) (s : state) (k : nat) :
  (forall n, (n < 8)%nat -> neighbor_elev l n = flat n) ->
  (k <= 8)%nat ->
  for_eachM (countup k) (route_body l celev y x) s =
  Ok (mkstate
        (fun y' x' =>
           a s y' x' +
           sum (fun n =>
                  if ((y' =? yn_of 8 y n) && (x' =? xn_of 8 x n))%Z
                  then delta_a l n / tanbeta s y x
                  else 0) k)
        (tanbeta s) (contour_length s) (FineMap s)).
Proof.
  intros Hl. induction k as [|k IH]; intros Hk.
  - simpl. f_equal. destruct s as [sa st sc sf]; simpl. f_equal.
    apply grid_ext; intros; lra.
  - rewrite countup_S. erewrite for_eachM_app by (apply IH; lia).
    cbn [for_eachM]. unfold route_body.
    rewrite (Hl k) by lia. cbn [sum sum_lower]. fold (sum) (low k).
    unfold low at 1, is_lower. fold flat celev.
    destruct (Rlt_dec (flat k) celev) as [Hlt|Hge].
    + do 8 (destruct k as [|k];
            [ f_equal; unfold route_to, set_a; simpl; f_equal; apply grid_ext; intros y' x';
              unfold grid_set, yn_of, xn_of; simpl;
              rewrite ?Z.add_0_r; change (x + -1)%Z with (x - 1)%Z;
              change (y + -1)%Z with (y - 1)%Z;
              match goal with
              | |- context [((?u =? ?v)%Z && (?p =? ?q)%Z)%bool] =>
                  let E := fresh "E" in
                  destruct ((u =? v)%Z && (p =? q)%Z)%bool eqn:E;
                  [ apply andb_true_iff in E; destruct E as [E1 E2];
                    apply Z.eqb_eq in E1, E2; subst y' x'; lra
                  | lra ]
              end
            | ]).
      lia.
    + f_equal. f_equal. apply grid_ext; intros; lra.
Qed.

End CellProofs.

Lemma before_routing_spec (OUTSIDEBASIN : Z) (Map : MAPSIZE) (length_diagonal : R)
    (k : nat) (s : state) :
  let x := ITEM.x (cell_at Map k) in
  let y := ITEM.y (cell_at Map k) in
  let r := before_routing OUTSIDEBASIN 8 Map length_diagonal k s in
  fst r =
    mkstate (a s)
      (grid_set (tanbeta s) y x
         (tanbeta_after OUTSIDEBASIN Map length_diagonal (FineMap s) x y
            (tanbeta s y x)))
      (grid_set (contour_length s) y x
         (contour_length s y x +
          sum_lower OUTSIDEBASIN Map (FineMap s) x y (contour_to Map) 8))
      (FineMap s) /\
  (forall n, (n < 8)%nat ->
     neighbor_elev (snd r) n = flat_elev OUTSIDEBASIN Map (FineMap s) x y n) /\
  (forall n, (n < 8)%nat ->
     is_lower OUTSIDEBASIN Map (FineMap s) x y n = true ->
     temp_slope (snd r) n =
       slope_to OUTSIDEBASIN Map length_diagonal (FineMap s) x y n /\
     delta_a (snd r) n =
       a s y x * slope_to OUTSIDEBASIN Map length_diagonal (FineMap s) x y n *
       contour_to Map n).
Proof.
  intros x y r. subst r. unfold before_routing, slope_pass, fill_pass.
  fold x y. change (Z.to_nat 8) with 8%nat.
  set (l := set_lower _ 0).
  assert (Hl : forall n, (n < 8)%nat ->
                neighbor_elev l n = raw_elev OUTSIDEBASIN Map (FineMap s) x y n).
  { intros n Hn. subst l. unfold set_lower. cbn [neighbor_elev].
    rewrite fill_loop_spec. now apply Nat.ltb_lt in Hn as ->. }
  destruct (slope_loop_spec OUTSIDEBASIN Map length_diagonal (FineMap s) x y
              s 8 l Hl (le_n 8)) as (Hs & Hne & _ & Hda & Hts & Hlow).
  set (r := for_each (countup 8) _ (s, l)) in *.
  destruct r as [s1 l1]. cbn [fst snd] in Hs, Hne, Hda, Hts, Hlow.
  unfold flat_body. rewrite Hlow. subst l. cbn [set_lower lower]. rewrite Z.add_0_l.
  unfold tanbeta_after.
  destruct (count_not_lower OUTSIDEBASIN Map (FineMap s) x y 8 =? 8)%Z;
    cbn [fst snd]; (split; [|split; [exact Hne | intros n Hn Hln; split; auto]]).
  - rewrite Hs. unfold set_tanbeta. cbn [a tanbeta contour_length FineMap].
    f_equal. grid_eq.
  - exact Hs.
Qed.

Lemma sweep_body_8 (OUTSIDEBASIN : Z) (Map : MAPSIZE) (length_diagonal : R)
    (k : nat) (s : state) :
  sweep_body OUTSIDEBASIN 8 Map length_diagonal k s =
  Ok (process_cell OUTSIDEBASIN Map length_diagonal (cell_at Map k) s).
Proof.
  unfold sweep_body, process_cell. cbn [Z.eqb Pos.eqb]. unfold case_8.
  destruct (before_routing_spec OUTSIDEBASIN Map length_diagonal k s)
    as (Hs & Hne & Hda).
  unfold before_routing in Hs, Hne, Hda.
  set (x := ITEM.x (cell_at Map k)) in *. set (y := ITEM.y (cell_at Map k)) in *.
  destruct (slope_pass _ _ _ _ _ _ _ _) as [s1 l1]. cbn [fst snd] in Hs, Hne, Hda.
  change (Z.to_nat 8) with 8%nat.
  rewrite (route_loop_spec OUTSIDEBASIN Map (FineMap s) x y l1 s1 8 Hne (le_n 8)).
  f_equal. rewrite Hs. cbn [a tanbeta contour_length FineMap]. f_equal.
  apply grid_ext; intros y' x'. f_equal. unfold inflow.
  apply sum_lower_ext. intros n Hn Hln.
  destruct (Hda n Hn Hln) as [_ ->]. now rewrite grid_set_same.
Qed.

(** ** The three passes *)

Lemma visited_rev (Map : MAPSIZE) : visited Map = rev (OrderedCellsfine Map).
Proof. unfold visited, cell_at, NumCellsfine. apply map_nth_countdown. Qed.

Lemma init_pass_run (Map : MAPSIZE) (s : state) :
  init_pass Map s = run (init_cell Map) (visited Map) s.
Proof.
  unfold init_pass, run, visited.
  exact (for_each_map (cell_at Map) (init_cell Map) _ s).
Qed.

Lemma final_pass_run (Map : MAPSIZE) (s : state) :
  final_pass Map s = Ok (run final_cell (visited Map) s).
Proof.
  unfold final_pass, run, visited. f_equal.
  exact (for_each_map (cell_at Map) final_cell _ s).
Qed.

Lemma sweep_idx_run (OUTSIDEBASIN : Z) (Map : MAPSIZE) (idx : list nat) (s : state) :
  for_eachM idx (sweep_body OUTSIDEBASIN 8 Map (length_diagonal_of Map)) s =
  Ok (run (process_cell OUTSIDEBASIN Map (length_diagonal_of Map))
        (map (cell_at Map) idx) s).
Proof.
  rewrite (for_eachM_ok
             (fun k => process_cell OUTSIDEBASIN Map (length_diagonal_of Map)
                         (cell_at Map k))).
  - f_equal. unfold run.
    exact (for_each_map (cell_at Map)
             (process_cell OUTSIDEBASIN Map (length_diagonal_of Map)) idx s).
  - intros k s'. apply sweep_body_8.
Qed.

Lemma sweep_pass_run (OUTSIDEBASIN : Z) (Map : MAPSIZE) (s : state) :
  sweep_pass OUTSIDEBASIN 8 Map s =
  Ok (run (process_cell OUTSIDEBASIN Map (length_diagonal_of Map)) (visited Map) s).
Proof. apply sweep_idx_run. Qed.

Lemma CalcTopoIndex_run (OUTSIDEBASIN : Z) (Map : MAPSIZE) (FM : grid FINEPIX) :
  CalcTopoIndex OUTSIDEBASIN 8 Map FM =
  Ok (run final_cell (visited Map)
        (run (process_cell OUTSIDEBASIN Map (length_diagonal_of Map)) (visited Map)
           (run (init_cell Map) (visited Map) (initial_state FM)))).
Proof.
  unfold CalcTopoIndex. rewrite sweep_pass_run. simpl.
  rewrite final_pass_run, init_pass_run. reflexivity.
Qed.

Lemma run_app (f : ITEM.t -> state -> state) (l1 l2 : list ITEM.t) (s : state) :
  run f (l1 ++ l2) s = run f l2 (run f l1 s).
Proof. unfold run. apply fold_left_app. Qed.

(** *** What the passes leave alone *)

Lemma run_init_FineMap (Map : MAPSIZE) (cells : list ITEM.t) (s : state) :
  FineMap (run (init_cell Map) cells s) = FineMap s /\
  tanbeta (run (init_cell Map) cells s) = tanbeta s /\
  contour_length (run (init_cell Map) cells s) = contour_length s.
Proof.
  revert s. induction cells as [|c cells IH]; intros s; [now repeat split|].
  simpl. destruct (IH (init_cell Map c s)) as (H1 & H2 & H3).
  rewrite H1, H2, H3. now repeat split.
Qed.

Lemma run_init_a_in (Map : MAPSIZE) (cells : list ITEM.t) (s : state) (c : ITEM.t) :
  In c cells ->
  a (run (init_cell Map) cells s) (ITEM.y c) (ITEM.x c) =
  IZR (dx_of Map * dy_of Map).
Proof.
  induction cells as [|c0 cells IH] using rev_ind; intros Hin; [easy|].
  rewrite run_app. simpl. unfold grid_set.
  destruct ((ITEM.y c =? ITEM.y c0)%Z && (ITEM.x c =? ITEM.x c0)%Z) eqn:E;
    [reflexivity|].
  apply in_app_or in Hin. destruct Hin as [Hin | [-> | []]]; [now apply IH|].
  now rewrite !Z.eqb_refl in E.
Qed.

Lemma run_init_a_out (Map : MAPSIZE) (cells : list ITEM.t) (s : state) (y x : Z) :
  ~ In (ITEM.mk x y) cells ->
  a (run (init_cell Map) cells s) y x = a s y x.
Proof.
  revert s. induction cells as [|c0 cells IH]; intros s Hin; [reflexivity|].
  simpl. rewrite IH by (intros H; apply Hin; now right).
  simpl. apply grid_set_other. intros E. apply Hin. left.
  destruct c0 as [x0 y0]. simpl in E. now inversion E.
Qed.

Lemma run_process_FineMap (OB : Z) (Map : MAPSIZE) (ld : R) (cells : list ITEM.t)
    (s : state) :
  FineMap (run (process_cell OB Map ld) cells s) = FineMap s.
Proof.
  revert s. induction cells as [|c cells IH]; intros s; [reflexivity|].
  simpl. now rewrite IH.
Qed.

Lemma run_final_grids (cells : list ITEM.t) (s : state) :
  a (run final_cell cells s) = a s /\
  tanbeta (run final_cell cells s) = tanbeta s /\
  contour_length (run final_cell cells s) = contour_length s.
Proof.
  revert s. induction cells as [|c cells IH]; intros s; [now repeat split|].
  simpl. destruct (IH (final_cell c s)) as (H1 & H2 & H3).
  rewrite H1, H2, H3. now repeat split.
Qed.

(** ** Cell size and diagonal *)

Lemma float_to_int_IZR (z : Z) : float_to_int (IZR z) = z.
Proof.
  unfold float_to_int. destruct (Rle_dec 0 (IZR z)) as [H|H].
  - symmetry. apply Int_part_spec. lra.
  - rewrite <- opp_IZR. rewrite <- (Int_part_spec (IZR (- z)) (- z)); [lia | lra].
Qed.

Lemma float_to_int_ge_1 (r : R) : 1 <= r -> (1 <= float_to_int r)%Z.
Proof.
  intros H. unfold float_to_int. destruct (Rle_dec 0 r) as [_|H0]; [|lra].
  destruct (base_Int_part r) as [_ Hb].
  assert (Hlt : IZR 0 < IZR (Int_part r)) by lra.
  apply lt_IZR in Hlt. lia.
Qed.

Lemma length_diagonal_pos (Map : MAPSIZE) :
  1 <= DMASS Map -> 0 < length_diagonal_of Map.
Proof.
  intros H. unfold length_diagonal_of, dy_of, dx_of.
  pose proof (float_to_int_ge_1 _ H) as Hz. apply IZR_le in Hz.
  apply sqrt_lt_R0. nra.
Qed.

Lemma cell_area_pos (Map : MAPSIZE) :
  1 <= DMASS Map -> 1 <= IZR (dx_of Map * dy_of Map).
Proof.
  intros H. unfold dy_of, dx_of. pose proof (float_to_int_ge_1 _ H) as Hz.
  apply IZR_le. nia.
Qed.

(** ** Signs of the quantities of one step *)

Section CellBounds.

Variable OUTSIDEBASIN : Z.
Variable Map : MAPSIZE.
Variable length_diagonal : R.
Variable FM : grid FINEPIX.
Variables x y : Z.

Hypothesis Hdiag : 0 < length_diagonal.
Hypothesis Hsize : 0 < DMASS Map.

Let low := is_lower OUTSIDEBASIN Map FM x y.
Let slope := slope_to OUTSIDEBASIN Map length_diagonal FM x y.
Let contour := contour_to Map.
Let sum := sum_lower OUTSIDEBASIN Map FM x y.
Let count := count_not_lower OUTSIDEBASIN Map FM x y.

Lemma is_lower_lt (n : nat) :
  low n = true -> flat_elev OUTSIDEBASIN Map FM x y n < Dem (FM y x).
Proof.
  unfold low, is_lower. now destruct (Rlt_dec _ _).
Qed.

Lemma slope_to_pos (n : nat) : low n = true -> 0 < slope n.
Proof.
  intros H. apply is_lower_lt in H. unfold slope, slope_to.
  destruct (diagonal n); apply Rdiv_lt_0_compat; lra.
Qed.

Lemma contour_to_pos (n : nat) : 0 < contour n.
Proof. unfold contour, contour_to. destruct (diagonal n); lra. Qed.

Lemma term_pos (n : nat) : low n = true -> 0 < slope n * contour n.
Proof.
  intros H. apply Rmult_lt_0_compat; [now apply slope_to_pos | apply contour_to_pos].
Qed.

Lemma sum_lower_nonneg (f : nat -> R) (k : nat) :
  (forall n, low n = true -> 0 <= f n) -> 0 <= sum f k.
Proof.
  intros H. induction k as [|k IH]; simpl; [lra|].
  fold (sum f k) (low k). destruct (low k) eqn:E; [specialize (H k E)|]; lra.
Qed.

Lemma sum_lower_pos (f : nat -> R) (k n : nat) :
  (forall m, low m = true -> 0 < f m) ->
  (n < k)%nat -> low n = true -> 0 < sum f k.
Proof.
  intros H. induction k as [|k IH]; intros Hn Hl; [lia|]. simpl.
  fold (sum f k) (low k).
  assert (H0 : 0 <= sum f k).
  { apply sum_lower_nonneg. intros m Hm. specialize (H m Hm). lra. }
  destruct (Nat.eq_dec n k) as [->|Hnk].
  - rewrite Hl. specialize (H k Hl). lra.
  - assert (0 < sum f k) by (apply IH; [lia | exact Hl]).
    destruct (low k) eqn:E; [specialize (H k E)|]; lra.
Qed.

Lemma exists_lower (k : nat) :
  count k <> Z.of_nat k -> exists n, (n < k)%nat /\ low n = true.
Proof.
  induction k as [|k IH]; simpl; [easy|]. fold (count k) (low k).
  destruct (low k) eqn:E; intros H.
  - exists k. split; [lia | exact E].
  - destruct IH as (n & Hn & Hl); [lia|]. exists n. split; [lia | exact Hl].
Qed.

Lemma flat_tanbeta_eq :
  flat_tanbeta 8 Map length_diagonal =
  4 * (0.5 * 1 / length_diagonal) + 4 * (0.5 * 1 / DMASS Map).
Proof. reflexivity. Qed.

Lemma flat_tanbeta_pos : 0 < flat_tanbeta 8 Map length_diagonal.
Proof.
  rewrite flat_tanbeta_eq.
  assert (0 < 0.5 * 1 / length_diagonal) by (apply Rdiv_lt_0_compat; lra).
  assert (0 < 0.5 * 1 / DMASS Map) by (apply Rdiv_lt_0_compat; lra).
  lra.
Qed.

Lemma tanbeta_after_pos (tb : R) :
  0 <= tb ->
  0 < tanbeta_after OUTSIDEBASIN Map length_diagonal FM x y tb.
Proof.
  intros Htb. unfold tanbeta_after.
  destruct (Z.eqb_spec (count_not_lower OUTSIDEBASIN Map FM x y 8) 8) as [E|E].
  - apply flat_tanbeta_pos.
  - destruct (exists_lower 8 E) as (n & Hn & Hl).
    assert (0 < sum (fun n => slope n * contour n) 8).
    { apply (sum_lower_pos _ 8 n); [apply term_pos | exact Hn | exact Hl]. }
    unfold sum, slope, contour in *. lra.
Qed.

Lemma inflow_nonneg (area tb : R) (y' x' : Z) :
  0 <= area -> 0 <= tb ->
  0 <= inflow OUTSIDEBASIN Map length_diagonal FM x y area tb y' x'.
Proof.
  intros Ha Htb. unfold inflow. apply sum_lower_nonneg. intros n Hn.
  destruct ((y' =? yn_of 8 y n)%Z && (x' =? xn_of 8 x n)%Z); [|lra].
  pose proof (tanbeta_after_pos tb Htb) as Ht. pose proof (term_pos n Hn) as Hp.
  unfold slope, contour in Hp.
  apply Rmult_le_pos; [|left; now apply Rinv_0_lt_compat].
  rewrite Rmult_assoc. apply Rmult_le_pos; lra.
Qed.

End CellBounds.

(** ** The sweep, cell by cell *)

Section SweepFacts.

Variable OUTSIDEBASIN : Z.
Variable Map : MAPSIZE.
Variable length_diagonal : R.

Let process := process_cell OUTSIDEBASIN Map length_diagonal.

Let no_lower_at := no_lower OUTSIDEBASIN Map.

Lemma count_full_no_lower (FM : grid FINEPIX) (c : ITEM.t) :
  no_lower_at FM c ->
  (count_not_lower OUTSIDEBASIN Map FM (ITEM.x c) (ITEM.y c) 8 =? 8)%Z = true.
Proof.
  intros H. apply Z.eqb_eq.
  now apply (count_not_lower_full OUTSIDEBASIN Map FM (ITEM.x c) (ITEM.y c) 8).
Qed.

Lemma process_flat_tanbeta (c : ITEM.t) (s : state) :
  no_lower_at (FineMap s) c ->
  tanbeta (process c s) (ITEM.y c) (ITEM.x c) = flat_tanbeta 8 Map length_diagonal.
Proof.
  intros H. unfold process, process_cell. cbn [tanbeta].
  rewrite grid_set_same. unfold tanbeta_after. now rewrite count_full_no_lower.
Qed.

Lemma process_flat_a (c : ITEM.t) (s : state) (y x : Z) :
  no_lower_at (FineMap s) c -> a (process c s) y x = a s y x.
Proof.
  intros H. unfold process, process_cell. cbn [a]. unfold inflow.
  rewrite sum_lower_none; [lra | exact H].
Qed.

Lemma process_tanbeta_other (c : ITEM.t) (s : state) (y x : Z) :
  (y, x) <> (ITEM.y c, ITEM.x c) ->
  tanbeta (process c s) y x = tanbeta s y x.
Proof.
  intros H. unfold process, process_cell. cbn [tanbeta]. now apply grid_set_other.
Qed.

Lemma cell_coords_eq (c c' : ITEM.t) :
  (ITEM.y c, ITEM.x c) = (ITEM.y c', ITEM.x c') -> c = c'.
Proof. destruct c, c'. simpl. intros H. now inversion H. Qed.

Lemma cell_eq_dec (c c' : ITEM.t) : {c = c'} + {c <> c'}.
Proof.
  destruct c as [x y], c' as [x' y'].
  destruct (Z.eq_dec x x') as [->|Hx]; [|right; congruence].
  destruct (Z.eq_dec y y') as [->|Hy]; [now left | right; congruence].
Qed.

Lemma run_process_flat_tanbeta (cells : list ITEM.t) (s : state) (c : ITEM.t) :
  In c cells -> no_lower_at (FineMap s) c ->
  tanbeta (run process cells s) (ITEM.y c) (ITEM.x c) =
  flat_tanbeta 8 Map length_diagonal.
Proof.
  induction cells as [|c0 cells IH] using rev_ind; intros Hin Hflat; [easy|].
  rewrite run_app. cbn [run fold_left].
  destruct (cell_eq_dec c c0) as [->|Hne].
  - apply process_flat_tanbeta. unfold process. now rewrite run_process_FineMap.
  - rewrite process_tanbeta_other.
    + apply IH; [|exact Hflat].
      apply in_app_or in Hin. destruct Hin as [Hin | [E | []]]; [exact Hin | congruence].
    + intros E. apply Hne. now apply cell_coords_eq.
Qed.

Lemma run_process_flat_a (cells : list ITEM.t) (s : state) (y x : Z) :
  (forall c, In c cells -> no_lower_at (FineMap s) c) ->
  a (run process cells s) y x = a s y x.
Proof.
  revert s. induction cells as [|c0 cells IH]; intros s H; [reflexivity|].
  cbn [run fold_left]. fold (run process cells (process c0 s)).
  rewrite IH.
  - apply process_flat_a. apply H. now left.
  - intros c Hc. change (FineMap (process c0 s)) with (FineMap s). apply H. now right.
Qed.

End SweepFacts.

(** *** The last pass *)

Lemma run_final_out (cells : list ITEM.t) (s : state) (y x : Z) :
  ~ In (ITEM.mk x y) cells ->
  FineMap (run final_cell cells s) y x = FineMap s y x.
Proof.
  revert s. induction cells as [|c0 cells IH]; intros s Hin; [reflexivity|].
  cbn [run fold_left]. fold (run final_cell cells (final_cell c0 s)).
  rewrite IH by (intros H; apply Hin; now right).
  unfold final_cell, set_TopoIndex. cbn [FineMap]. apply grid_set_other.
  intros E. apply Hin. left. destruct c0 as [x0 y0]. simpl in E. now inversion E.
Qed.

Lemma run_final_in (cells : list ITEM.t) (s : state) (c : ITEM.t) :
  In c cells ->
  TopoIndex (FineMap (run final_cell cells s) (ITEM.y c) (ITEM.x c)) =
  ln (a s (ITEM.y c) (ITEM.x c) / tanbeta s (ITEM.y c) (ITEM.x c)).
Proof.
  induction cells as [|c0 cells IH] using rev_ind; intros Hin; [easy|].
  rewrite run_app. cbn [run fold_left]. fold (run final_cell cells s).
  destruct (run_final_grids cells s) as (Ha & Ht & _).
  destruct (cell_eq_dec c c0) as [->|Hne].
  - unfold final_cell at 1, set_TopoIndex. cbn [FineMap].
    rewrite grid_set_same. cbn [TopoIndex]. now rewrite Ha, Ht.
  - unfold final_cell at 1, set_TopoIndex. cbn [FineMap].
    rewrite grid_set_other.
    + apply IH. apply in_app_or in Hin.
      destruct Hin as [Hin | [E | []]]; [exact Hin | congruence].
    + intros E. apply Hne. now apply cell_coords_eq.
Qed.

(** ** Areas grow, slopes stay positive *)

Section Growth.

Variable OUTSIDEBASIN : Z.
Variable Map : MAPSIZE.
Variable length_diagonal : R.

Hypothesis Hdiag : 0 < length_diagonal.
Hypothesis Hsize : 0 < DMASS Map.

Let process := process_cell OUTSIDEBASIN Map length_diagonal.

Lemma process_a_mono (c : ITEM.t) (s : state) (y x : Z) :
  nonneg_state s -> a s y x <= a (process c s) y x.
Proof.
  intros [Ha Ht]. unfold process, process_cell. cbn [a].
  pose proof (inflow_nonneg OUTSIDEBASIN Map length_diagonal (FineMap s)
                (ITEM.x c) (ITEM.y c) Hdiag Hsize
                (a s (ITEM.y c) (ITEM.x c)) (tanbeta s (ITEM.y c) (ITEM.x c)) y x
                (Ha _ _) (Ht _ _)).
  lra.
Qed.

Lemma process_tanbeta_pos (c : ITEM.t) (s : state) :
  nonneg_state s -> 0 < tanbeta (process c s) (ITEM.y c) (ITEM.x c).
Proof.
  intros [Ha Ht]. unfold process, process_cell. cbn [tanbeta].
  rewrite grid_set_same. now apply tanbeta_after_pos.
Qed.

Lemma process_nonneg (c : ITEM.t) (s : state) :
  nonneg_state s -> nonneg_state (process c s).
Proof.
  intros H. split; intros y x.
  - pose proof (process_a_mono c s y x H). destruct H as [Ha _].
    specialize (Ha y x). lra.
  - destruct (Z.eq_dec y (ITEM.y c)) as [->|Hy];
      [destruct (Z.eq_dec x (ITEM.x c)) as [->|Hx]|].
    + left. now apply process_tanbeta_pos.
    + unfold process. rewrite process_tanbeta_other by congruence. apply H.
    + unfold process. rewrite process_tanbeta_other by congruence. apply H.
Qed.

Lemma run_process_nonneg (cells : list ITEM.t) (s : state) :
  nonneg_state s -> nonneg_state (run process cells s).
Proof.
  revert s. induction cells as [|c cells IH]; intros s H; [exact H|].
  apply IH. now apply process_nonneg.
Qed.

Lemma run_process_a_mono (cells : list ITEM.t) (s : state) (y x : Z) :
  nonneg_state s -> a s y x <= a (run process cells s) y x.
Proof.
  revert s. induction cells as [|c cells IH]; intros s H; [apply Rle_refl|].
  cbn [run fold_left]. fold (run process cells (process c s)).
  apply Rle_trans with (a (process c s) y x).
  - now apply process_a_mono.
  - apply IH. now apply process_nonneg.
Qed.

Lemma run_process_tanbeta_pos (cells : list ITEM.t) (s : state) (c : ITEM.t) :
  nonneg_state s -> In c cells ->
  0 < tanbeta (run process cells s) (ITEM.y c) (ITEM.x c).
Proof.
  induction cells as [|c0 cells IH] using rev_ind; intros H Hin; [easy|].
  rewrite run_app. cbn [run fold_left]. fold (run process cells s).
  pose proof (run_process_nonneg cells s H) as Hn.
  destruct (cell_eq_dec c c0) as [->|Hne].
  - now apply process_tanbeta_pos.
  - unfold process at 1. rewrite process_tanbeta_other.
    + apply IH; [exact H|]. apply in_app_or in Hin.
      destruct Hin as [Hin | [E | []]]; [exact Hin | congruence].
    + intros E. apply Hne. now apply cell_coords_eq.
Qed.

End Growth.

Lemma init_nonneg (Map : MAPSIZE) (FM : grid FINEPIX) (cells : list ITEM.t) :
  0 <= IZR (dx_of Map * dy_of Map) ->
  nonneg_state (run (init_cell Map) cells (initial_state FM)).
Proof.
  intros H. split; intros y x.
  - induction cells as [|c cells IH] using rev_ind; [cbn; unfold zero_grid; lra|].
    rewrite run_app. cbn [run fold_left init_cell set_a a]. unfold grid_set.
    destruct ((y =? ITEM.y c)%Z && (x =? ITEM.x c)%Z); [exact H | exact IH].
  - destruct (run_init_FineMap Map cells (initial_state FM)) as (_ & -> & _).
    cbn. unfold zero_grid. lra.
Qed.

Lemma sweep_idx_inv (OUTSIDEBASIN : Z) (Map : MAPSIZE) (idx : list nat) (s s' : state) :
  for_eachM idx (sweep_body OUTSIDEBASIN 8 Map (length_diagonal_of Map)) s = Ok s' ->
  s' = run (process_cell OUTSIDEBASIN Map (length_diagonal_of Map))
         (map (cell_at Map) idx) s.
Proof. rewrite sweep_idx_run. now inversion 1. Qed.

(** ** Where a step routes area *)

Section Frame.

Variable OUTSIDEBASIN : Z.
Variable Map : MAPSIZE.
Variable length_diagonal : R.

Let process := process_cell OUTSIDEBASIN Map length_diagonal.

(** A strictly lower neighbor is a cell of the grid, inside the basin, whose
    elevation is not the sentinel and lies below the elevation of the cell. *)
Lemma is_lower_target (FM : grid FINEPIX) (x y : Z) (n : nat) :
  is_lower OUTSIDEBASIN Map FM x y n = true ->
  valid_cell_fine Map (xn_of 8 x n) (yn_of 8 y n) = true /\
  Mask (FM (yn_of 8 y n) (xn_of 8 x n)) <> 0%Z /\
  Dem (FM (yn_of 8 y n) (xn_of 8 x n)) <> IZR OUTSIDEBASIN /\
  Dem (FM (yn_of 8 y n) (xn_of 8 x n)) < Dem (FM y x).
Proof.
  unfold is_lower, flat_elev, raw_elev.
  destruct (valid_cell_fine Map (xn_of 8 x n) (yn_of 8 y n)).
  - destruct (Z.eqb_spec (Mask (FM (yn_of 8 y n) (xn_of 8 x n))) 0) as [E|E].
    + destruct (Req_dec_T _ _); [|congruence].
      destruct (Rlt_dec _ _); [lra | discriminate].
    + destruct (Req_dec_T _ _).
      * destruct (Rlt_dec _ _); [lra | discriminate].
      * destruct (Rlt_dec _ _); [now repeat split | discriminate].
  - destruct (Req_dec_T _ _); [|congruence].
    destruct (Rlt_dec _ _); [lra | discriminate].
Qed.

Lemma inflow_zero (FM : grid FINEPIX) (x y : Z) (area tb : R) (y' x' : Z) :
  (forall n, (n < 8)%nat ->
     is_lower OUTSIDEBASIN Map FM x y n = true ->
     (y', x') <> (yn_of 8 y n, xn_of 8 x n)) ->
  inflow OUTSIDEBASIN Map length_diagonal FM x y area tb y' x' = 0.
Proof.
  intros H. unfold inflow.
  rewrite (sum_lower_ext OUTSIDEBASIN Map FM x y _ (fun _ => 0)).
  - generalize 8%nat. intros k. induction k as [|k IH]; simpl; [reflexivity|].
    rewrite IH. destruct (is_lower _ _ _ _ _ k); lra.
  - intros n Hn Hl. specialize (H n Hn Hl).
    destruct (Z.eqb_spec y' (yn_of 8 y n)); destruct (Z.eqb_spec x' (xn_of 8 x n));
      simpl; try reflexivity.
    subst. now elim H.
Qed.

(** A step leaves alone the area of every cell that is not in the grid, not
    in the basin, or not below the cell of the step. *)
Lemma process_a_frame (c : ITEM.t) (s : state) (y x : Z) :
  valid_cell_fine Map x y = false \/ Mask (FineMap s y x) = 0%Z \/
  Dem (FineMap s y x) = IZR OUTSIDEBASIN \/
  Dem (FineMap s (ITEM.y c) (ITEM.x c)) <= Dem (FineMap s y x) ->
  a (process c s) y x = a s y x.
Proof.
  intros H. unfold process, process_cell. cbn [a].
  rewrite inflow_zero; [lra|].
  intros n Hn Hl E. inversion E; subst.
  destruct (is_lower_target _ _ _ _ Hl) as (Hv & Hm & Hd & Hlt).
  destruct H as [H | [H | [H | H]]]; try congruence. lra.
Qed.

Lemma run_process_a_frame (cells : list ITEM.t) (s : state) (y x : Z) :
  (forall c, In c cells ->
     valid_cell_fine Map x y = false \/ Mask (FineMap s y x) = 0%Z \/
     Dem (FineMap s y x) = IZR OUTSIDEBASIN \/
     Dem (FineMap s (ITEM.y c) (ITEM.x c)) <= Dem (FineMap s y x)) ->
  a (run process cells s) y x = a s y x.
Proof.
  revert s. induction cells as [|c cells IH]; intros s H; [reflexivity|].
  cbn [run fold_left]. fold (run process cells (process c s)).
  rewrite IH.
  - apply process_a_frame. apply H. now left.
  - intros c' Hc'. change (FineMap (process c s)) with (FineMap s).
    apply H. now right.
Qed.

Lemma run_process_contour_out (cells : list ITEM.t) (s : state) (c : ITEM.t) :
  ~ In c cells ->
  contour_length (run process cells s) (ITEM.y c) (ITEM.x c) =
  contour_length s (ITEM.y c) (ITEM.x c).
Proof.
  revert s. induction cells as [|c0 cells IH]; intros s Hin; [reflexivity|].
  cbn [run fold_left]. fold (run process cells (process c0 s)).
  rewrite IH by (intros H; apply Hin; now right).
  unfold process, process_cell. cbn [contour_length]. apply grid_set_other.
  intros E. apply Hin. left. symmetry. now apply cell_coords_eq.
Qed.

End Frame.

(** The 8 neighbors of a cell are 8 different cells. *)
Lemma neighbor_inj (x y : Z) (n m : nat) :
  (n < 8)%nat -> (m < 8)%nat ->
  (yn_of 8 y n, xn_of 8 x n) = (yn_of 8 y m, xn_of 8 x m) -> n = m.
Proof.
  intros Hn Hm. unfold yn_of, xn_of.
  do 8 (try destruct n as [|n]); try lia;
    do 8 (try destruct m as [|m]); try lia; cbn; intros E; inversion E; lia.
Qed.

Lemma run_process_tanbeta_out (OB : Z) (Map : MAPSIZE) (ld : R)
    (cells : list ITEM.t) (s : state) (c : ITEM.t) :
  ~ In c cells ->
  tanbeta (run (process_cell OB Map ld) cells s) (ITEM.y c) (ITEM.x c) =
  tanbeta s (ITEM.y c) (ITEM.x c).
Proof.
  revert s. induction cells as [|c0 cells IH]; intros s Hin; [reflexivity|].
  cbn [run fold_left]. fold (run (process_cell OB Map ld) cells (process_cell OB Map ld c0 s)).
  rewrite IH by (intros H; apply Hin; now right).
  apply process_tanbeta_other. intros E. apply Hin. left. symmetry.
  now apply cell_coords_eq.
Qed.

Lemma visited_split (Map : MAPSIZE) (idx1 idx2 : list nat) (k : nat) :
  countdown (NumCellsfine Map) = idx1 ++ k :: idx2 ->
  visited Map = map (cell_at Map) idx1 ++ cell_at Map k :: map (cell_at Map) idx2.
Proof. intros H. unfold visited. now rewrite H, map_app. Qed.

Lemma NoDup_visited (Map : MAPSIZE) :
  NoDup (OrderedCellsfine Map) -> NoDup (visited Map).
Proof. intros H. rewrite visited_rev. now apply NoDup_rev. Qed.


Lemma StronglySorted_split {A : Type} (R : A -> A -> Prop) (l1 l2 : list A) (c c' : A) :
  StronglySorted R (l1 ++ c :: l2) -> In c' l2 -> R c c'.
Proof.
  induction l1 as [|d l1 IH]; simpl; intros H Hin.
  - apply StronglySorted_inv in H. destruct H as [_ H].
    rewrite Forall_forall in H. now apply H.
  - apply StronglySorted_inv in H. destruct H as [H _]. now apply IH.
Qed.

Lemma StronglySorted_before {A : Type} (R : A -> A -> Prop) (l1 l2 : list A) (c d : A) :
  StronglySorted R (l1 ++ c :: l2) -> In d l1 -> R d c.
Proof.
  induction l1 as [|e l1 IH]; simpl; intros H Hin; [easy|].
  apply StronglySorted_inv in H. destruct H as [H HF].
  destruct Hin as [-> | Hin].
  - rewrite Forall_forall in HF. apply HF. apply in_or_app. right. now left.
  - now apply IH.
Qed.


(** ** Evaluation on concrete inputs *)

Ltac absurd_R := exfalso; first [lra | congruence | contradiction].

(** Settles the comparisons of reals that the context decides. *)
Ltac decide_R :=
  repeat match goal with
  | |- context [Req_dec_T ?u ?v] =>
      first [ destruct (Req_dec_T u v); [solve [absurd_R] | ]
            | destruct (Req_dec_T u v); [ | solve [absurd_R]] ]
  | |- context [Rlt_dec ?u ?v] =>
      first [ destruct (Rlt_dec u v); [solve [absurd_R] | ]
            | destruct (Rlt_dec u v); [ | solve [absurd_R]] ]
  end.

(** Splits on the comparisons that are left. *)
Ltac split_R :=
  repeat match goal with
  | |- context [Req_dec_T ?u ?v] => destruct (Req_dec_T u v)
  | |- context [Rlt_dec ?u ?v] => destruct (Rlt_dec u v)
  end.

Ltac unfold_cell :=
  repeat progress
    (unfold inflow, tanbeta_after, slope_to, contour_to, is_lower, flat_elev,
       raw_elev, xn_of, yn_of, zero_grid;
     cbn).

Lemma length_diagonal_10 (M : MAPSIZE) :
  DMASS M = 10 -> length_diagonal_of M = sqrt 200.
Proof.
  intros H. unfold length_diagonal_of, dx_of, dy_of. rewrite H, float_to_int_IZR.
  f_equal. lra.
Qed.

Lemma cell_area_10 (M : MAPSIZE) : DMASS M = 10 -> IZR (dx_of M * dy_of M) = 100.
Proof.
  intros H. unfold dx_of, dy_of. rewrite H, float_to_int_IZR. reflexivity.
Qed.

Lemma sqrt_200_pos : 0 < sqrt 200.
Proof. apply sqrt_lt_R0. lra. Qed.

Lemma IZR_neq (z1 z2 : Z) : z1 <> z2 -> IZR z1 <> IZR z2.
Proof. intros H E. apply eq_IZR in E. contradiction. Qed.

(** ** Sums over cells *)

Lemma sum_cells_app (f : ITEM.t -> R) (l1 l2 : list ITEM.t) :
  sum_cells f (l1 ++ l2) = sum_cells f l1 + sum_cells f l2.
Proof.
  induction l1 as [|c l1 IH]; simpl; [lra|]. rewrite IH. lra.
Qed.

Lemma sum_cells_ext (f g : ITEM.t -> R) (l : list ITEM.t) :
  (forall c, In c l -> f c = g c) -> sum_cells f l = sum_cells g l.
Proof.
  induction l as [|c l IH]; intros H; simpl; [reflexivity|].
  rewrite (H c) by now left. rewrite IH; [reflexivity|].
  intros c' Hc'. apply H. now right.
Qed.

Lemma sum_cells_plus (f g : ITEM.t -> R) (l : list ITEM.t) :
  sum_cells (fun c => f c + g c) l = sum_cells f l + sum_cells g l.
Proof.
  induction l as [|c l IH]; simpl; [lra|]. rewrite IH. lra.
Qed.

Lemma sum_cells_zero (l : list ITEM.t) : sum_cells (fun _ => 0) l = 0.
Proof. induction l as [|c l IH]; simpl; [reflexivity|]. rewrite IH. lra. Qed.

Lemma sum_cells_const (v : R) (l : list ITEM.t) :
  sum_cells (fun _ => v) l = INR (length l) * v.
Proof.
  induction l as [|c l IH]; [simpl; lra|].
  cbn [sum_cells fold_right length]. fold (sum_cells (fun _ => v) l).
  rewrite IH, S_INR. lra.
Qed.

Lemma sum_cells_rev (f : ITEM.t -> R) (l : list ITEM.t) :
  sum_cells f (rev l) = sum_cells f l.
Proof.
  induction l as [|c l IH]; simpl; [reflexivity|].
  rewrite sum_cells_app, IH. simpl. lra.
Qed.

Lemma sum_cells_point_out (w : R) (yt xt : Z) (l : list ITEM.t) :
  ~ In (ITEM.mk xt yt) l ->
  sum_cells (fun c => if ((ITEM.y c =? yt) && (ITEM.x c =? xt))%Z then w else 0) l = 0.
Proof.
  induction l as [|c l IH]; intros H; simpl; [reflexivity|].
  rewrite IH by (intros Hin; apply H; now right).
  destruct (Z.eqb_spec (ITEM.y c) yt); destruct (Z.eqb_spec (ITEM.x c) xt);
    simpl; try lra.
  exfalso. apply H. left. destruct c; simpl in *. congruence.
Qed.

Lemma sum_cells_point_in (w : R) (yt xt : Z) (l : list ITEM.t) :
  NoDup l -> In (ITEM.mk xt yt) l ->
  sum_cells (fun c => if ((ITEM.y c =? yt) && (ITEM.x c =? xt))%Z then w else 0) l = w.
Proof.
  induction l as [|c l IH]; intros Hnd Hin; [easy|]. simpl.
  apply NoDup_cons_iff in Hnd. destruct Hnd as [Hc Hnd].
  destruct Hin as [-> | Hin].
  - simpl. rewrite !Z.eqb_refl. simpl.
    rewrite sum_cells_point_out by exact Hc. lra.
  - rewrite IH by assumption.
    destruct (Z.eqb_spec (ITEM.y c) yt); destruct (Z.eqb_spec (ITEM.x c) xt);
      simpl; try lra.
    exfalso. apply Hc. destruct c; simpl in *. congruence.
Qed.

(** ** The area a step routes *)

Section Routed.

Variable OUTSIDEBASIN : Z.
Variable Map : MAPSIZE.
Variable length_diagonal : R.
Variable FM : grid FINEPIX.
Variables x y : Z.

Let low := is_lower OUTSIDEBASIN Map FM x y.
Let sum := sum_lower OUTSIDEBASIN Map FM x y.
Let slope := slope_to OUTSIDEBASIN Map length_diagonal FM x y.
Let contour := contour_to Map.

Lemma sum_lower_scale (u v : R) (f : nat -> R) (k : nat) :
  sum (fun n => u * f n / v) k = u * sum f k / v.
Proof.
  induction k as [|k IH]; simpl; [unfold Rdiv; lra|].
  fold (sum (fun n => u * f n / v) k) (sum f k) (low k). rewrite IH.
  destruct (low k); unfold Rdiv; lra.
Qed.

Lemma sum_cells_sum_lower (g : nat -> ITEM.t -> R) (l : list ITEM.t) (k : nat) :
  sum_cells (fun c => sum (fun n => g n c) k) l =
  sum (fun n => sum_cells (g n) l) k.
Proof.
  induction k as [|k IH]; simpl; [apply sum_cells_zero|].
  fold (sum (fun n => sum_cells (g n) l) k) (low k).
  rewrite <- IH.
  change (fun c => sum_lower OUTSIDEBASIN Map FM x y (fun n => g n c) k +
                   (if is_lower OUTSIDEBASIN Map FM x y k then g k c else 0))
    with (fun c => (fun c => sum (fun n => g n c) k) c +
                   (fun c => if low k then g k c else 0) c).
  rewrite sum_cells_plus. f_equal.
  destruct (low k); [reflexivity | apply sum_cells_zero].
Qed.

(** What the step adds to the one neighbor [n]. *)
Lemma sum_lower_at_neighbor (g : nat -> R) (n k : nat) :
  (n < 8)%nat -> (k <= 8)%nat ->
  sum (fun m =>
         if ((yn_of 8 y n =? yn_of 8 y m) && (xn_of 8 x n =? xn_of 8 x m))%Z
         then g m else 0) k =
  if (n <? k)%nat then (if low n then g n else 0) else 0.
Proof.
  intros Hn. induction k as [|k IH]; intros Hk; [reflexivity|]. simpl.
  fold (sum (fun m =>
         if ((yn_of 8 y n =? yn_of 8 y m) && (xn_of 8 x n =? xn_of 8 x m))%Z
         then g m else 0) k) (low k).
  rewrite IH by lia.
  destruct (Nat.eq_dec n k) as [->|Hnk].
  - replace (k <? k)%nat with false by (symmetry; apply Nat.ltb_ge; lia).
    replace (k <? S k)%nat with true by (symmetry; apply Nat.ltb_lt; lia).
    rewrite !Z.eqb_refl. simpl. lra.
  - assert (E : (n <? S k)%nat = (n <? k)%nat).
    { destruct (Nat.ltb_spec n k), (Nat.ltb_spec n (S k)); try reflexivity; lia. }
    rewrite E.
    destruct ((yn_of 8 y n =? yn_of 8 y k)%Z && (xn_of 8 x n =? xn_of 8 x k)%Z) eqn:Et.
    + apply andb_true_iff in Et. destruct Et as [E1%Z.eqb_eq E2%Z.eqb_eq].
      exfalso. apply Hnk. apply (neighbor_inj x y); [exact Hn | lia | congruence].
    + destruct (low k); lra.
Qed.

(** The area routed into the cells of a list that holds every strictly lower
    neighbor once is the sum of the routed amounts. *)
Lemma sum_cells_inflow_all (area tb : R) (l : list ITEM.t) :
  NoDup l ->
  (forall n, (n < 8)%nat -> low n = true ->
     In (ITEM.mk (xn_of 8 x n) (yn_of 8 y n)) l) ->
  sum_cells
    (fun c => inflow OUTSIDEBASIN Map length_diagonal FM x y area tb
                (ITEM.y c) (ITEM.x c)) l =
  sum (fun n => area * slope n * contour n /
                tanbeta_after OUTSIDEBASIN Map length_diagonal FM x y tb) 8.
Proof.
  intros Hnd Hin. unfold inflow.
  rewrite (sum_cells_sum_lower
             (fun n c =>
                if ((ITEM.y c =? yn_of 8 y n) && (ITEM.x c =? xn_of 8 x n))%Z
                then area * slope_to OUTSIDEBASIN Map length_diagonal FM x y n *
                     contour_to Map n /
                     tanbeta_after OUTSIDEBASIN Map length_diagonal FM x y tb
                else 0)).
  apply sum_lower_ext. intros n Hn Hl.
  now apply sum_cells_point_in; [|apply Hin].
Qed.

(** With a positive cell size and diagonal, the routed amounts of a cell
    that has a strictly lower neighbor, and whose [tanbeta] was 0 before the
    step, add up to the area of the cell. *)
Lemma routed_total (area : R) :
  0 < length_diagonal -> 0 < DMASS Map ->
  (count_not_lower OUTSIDEBASIN Map FM x y 8 =? 8)%Z = false ->
  sum (fun n => area * slope n * contour n /
                tanbeta_after OUTSIDEBASIN Map length_diagonal FM x y 0) 8 = area.
Proof.
  intros Hld HD Hc.
  pose proof (tanbeta_after_pos OUTSIDEBASIN Map length_diagonal FM x y Hld HD 0
                (Rle_refl 0)) as Hpos.
  rewrite (sum_lower_ext OUTSIDEBASIN Map FM x y _
             (fun n => area * (slope n * contour n) /
                       tanbeta_after OUTSIDEBASIN Map length_diagonal FM x y 0))
    by (intros; f_equal; lra).
  fold sum. rewrite sum_lower_scale.
  unfold tanbeta_after in Hpos |- *. rewrite Hc in Hpos |- *.
  fold sum slope contour in Hpos |- *. rewrite Rplus_0_l in Hpos |- *.
  field. lra.
Qed.

End Routed.

(** ** Conservation of area *)

Section Conservation.

Variable OUTSIDEBASIN : Z.
Variable Map : MAPSIZE.
Variable FM : grid FINEPIX.
Variable cells : list ITEM.t.

Hypothesis Hsize : 1 <= DMASS Map.
Hypothesis Hnodup : NoDup cells.
Hypothesis Hcovers : covers Map FM cells.
Hypothesis Hdesc : descending FM cells.

Let ld := length_diagonal_of Map.
Let process := process_cell OUTSIDEBASIN Map ld.

(** A strictly lower neighbor of a cell is processed after the cell. *)
Lemma lower_neighbor_later (done rest : list ITEM.t) (c : ITEM.t) (n : nat) :
  cells = done ++ c :: rest ->
  (n < 8)%nat ->
  is_lower OUTSIDEBASIN Map FM (ITEM.x c) (ITEM.y c) n = true ->
  let t := ITEM.mk (xn_of 8 (ITEM.x c) n) (yn_of 8 (ITEM.y c) n) in
  In t rest /\ ~ In t done /\ t <> c.
Proof.
  intros Hsplit Hn Hl t.
  destruct (is_lower_target _ _ _ _ _ _ Hl) as (Hv & Hm & _ & Hlt).
  pose proof (Hcovers _ _ Hv Hm) as Hin. fold t in Hin.
  assert (Ht : elev FM t < elev FM c) by exact Hlt.
  assert (Hne : t <> c) by (intros E; rewrite E in Ht; lra).
  assert (Hnd : ~ In t done).
  { intros Hd. unfold descending in Hdesc. rewrite Hsplit in Hdesc.
    pose proof (StronglySorted_before _ _ _ _ _ Hdesc Hd) as Hle.
    cbv beta in Hle. lra. }
  split; [|split; assumption].
  rewrite Hsplit in Hin. apply in_app_or in Hin.
  destruct Hin as [Hin | [Hin | Hin]]; [contradiction | congruence | exact Hin].
Qed.

Lemma conservation_step (done rest : list ITEM.t) (c : ITEM.t) (s : state) :
  cells = done ++ c :: rest ->
  FineMap s = FM ->
  tanbeta s (ITEM.y c) (ITEM.x c) = 0 ->
  area_of (process c s) rest +
  sink_area OUTSIDEBASIN Map FM (process c s) (done ++ [c]) =
  area_of s (c :: rest) + sink_area OUTSIDEBASIN Map FM s done.
Proof.
  intros Hsplit Hf Ht.
  pose proof (length_diagonal_pos Map Hsize) as Hld. fold ld in Hld.
  assert (HD0 : 0 < DMASS Map) by lra.
  assert (Hndr : NoDup rest).
  { rewrite Hsplit in Hnodup. apply NoDup_app_remove_l in Hnodup.
    now apply NoDup_cons_iff in Hnodup. }
  assert (Hrest : area_of (process c s) rest =
                  area_of s rest +
                  (if is_sink OUTSIDEBASIN Map FM c then 0
                   else a s (ITEM.y c) (ITEM.x c))).
  { unfold area_of, process, process_cell. cbn [a].
    rewrite sum_cells_plus. f_equal. rewrite Hf, Ht.
    rewrite (sum_cells_inflow_all OUTSIDEBASIN Map ld FM).
    - unfold is_sink.
      destruct (count_not_lower OUTSIDEBASIN Map FM (ITEM.x c) (ITEM.y c) 8 =? 8)%Z
        eqn:Hc.
      + apply sum_lower_none.
        apply (count_not_lower_full OUTSIDEBASIN Map FM (ITEM.x c) (ITEM.y c) 8).
        now apply Z.eqb_eq.
      + now apply routed_total.
    - exact Hndr.
    - intros n Hn Hl. now apply (lower_neighbor_later done rest c n Hsplit Hn Hl). }
  assert (Hkeep : forall d, In d done \/ d = c ->
            a (process c s) (ITEM.y d) (ITEM.x d) = a s (ITEM.y d) (ITEM.x d)).
  { intros d Hd. unfold process, process_cell. cbn [a].
    rewrite inflow_zero; [lra|]. rewrite Hf.
    intros n Hn Hl E.
    destruct (lower_neighbor_later done rest c n Hsplit Hn Hl) as (_ & Hnd & Hne).
    assert (Ed : d = ITEM.mk (xn_of 8 (ITEM.x c) n) (yn_of 8 (ITEM.y c) n)).
    { destruct d as [dx dy]. simpl in E. inversion E. reflexivity. }
    destruct Hd as [Hd | Hd]; [apply Hnd | apply Hne]; congruence. }
  rewrite Hrest. unfold sink_area. rewrite sum_cells_app.
  rewrite (sum_cells_ext _
             (fun c0 => if is_sink OUTSIDEBASIN Map FM c0
                        then a s (ITEM.y c0) (ITEM.x c0) else 0) done).
  - cbn [sum_cells fold_right]. rewrite (Hkeep c (or_intror eq_refl)).
    unfold area_of. cbn [sum_cells fold_right]. unfold sum_cells.
    destruct (is_sink OUTSIDEBASIN Map FM c); lra.
  - intros d Hd. now rewrite (Hkeep d (or_introl Hd)).
Qed.

Lemma conservation_run (rest done : list ITEM.t) (s : state) :
  cells = done ++ rest ->
  FineMap s = FM ->
  (forall c, In c rest -> tanbeta s (ITEM.y c) (ITEM.x c) = 0) ->
  sink_area OUTSIDEBASIN Map FM (run process rest s) cells =
  area_of s rest + sink_area OUTSIDEBASIN Map FM s done.
Proof.
  revert done s. induction rest as [|c rest IH]; intros done s Hsplit Hf Ht.
  - rewrite app_nil_r in Hsplit. subst done. cbn. unfold area_of. cbn. lra.
  - cbn [run fold_left]. fold (run process rest (process c s)).
    rewrite (IH (done ++ [c])).
    + apply conservation_step; [exact Hsplit | exact Hf | apply Ht; now left].
    + now rewrite <- app_assoc.
    + exact Hf.
    + intros c' Hc'. unfold process. rewrite process_tanbeta_other.
      * apply Ht. now right.
      * intros E. apply cell_coords_eq in E. subst c'.
        rewrite Hsplit in Hnodup. apply NoDup_remove_2 in Hnodup.
        apply Hnodup. apply in_or_app. now right.
Qed.

End Conservation.
(** ** The last loop on the numbers of the machine *)

Lemma f32_final_grids (Map : Float32.MAPSIZE) (idx : list nat) (s : Float32.state) :
  Float32.a (for_each idx (Float32.final_body Map) s) = Float32.a s /\
  Float32.tanbeta (for_each idx (Float32.final_body Map) s) = Float32.tanbeta s.
Proof.
  revert s. induction idx as [|k idx IH]; intros s; [now split|].
  change (k :: idx) with ([k] ++ idx). rewrite for_each_app, for_each_single.
  destruct (IH (Float32.final_body Map k s)) as [-> ->]. now split.
Qed.

Lemma f32_final_in (Map : Float32.MAPSIZE) (idx : list nat) (s : Float32.state)
    (k : nat) :
  In k idx ->
  Float32.TopoIndex
    (Float32.FineMap (for_each idx (Float32.final_body Map) s)
       (ITEM.y (Float32.cell_at Map k)) (ITEM.x (Float32.cell_at Map k))) =
  Float32.log
    (Float32.to_double
       (Float32.fdiv
          (Float32.a s (ITEM.y (Float32.cell_at Map k)) (ITEM.x (Float32.cell_at Map k)))
          (Float32.tanbeta s (ITEM.y (Float32.cell_at Map k))
             (ITEM.x (Float32.cell_at Map k))))).
Proof.
  induction idx as [|j idx IH] using rev_ind; intros Hin; [easy|].
  rewrite for_each_app, for_each_single.
  destruct (f32_final_grids Map idx s) as [Ha Ht].
  unfold Float32.final_body at 1, Float32.set_TopoIndex.
  cbn [Float32.FineMap]. unfold grid_set.
  destruct ((ITEM.y (Float32.cell_at Map k) =? ITEM.y (Float32.cell_at Map j))%Z &&
            (ITEM.x (Float32.cell_at Map k) =? ITEM.x (Float32.cell_at Map j))%Z) eqn:E.
  - apply andb_true_iff in E. destruct E as [E1 E2].
    apply Z.eqb_eq in E1, E2. cbn [Float32.TopoIndex].
    now rewrite Ha, Ht, <- E1, <- E2.
  - apply in_app_or in Hin. destruct Hin as [Hin|[->|[]]]; [now apply IH|].
    rewrite !Z.eqb_refl in E. discriminate.
Qed.

Lemma f32_cell_index (Map : Float32.MAPSIZE) (c : ITEM.t) :
  In c (Float32.OrderedCellsfine Map) ->
  exists k, In k (countdown (Float32.NumCellsfine Map)) /\ Float32.cell_at Map k = c.
Proof.
  intros Hin. apply in_rev in Hin.
  rewrite <- (map_nth_countdown _ (ITEM.mk 0 0)) in Hin.
  apply in_map_iff in Hin. destruct Hin as (k & Hk & Hin).
  exists k. now split.
Qed.

(** The quotient by a zero is infinite or not a number, and so is its
    logarithm. *)
Lemma f32_log_of_quotient_by_zero (u v : spec_float) :
  Float32.is_zero v = true ->
  Float32.log (Float32.to_double (Float32.fdiv u v)) = Float32.known (S754_infinity false) \/
  Float32.log (Float32.to_double (Float32.fdiv u v)) = Float32.known S754_nan.
Proof.
  intros Hv. destruct v as [sv| | |]; try discriminate.
  destruct u as [[|]|[|]| |[|] m e]; destruct sv; cbn; auto.
Qed.


(** C1, as the code has it: the loops run from the last element of
    [OrderedCellsfine] to the first, so the sweep processes the cells in the
    reverse of the order of the array.  When the cells are in descending
    order of elevation in the order they are processed, the area of a cell at
    the moment the cell is processed is its final area: every contribution
    from upslope has arrived before the cell distributes. *)
Theorem C1_sweep_order (OUTSIDEBASIN : Z) (Map : MAPSIZE) (FM : grid FINEPIX) :
  let ld := length_diagonal_of Map in
  let body := sweep_body OUTSIDEBASIN 8 Map ld in
  let s0 := init_pass Map (initial_state FM) in
  visited Map = rev (OrderedCellsfine Map) /\
  (forall s, sweep_pass OUTSIDEBASIN 8 Map s =
             Ok (run (process_cell OUTSIDEBASIN Map ld) (rev (OrderedCellsfine Map)) s)) /\
  (descending FM (visited Map) ->
   forall idx1 k idx2 s1,
     countdown (NumCellsfine Map) = idx1 ++ k :: idx2 ->
     for_eachM idx1 body s0 = Ok s1 ->
     a (final (CalcTopoIndex OUTSIDEBASIN 8 Map FM))
       (ITEM.y (cell_at Map k)) (ITEM.x (cell_at Map k)) =
     a s1 (ITEM.y (cell_at Map k)) (ITEM.x (cell_at Map k))).
Proof.
  intros ld body s0. split; [apply visited_rev|]. split.
  - intros s. rewrite <- visited_rev. apply sweep_pass_run.
  - intros Hdesc idx1 k idx2 s1 Hsplit Hrun.
    apply sweep_idx_inv in Hrun. fold ld in Hrun.
    rewrite CalcTopoIndex_run. unfold final.
    match goal with
    | |- a (run final_cell ?l ?s) _ _ = _ =>
        destruct (run_final_grids l s) as (-> & _ & _)
    end.
    rewrite <- init_pass_run. fold s0 ld.
    pose proof (visited_split Map idx1 idx2 k Hsplit) as Hv.
    rewrite Hv, run_app, <- Hrun.
    apply run_process_a_frame.
    intros c' Hc'. right. right. right.
    assert (Hf : FineMap s1 = FM).
    { rewrite Hrun, run_process_FineMap. unfold s0. rewrite init_pass_run.
      now destruct (run_init_FineMap Map (visited Map) (initial_state FM)) as (-> & _). }
    rewrite Hf. destruct Hc' as [<- | Hc']; [apply Rle_refl|].
    unfold descending in Hdesc. rewrite Hv in Hdesc.
    exact (StronglySorted_split _ _ _ _ _ Hdesc Hc').
Qed.

Lemma C1_sweep_order_witness :
  descending row3_fine (visited row3_up_map) /\
  forall s1,
    for_eachM [2%nat]
      (sweep_body 0 8 row3_up_map (length_diagonal_of row3_up_map))
      (init_pass row3_up_map (initial_state row3_fine)) = Ok s1 ->
    a (final (CalcTopoIndex 0 8 row3_up_map row3_fine)) 0%Z 1%Z = a s1 0%Z 1%Z.
Proof.
  assert (H : descending row3_fine (visited row3_up_map)).
  { unfold descending, visited, elev. cbn.
    repeat constructor; cbn; lra. }
  split; [exact H|]. intros s1 Hs1.
  destruct (C1_sweep_order 0 row3_up_map row3_fine) as (_ & _ & Hfin).
  exact (Hfin H [2%nat] 1%nat [0%nat] s1 eq_refl Hs1).
Defined.

(** C1 fails as stated: with the array sorted by strictly descending
    elevation, the first cell processed is its last element, the lowest cell;
    the middle cell distributes while its area is still 100, and the 100 of
    the highest cell reaches it afterwards, so that the lowest cell ends with
    200 and not with the 300 of the whole row. *)
Lemma C1_counterexample :
  StronglySorted (fun c1 c2 => elev row3_fine c2 < elev row3_fine c1)
    (OrderedCellsfine row3_map) /\
  hd_error (OrderedCellsfine row3_map) = Some (cell 0 0) /\
  hd_error (visited row3_map) = Some (cell 2 0) /\
  exists s1,
    for_eachM [2%nat] (sweep_body 0 8 row3_map (length_diagonal_of row3_map))
      (init_pass row3_map (initial_state row3_fine)) = Ok s1 /\
    a s1 0%Z 1%Z = 100 /\
    a (final (CalcTopoIndex 0 8 row3_map row3_fine)) 0%Z 1%Z = 200 /\
    a (final (CalcTopoIndex 0 8 row3_map row3_fine)) 0%Z 2%Z = 200.
Proof.
  split; [|split; [reflexivity | split; [reflexivity|]]].
  - unfold elev. cbn. repeat constructor; cbn; lra.
  - pose proof sqrt_200_pos as Hs.
    rewrite sweep_idx_run, CalcTopoIndex_run.
    rewrite (length_diagonal_10 row3_map eq_refl).
    eexists. split; [reflexivity|]. unfold final.
    match goal with
    | |- _ /\ a (run final_cell ?l ?s) _ _ = _ /\ _ =>
        destruct (run_final_grids l s) as (-> & _ & _)
    end.
    rewrite init_pass_run.
    unfold visited, run, process_cell, init_cell.
    rewrite (cell_area_10 row3_map eq_refl). cbn.
    repeat split; unfold_cell; decide_R; cbn; lra.
Qed.

(** C2: on the 1 x 2 row with elevations 20 and 10 and [DMASS = 10], processed
    left then right, the left cell has one strictly lower neighbor, the
    orthogonal neighbor 3 on its right; its slope is 1 and its contour length
    6, so [tanbeta] of the left cell is 6, [delta_a] is 600, the routed amount
    is 100 and the right cell ends with area 200.  The right cell must not
    carry the sentinel elevation. *)
Theorem C2_single_downslope_step (OUTSIDEBASIN : Z) :
  OUTSIDEBASIN <> 10%Z ->
  let ld := length_diagonal_of row2_map in
  let s0 := init_pass row2_map (initial_state row2_fine) in
  let r := before_routing OUTSIDEBASIN 8 row2_map ld 1 s0 in
  visited row2_map = [cell 0 0; cell 1 0] /\
  (forall n, (n < 8)%nat ->
     is_lower OUTSIDEBASIN row2_map row2_fine 0 0 n = (n =? 3)%nat) /\
  (xn_of 8 0 3 = 1%Z /\ yn_of 8 0 3 = 0%Z /\ diagonal 3 = false) /\
  temp_slope (snd r) 3 = 1 /\
  contour_to row2_map 3 = 6 /\
  tanbeta (fst r) 0%Z 0%Z = 6 /\
  delta_a (snd r) 3 = 600 /\
  delta_a (snd r) 3 / tanbeta (fst r) 0%Z 0%Z = 100 /\
  a (final (CalcTopoIndex OUTSIDEBASIN 8 row2_map row2_fine)) 0%Z 1%Z = 200.
Proof.
  intros H ld s0 r.
  assert (HOB : IZR OUTSIDEBASIN <> 10) by (now apply (IZR_neq _ 10)).
  assert (Hlow : forall n, (n < 8)%nat ->
            is_lower OUTSIDEBASIN row2_map row2_fine 0 0 n = (n =? 3)%nat).
  { intros n Hn. do 8 (try destruct n as [|n]); try lia;
      unfold_cell; cbn; decide_R; split_R; try reflexivity; absurd_R. }
  assert (Hld : ld = sqrt 200) by (now apply length_diagonal_10).
  assert (Hs0 : a s0 0%Z 0%Z = 100 /\ tanbeta s0 0%Z 0%Z = 0 /\
                FineMap s0 = row2_fine).
  { subst s0. rewrite init_pass_run. unfold visited, run, init_cell. cbn.
    rewrite (cell_area_10 row2_map eq_refl). now repeat split. }
  destruct Hs0 as (Ha0 & Ht0 & Hf0).
  destruct (before_routing_spec OUTSIDEBASIN row2_map ld 1 s0) as (Hs & _ & Hda).
  fold r in Hs, Hda. cbn [cell_at row2_map nth OrderedCellsfine ITEM.x ITEM.y cell] in Hs, Hda.
  rewrite Hf0 in Hs, Hda.
  destruct (Hda 3%nat ltac:(lia) (Hlow 3%nat ltac:(lia))) as [Hts Hd].
  assert (Hslope : slope_to OUTSIDEBASIN row2_map ld row2_fine 0 0 3 = 1).
  { unfold_cell; cbn; decide_R; lra. }
  assert (Hcont : contour_to row2_map 3 = 6) by (unfold contour_to; cbn; lra).
  assert (Htb : tanbeta (fst r) 0%Z 0%Z = 6).
  { rewrite Hs. cbn [tanbeta]. rewrite grid_set_same, Ht0.
    unfold_cell; cbn; decide_R; cbn; lra. }
  rewrite Hslope in Hts. rewrite Hslope, Hcont, Ha0 in Hd.
  repeat split; try reflexivity; try assumption.
  - rewrite Hd. lra.
  - rewrite Hd, Htb. lra.
  - rewrite CalcTopoIndex_run. unfold final.
    match goal with
    | |- a (run final_cell ?c ?s) _ _ = _ =>
        destruct (run_final_grids c s) as (-> & _ & _)
    end.
    fold ld. rewrite Hld.
    unfold visited, run, process_cell, init_cell.
    rewrite (cell_area_10 row2_map eq_refl). cbn.
    unfold_cell; cbn; decide_R; split_R; cbn; lra.
Qed.

Lemma C2_single_downslope_step_witness :
  (0 <> 10)%Z /\
  tanbeta (fst (before_routing 0 8 row2_map (length_diagonal_of row2_map) 1
                  (init_pass row2_map (initial_state row2_fine)))) 0%Z 0%Z = 6 /\
  a (final (CalcTopoIndex 0 8 row2_map row2_fine)) 0%Z 1%Z = 200.
Proof.
  assert (H : (0 <> 10)%Z) by discriminate.
  split; [exact H|].
  destruct (C2_single_downslope_step 0 H) as (_ & _ & _ & _ & _ & Ht & _ & _ & Ha).
  split; [exact Ht | exact Ha].
Defined.

Lemma CalcTopoIndex_flat_tanbeta (OUTSIDEBASIN : Z) (Map : MAPSIZE)
    (FM : grid FINEPIX) (c : ITEM.t) :
  In c (OrderedCellsfine Map) ->
  no_lower OUTSIDEBASIN Map FM c ->
  tanbeta (final (CalcTopoIndex OUTSIDEBASIN 8 Map FM)) (ITEM.y c) (ITEM.x c) =
  flat_tanbeta 8 Map (length_diagonal_of Map).
Proof.
  intros Hin Hflat. rewrite CalcTopoIndex_run. unfold final.
  match goal with
  | |- tanbeta (run final_cell ?l ?s) _ _ = _ =>
      destruct (run_final_grids l s) as (_ & -> & _)
  end.
  apply run_process_flat_tanbeta.
  - rewrite visited_rev. now apply in_rev in Hin.
  - destruct (run_init_FineMap Map (visited Map) (initial_state FM)) as (-> & _).
    exact Hflat.
Qed.

Lemma sqrt_200_bounds : 14.142 < sqrt 200 < 14.143.
Proof.
  split.
  - rewrite <- (sqrt_pow2 14.142) by lra. apply sqrt_lt_1_alt. lra.
  - rewrite <- (sqrt_pow2 14.143) by lra. apply sqrt_lt_1_alt. lra.
Qed.

Lemma flat3_no_lower (OUTSIDEBASIN : Z) (c : ITEM.t) :
  no_lower OUTSIDEBASIN flat3_map flat3_fine c.
Proof.
  intros n Hn. unfold is_lower, flat_elev, raw_elev, flat3_fine. cbn [Dem Mask].
  cbn [Z.eqb].
  destruct (valid_cell_fine _ _ _); split_R; try reflexivity; absurd_R.
Qed.

(** C3: a processed cell none of whose 8 neighbors is strictly lower ends
    with [tanbeta] equal to 4 x (0.5 x VERTRES / length_diagonal) +
    4 x (0.5 x VERTRES / DMASS); on the flat 3 x 3 basin of elevation 10 and
    cell size 10 every cell ends with [tanbeta] = 4*(0.5/sqrt 200) + 4*(0.5/10),
    which lies between 0.3414 and 0.3415, and with area 100. *)
Theorem C3_flat_area_fallback :
  (forall (OUTSIDEBASIN : Z) (Map : MAPSIZE) (FM : grid FINEPIX) (c : ITEM.t),
     In c (OrderedCellsfine Map) ->
     no_lower OUTSIDEBASIN Map FM c ->
     tanbeta (final (CalcTopoIndex OUTSIDEBASIN 8 Map FM)) (ITEM.y c) (ITEM.x c) =
     4 * (0.5 * IZR VERTRES / length_diagonal_of Map) +
     4 * (0.5 * IZR VERTRES / DMASS Map)) /\
  (forall (OUTSIDEBASIN : Z) (c : ITEM.t),
     In c (OrderedCellsfine flat3_map) ->
     let s := final (CalcTopoIndex OUTSIDEBASIN 8 flat3_map flat3_fine) in
     tanbeta s (ITEM.y c) (ITEM.x c) = 4 * (0.5 / sqrt 200) + 4 * (0.5 / 10) /\
     0.3414 < tanbeta s (ITEM.y c) (ITEM.x c) < 0.3415 /\
     a s (ITEM.y c) (ITEM.x c) = 100).
Proof.
  split.
  - intros OB Map FM c Hin Hflat.
    now rewrite CalcTopoIndex_flat_tanbeta.
  - intros OB c Hin s.
    assert (Ht : tanbeta s (ITEM.y c) (ITEM.x c) =
                 4 * (0.5 / sqrt 200) + 4 * (0.5 / 10)).
    { subst s. rewrite CalcTopoIndex_flat_tanbeta;
        [|exact Hin | apply flat3_no_lower].
      rewrite (length_diagonal_10 flat3_map eq_refl).
      unfold flat_tanbeta, VERTRES. cbn. lra. }
    split; [exact Ht|]. split.
    + rewrite Ht. pose proof sqrt_200_bounds as [Hl Hu].
      assert (E : 0.5 / sqrt 200 * sqrt 200 = 0.5) by (field; lra).
      set (t := 0.5 / sqrt 200) in *. split; nra.
    + subst s. rewrite CalcTopoIndex_run. unfold final.
      match goal with
      | |- a (run final_cell ?l ?s) _ _ = _ =>
          destruct (run_final_grids l s) as (-> & _ & _)
      end.
      rewrite run_process_flat_a.
      * rewrite run_init_a_in.
        -- apply (cell_area_10 flat3_map eq_refl).
        -- rewrite visited_rev. now apply in_rev in Hin.
      * intros c' _.
        destruct (run_init_FineMap flat3_map (visited flat3_map)
                    (initial_state flat3_fine)) as (-> & _).
        apply flat3_no_lower.
Qed.

Lemma C3_flat_area_fallback_witness :
  tanbeta (final (CalcTopoIndex 0 8 flat3_map flat3_fine)) 1%Z 1%Z =
    4 * (0.5 / sqrt 200) + 4 * (0.5 / 10) /\
  a (final (CalcTopoIndex 0 8 flat3_map flat3_fine)) 1%Z 1%Z = 100.
Proof.
  destruct C3_flat_area_fallback as [_ H].
  destruct (H 0%Z (cell 1 1)) as (Ht & _ & Ha).
  - simpl. tauto.
  - split; [exact Ht | exact Ha].
Defined.

(** C4: with a cell size of at least 1 and no cell listed twice, when a cell
    with a strictly lower neighbor is processed, [tanbeta] of the cell is the
    sum of slope x contour length over its strictly lower neighbors, the
    routed amounts [delta_a[n] / tanbeta] over these neighbors add up to the
    area the cell has at that moment, and they are what the step adds to the
    areas of these neighbors.  Hence, when the cells are processed in
    descending order of elevation and every cell of the basin is processed,
    no area is lost or created: the cells without a strictly lower neighbor
    end up holding the cell area of every processed cell. *)
Theorem C4_area_conservation (OUTSIDEBASIN : Z) (Map : MAPSIZE) (FM : grid FINEPIX) :
  1 <= DMASS Map ->
  NoDup (OrderedCellsfine Map) ->
  let ld := length_diagonal_of Map in
  let body := sweep_body OUTSIDEBASIN 8 Map ld in
  let s0 := init_pass Map (initial_state FM) in
  (forall idx1 k idx2 s1,
     countdown (NumCellsfine Map) = idx1 ++ k :: idx2 ->
     for_eachM idx1 body s0 = Ok s1 ->
     let x := ITEM.x (cell_at Map k) in
     let y := ITEM.y (cell_at Map k) in
     let r := before_routing OUTSIDEBASIN 8 Map ld k s1 in
     (exists n, (n < 8)%nat /\ is_lower OUTSIDEBASIN Map FM x y n = true) ->
     tanbeta (fst r) y x =
       sum_lower OUTSIDEBASIN Map FM x y
         (fun n => slope_to OUTSIDEBASIN Map ld FM x y n * contour_to Map n) 8 /\
     sum_lower OUTSIDEBASIN Map FM x y
       (fun n => delta_a (snd r) n / tanbeta (fst r) y x) 8 = a s1 y x /\
     exists s2,
       body k s1 = Ok s2 /\
       forall n, (n < 8)%nat ->
         a s2 (yn_of 8 y n) (xn_of 8 x n) =
         a s1 (yn_of 8 y n) (xn_of 8 x n) +
         (if is_lower OUTSIDEBASIN Map FM x y n
          then delta_a (snd r) n / tanbeta (fst r) y x else 0)) /\
  (covers Map FM (OrderedCellsfine Map) ->
   descending FM (visited Map) ->
   sink_area OUTSIDEBASIN Map FM (final (CalcTopoIndex OUTSIDEBASIN 8 Map FM))
     (OrderedCellsfine Map) =
   INR (NumCellsfine Map) * IZR (dx_of Map * dy_of Map)).
Proof.
  intros HD Hnd ld body s0.
  pose proof (length_diagonal_pos Map HD) as Hld. fold ld in Hld.
  assert (HD0 : 0 < DMASS Map) by lra.
  assert (Hs0 : s0 = run (init_cell Map) (visited Map) (initial_state FM))
    by apply init_pass_run.
  assert (Hf0 : FineMap s0 = FM /\ tanbeta s0 = zero_grid).
  { rewrite Hs0.
    destruct (run_init_FineMap Map (visited Map) (initial_state FM)) as (-> & -> & _).
    now split. }
  destruct Hf0 as [Hf0 Ht0].
  split.
  - intros idx1 k idx2 s1 Hsplit Hrun x y r (n0 & Hn0 & Hl0).
    apply sweep_idx_inv in Hrun. fold ld in Hrun.
    set (c := cell_at Map k) in *.
    assert (Hf1 : FineMap s1 = FM) by (now rewrite Hrun, run_process_FineMap).
    assert (Ht1 : tanbeta s1 y x = 0).
    { pose proof (NoDup_visited Map Hnd) as Hv.
      rewrite (visited_split Map idx1 idx2 k Hsplit) in Hv.
      apply NoDup_remove_2 in Hv.
      rewrite Hrun. unfold x, y. rewrite run_process_tanbeta_out.
      - now rewrite Ht0.
      - intros H. apply Hv. apply in_or_app. now left. }
    assert (Hc : (count_not_lower OUTSIDEBASIN Map FM x y 8 =? 8)%Z = false).
    { apply Z.eqb_neq. intros E.
      pose proof (proj1 (count_not_lower_full OUTSIDEBASIN Map FM x y 8) E) as E'.
      rewrite (E' n0 Hn0) in Hl0. discriminate. }
    destruct (before_routing_spec OUTSIDEBASIN Map ld k s1) as (Hs & _ & Hda).
    fold c x y r in Hs, Hda. rewrite Hf1, Ht1 in Hs. rewrite Hf1 in Hda.
    assert (Htb : tanbeta (fst r) y x =
                  tanbeta_after OUTSIDEBASIN Map ld FM x y 0).
    { rewrite Hs. cbn [tanbeta]. apply grid_set_same. }
    assert (Hw : forall n, (n < 8)%nat ->
              is_lower OUTSIDEBASIN Map FM x y n = true ->
              delta_a (snd r) n / tanbeta (fst r) y x =
              a s1 y x * slope_to OUTSIDEBASIN Map ld FM x y n * contour_to Map n /
              tanbeta_after OUTSIDEBASIN Map ld FM x y 0).
    { intros n Hn Hl. destruct (Hda n Hn Hl) as [_ ->]. now rewrite Htb. }
    split; [|split].
    + rewrite Htb. unfold tanbeta_after. rewrite Hc. lra.
    + rewrite (sum_lower_ext OUTSIDEBASIN Map FM x y _ _ 8 Hw).
      now apply routed_total.
    + exists (process_cell OUTSIDEBASIN Map ld c s1).
      split; [apply sweep_body_8|].
      intros n Hn. unfold process_cell. cbn [a]. fold x y. f_equal.
      rewrite Hf1, Ht1. unfold inflow.
      rewrite (sum_lower_at_neighbor OUTSIDEBASIN Map FM x y _ n 8 Hn (le_n 8)).
      apply Nat.ltb_lt in Hn as Hn'. rewrite Hn'.
      destruct (is_lower OUTSIDEBASIN Map FM x y n) eqn:Hl; [|reflexivity].
      symmetry. now apply Hw.
  - intros Hcov Hdesc. rewrite CalcTopoIndex_run. unfold final.
    set (s2 := run (process_cell OUTSIDEBASIN Map (length_diagonal_of Map))
                 (visited Map)
                 (run (init_cell Map) (visited Map) (initial_state FM))).
    assert (Ea : sink_area OUTSIDEBASIN Map FM (run final_cell (visited Map) s2)
                   (OrderedCellsfine Map) =
                 sink_area OUTSIDEBASIN Map FM s2 (visited Map)).
    { unfold sink_area. rewrite visited_rev, sum_cells_rev.
      now destruct (run_final_grids (rev (OrderedCellsfine Map)) s2) as (-> & _). }
    rewrite Ea. subst s2. rewrite <- Hs0.
    rewrite (conservation_run OUTSIDEBASIN Map FM (visited Map) HD
               (NoDup_visited Map Hnd)
               ltac:(intros x y Hv Hm; rewrite visited_rev; apply -> in_rev;
                     now apply Hcov)
               Hdesc (visited Map) [] s0 eq_refl Hf0
               ltac:(intros; now rewrite Ht0)).
    unfold sink_area at 1. cbn [sum_cells fold_right]. rewrite Rplus_0_r.
    unfold area_of.
    rewrite (sum_cells_ext _ (fun _ => IZR (dx_of Map * dy_of Map))).
    + rewrite sum_cells_const. unfold NumCellsfine.
      now rewrite visited_rev, length_rev.
    + intros c Hc. rewrite Hs0. now apply run_init_a_in.
Qed.

Lemma C4_area_conservation_witness :
  1 <= DMASS row2_map /\
  NoDup (OrderedCellsfine row2_map) /\
  covers row2_map row2_fine (OrderedCellsfine row2_map) /\
  descending row2_fine (visited row2_map) /\
  (let s0 := init_pass row2_map (initial_state row2_fine) in
   let r := before_routing 0 8 row2_map (length_diagonal_of row2_map) 1 s0 in
   sum_lower 0 row2_map row2_fine 0 0
     (fun n => delta_a (snd r) n / tanbeta (fst r) 0%Z 0%Z) 8 = a s0 0%Z 0%Z) /\
  sink_area 0 row2_map row2_fine (final (CalcTopoIndex 0 8 row2_map row2_fine))
    (OrderedCellsfine row2_map) =
  INR (NumCellsfine row2_map) * IZR (dx_of row2_map * dy_of row2_map).
Proof.
  assert (H : 1 <= DMASS row2_map) by (simpl; lra).
  assert (Hnd : NoDup (OrderedCellsfine row2_map)).
  { simpl. repeat constructor; simpl; intuition discriminate. }
  assert (Hcov : covers row2_map row2_fine (OrderedCellsfine row2_map)).
  { intros x y Hv _. unfold valid_cell_fine in Hv. simpl in Hv.
    apply andb_true_iff in Hv. destruct Hv as [Hv Hy2].
    apply andb_true_iff in Hv. destruct Hv as [Hv Hy1].
    apply andb_true_iff in Hv. destruct Hv as [Hx1 Hx2].
    apply Z.leb_le in Hx1, Hy1. apply Z.ltb_lt in Hx2, Hy2.
    assert (Ey : y = 0%Z) by lia. subst y.
    assert (Ex : x = 0%Z \/ x = 1%Z) by lia.
    destruct Ex as [-> | ->]; simpl; tauto. }
  assert (Hdesc : descending row2_fine (visited row2_map)).
  { unfold descending, visited, elev. cbn. repeat constructor; cbn; lra. }
  assert (Hlow : is_lower 0 row2_map row2_fine 0 0 3 = true).
  { unfold_cell. decide_R. reflexivity. }
  assert (H38 : (3 < 8)%nat) by lia.
  repeat (split; [assumption|]).
  destruct (C4_area_conservation 0 row2_map row2_fine H Hnd) as [Hlocal Hglobal].
  split; [|exact (Hglobal Hcov Hdesc)].
  destruct (Hlocal [] 1%nat [0%nat] _ eq_refl eq_refl
              (ex_intro _ 3%nat (conj H38 Hlow)))
    as (_ & Hsum & _).
  exact Hsum.
Defined.
(** C5: on the numbers of the machine the area of a processed cell can end
    below [dx * dy].  On the 1 x 2 row [tiny_map] the first loop gives both
    cells the area 100 = [dx * dy].  The left cell has its right neighbor
    strictly lower, but the slope between them, 2^-149 / 10, rounds to zero:
    [tanbeta] of the left cell stays +0, and the amount routed to the right
    cell is 0/0.  The right cell ends with an area that is not a number, for
    which the comparison with [dx * dy] fails.  On [wide_map] the [int]
    product [dx * dy] overflows, and the cell starts and ends with a
    negative area. *)
Theorem C5_area_below_cell_area_on_floats :
  let r := Float32.CalcTopoIndex 0 8 Float32.tiny_map Float32.tiny_fine in
  let s0 := Float32.init_pass Float32.tiny_map
              (Float32.initial_state Float32.tiny_fine) in
  let w := Float32.CalcTopoIndex 0 8 Float32.wide_map Float32.level_fine in
  (Float32.int_mul (Float32.dx_of Float32.tiny_map) (Float32.dy_of Float32.tiny_map)
     = 100%Z /\
   Float32.a s0 0%Z 0%Z = Float32.float_of_int 100 /\
   Float32.a s0 0%Z 1%Z = Float32.float_of_int 100 /\
   is_fatal r = false /\
   Float32.a (final r) 0%Z 1%Z = S754_nan /\
   SFleb (Float32.float_of_int 100) (Float32.a (final r) 0%Z 1%Z) = false) /\
  (Float32.dx_of Float32.wide_map = 46341%Z /\
   Float32.dy_of Float32.wide_map = 46341%Z /\
   (Float32.INT_MAX < 46341 * 46341)%Z /\
   Float32.int_mul 46341 46341 = (-2147479015)%Z /\
   is_fatal w = false /\
   Float32.a (final w) 0%Z 0%Z = S754_finite true 16777180 7 /\
   SFltb (Float32.a (final w) 0%Z 0%Z) (S754_zero false) = true).
Proof.
  cbv zeta. split.
  - repeat split; vm_compute; reflexivity.
  - repeat split; vm_compute; reflexivity.
Qed.

(** C6: on the numbers of the machine [tanbeta] of a processed cell can be
    zero.  On the 1 x 2 row [tiny_map] the cell size is positive and no cell
    is listed twice.  The left cell, processed first, has its right neighbor
    (neighbor 3) strictly lower, so [lower] is 7 and the flat-area value is
    not assigned; the slope to that neighbor, 2^-149 / 10, rounds to zero,
    and [tanbeta] of the cell is +0 when its routing loop starts, at the end
    of its step and at the end of the run.  The routing loop divides 0 by 0,
    and the last loop divides 100 by 0 and stores the logarithm of
    +infinity. *)
Theorem C6_tanbeta_zero_on_floats :
  let Map := Float32.tiny_map in
  let ld := Float32.length_diagonal_of Map in
  let body := Float32.sweep_body 0 8 Map ld in
  let s0 := Float32.init_pass Map (Float32.initial_state Float32.tiny_fine) in
  let sl := Float32.before_routing 0 8 Map ld 1 s0 in
  let s1 := final (for_eachM [1%nat] body s0) in
  let r := Float32.CalcTopoIndex 0 8 Map Float32.tiny_fine in
  (SFltb (S754_zero false) (Float32.DMASS Map) = true /\
   NoDup (Float32.OrderedCellsfine Map) /\
   Float32.cell_at Map 1 = ITEM.mk 0 0) /\
  (SFltb (Float32.neighbor_elev (snd sl) 3) (Float32.Dem (Float32.tiny_fine 0%Z 0%Z))
     = true /\
   Float32.lower (snd sl) = 7%Z /\
   Float32.temp_slope (snd sl) 3 = S754_zero false /\
   Float32.tanbeta (fst sl) 0%Z 0%Z = S754_zero false /\
   Float32.routed (fst sl) (snd sl) 0 0 3 = S754_nan) /\
  (is_fatal (for_eachM [1%nat] body s0) = false /\
   Float32.tanbeta s1 0%Z 0%Z = S754_zero false /\
   Float32.a s1 0%Z 1%Z = S754_nan) /\
  (is_fatal r = false /\
   Float32.tanbeta (final r) 0%Z 0%Z = S754_zero false /\
   Float32.fdiv (Float32.a (final r) 0%Z 0%Z) (Float32.tanbeta (final r) 0%Z 0%Z)
     = S754_infinity false /\
   Float32.TopoIndex (Float32.FineMap (final r) 0%Z 0%Z)
     = Float32.known (S754_infinity false)).
Proof.
  cbv zeta. split; [|split; [|split]].
  - split; [vm_compute; reflexivity|]. split; [|reflexivity].
    cbn. repeat constructor; cbn; intuition discriminate.
  - repeat split; vm_compute; reflexivity.
  - repeat split; vm_compute; reflexivity.
  - repeat split; vm_compute; reflexivity.
Qed.

(** C7, as the code has it: the last loop has no test of [tanbeta] and no
    call of [ReportError].  From every state it ends normally, and for every
    cell of [OrderedCellsfine] it stores the logarithm of the quotient
    a / tanbeta; where [tanbeta] is zero that quotient is infinite or not a
    number, and what is stored is +infinity or a NaN. *)
Theorem C7_final_pass_has_no_guard (Map : Float32.MAPSIZE) (s : Float32.state) :
  exists s',
    Float32.final_pass Map s = Ok s' /\
    forall c, In c (Float32.OrderedCellsfine Map) ->
      Float32.TopoIndex (Float32.FineMap s' (ITEM.y c) (ITEM.x c)) =
      Float32.log
        (Float32.to_double
           (Float32.fdiv (Float32.a s (ITEM.y c) (ITEM.x c))
              (Float32.tanbeta s (ITEM.y c) (ITEM.x c)))) /\
      (Float32.is_zero (Float32.tanbeta s (ITEM.y c) (ITEM.x c)) = true ->
       Float32.TopoIndex (Float32.FineMap s' (ITEM.y c) (ITEM.x c)) =
         Float32.known (S754_infinity false) \/
       Float32.TopoIndex (Float32.FineMap s' (ITEM.y c) (ITEM.x c)) =
         Float32.known S754_nan).
Proof.
  eexists. split; [reflexivity|].
  intros c Hin. destruct (f32_cell_index Map c Hin) as (k & Hk & <-).
  rewrite (f32_final_in Map _ s k Hk). split; [reflexivity|].
  apply f32_log_of_quotient_by_zero.
Qed.

Lemma C7_final_pass_has_no_guard_witness :
  exists s',
    Float32.final_pass Float32.tiny_map
      (final (Float32.sweep_pass 0 8 Float32.tiny_map
                (Float32.init_pass Float32.tiny_map
                   (Float32.initial_state Float32.tiny_fine)))) = Ok s' /\
    (Float32.TopoIndex (Float32.FineMap s' 0%Z 0%Z) =
       Float32.known (S754_infinity false) \/
     Float32.TopoIndex (Float32.FineMap s' 0%Z 0%Z) = Float32.known S754_nan).
Proof.
  destruct (C7_final_pass_has_no_guard Float32.tiny_map
              (final (Float32.sweep_pass 0 8 Float32.tiny_map
                        (Float32.init_pass Float32.tiny_map
                           (Float32.initial_state Float32.tiny_fine)))))
    as (s' & Hs' & H).
  exists s'. split; [exact Hs'|].
  apply (H (ITEM.mk 0 0)); [cbn; tauto | vm_compute; reflexivity].
Defined.

(** C7 fails as stated: the run on the 1 x 2 row [tiny_map] reaches the last
    loop with [tanbeta] equal to +0 at the processed cell (0, 0); no error
    is raised, and the index stored for that cell is +infinity, the one
    stored for the other cell a NaN. *)
Lemma C7_counterexample :
  In (ITEM.mk 0 0) (Float32.OrderedCellsfine Float32.tiny_map) /\
  Float32.tanbeta
    (final (Float32.sweep_pass 0 8 Float32.tiny_map
              (Float32.init_pass Float32.tiny_map
                 (Float32.initial_state Float32.tiny_fine)))) 0%Z 0%Z
    = S754_zero false /\
  is_fatal (Float32.CalcTopoIndex 0 8 Float32.tiny_map Float32.tiny_fine) = false /\
  Float32.TopoIndex
    (Float32.FineMap
       (final (Float32.CalcTopoIndex 0 8 Float32.tiny_map Float32.tiny_fine)) 0%Z 0%Z)
    = Float32.known (S754_infinity false) /\
  Float32.TopoIndex
    (Float32.FineMap
       (final (Float32.CalcTopoIndex 0 8 Float32.tiny_map Float32.tiny_fine)) 0%Z 1%Z)
    = Float32.known S754_nan.
Proof.
  split; [cbn; tauto|]. repeat split; vm_compute; reflexivity.
Qed.


Lemma sweep_body_unsupported (OUTSIDEBASIN NDIRSfine : Z) (Map : MAPSIZE)
    (ld : R) (k : nat) (s : state) :
  NDIRSfine <> 8%Z ->
  sweep_body OUTSIDEBASIN NDIRSfine Map ld k s = Fatal s.
Proof.
  intros H. unfold sweep_body.
  destruct (Z.eqb_spec NDIRSfine 8); [contradiction|].
  now destruct (NDIRSfine =? 4)%Z.
Qed.

(** C8, as the code has it: with a neighbor count other than 8 the function
    fails at the first cell of the sweep, when [OrderedCellsfine] has a cell.
    By then the first loop has set the area of every cell of
    [OrderedCellsfine] to [dx * dy]; [tanbeta], [contour_length] and the fine
    map are still untouched.  With no cell to process it ends normally. *)
Theorem C8_unsupported_neighbor_count (OUTSIDEBASIN NDIRSfine : Z) (Map : MAPSIZE)
    (FM : grid FINEPIX) :
  NDIRSfine <> 8%Z ->
  (OrderedCellsfine Map <> [] ->
   exists s,
     CalcTopoIndex OUTSIDEBASIN NDIRSfine Map FM = Fatal s /\
     s = init_pass Map (initial_state FM) /\
     (forall c, In c (OrderedCellsfine Map) ->
        a s (ITEM.y c) (ITEM.x c) = IZR (dx_of Map * dy_of Map)) /\
     (forall y x, ~ In (ITEM.mk x y) (OrderedCellsfine Map) -> a s y x = 0) /\
     tanbeta s = zero_grid /\ contour_length s = zero_grid /\ FineMap s = FM) /\
  (OrderedCellsfine Map = [] ->
   CalcTopoIndex OUTSIDEBASIN NDIRSfine Map FM = Ok (initial_state FM)).
Proof.
  intros H8. split.
  - intros Hne. exists (init_pass Map (initial_state FM)).
    split; [|split; [reflexivity|]].
    + unfold CalcTopoIndex, sweep_pass, NumCellsfine.
      destruct (OrderedCellsfine Map) as [|c cells] eqn:E; [contradiction|].
      cbn [length countdown for_eachM].
      now rewrite sweep_body_unsupported.
    + rewrite init_pass_run.
      destruct (run_init_FineMap Map (visited Map) (initial_state FM))
        as (Hf & Ht & Hc).
      repeat split.
      * intros c Hin. apply run_init_a_in. rewrite visited_rev.
        now apply in_rev in Hin.
      * intros y x Hout. rewrite run_init_a_out; [reflexivity|].
        rewrite visited_rev. intros Hin. apply Hout. now apply in_rev.
      * exact Ht.
      * exact Hc.
      * exact Hf.
  - intros Hnil. unfold CalcTopoIndex, sweep_pass, final_pass, init_pass, NumCellsfine.
    rewrite Hnil. reflexivity.
Qed.

Lemma C8_unsupported_neighbor_count_witness :
  (4 <> 8)%Z /\ OrderedCellsfine single_map <> [] /\
  exists s, CalcTopoIndex 0 4 single_map flat3_fine = Fatal s /\
            tanbeta s = zero_grid.
Proof.
  assert (H : (4 <> 8)%Z) by discriminate.
  assert (Hne : OrderedCellsfine single_map <> []) by discriminate.
  split; [exact H | split; [exact Hne|]].
  destruct (C8_unsupported_neighbor_count 0 4 single_map flat3_fine H) as [Hf _].
  destruct (Hf Hne) as (s & Hs & _ & _ & _ & Ht & _).
  exists s. split; [exact Hs | exact Ht].
Defined.

(** C8 fails as stated: with 4 neighbors and one cell to process, the area
    grid holds 100 at that cell when the failure is reported, where [calloc]
    had left 0; and with no cell to process nothing is reported at all. *)
Lemma C8_counterexample :
  (exists s, CalcTopoIndex 0 4 single_map flat3_fine = Fatal s /\
             a s 0%Z 0%Z = 100 /\
             a (initial_state flat3_fine) 0%Z 0%Z = 0) /\
  is_fatal (CalcTopoIndex 0 4 empty_map flat3_fine) = false.
Proof.
  split; [|reflexivity].
  exists (init_pass single_map (initial_state flat3_fine)). repeat split.
  rewrite init_pass_run. unfold visited, run, init_cell. cbn.
  apply (cell_area_10 single_map eq_refl).
Qed.

(** C9: when every cell of [OrderedCellsfine] is a cell of the grid inside
    the basin, a cell off the grid or outside the basin is never written: its
    record of the fine map, [TopoIndex] included, is what it was, and its
    slots of the three accumulator grids still hold the 0 of [calloc].  The
    reason is that such a neighbor gets the elevation of the cell being
    processed, and so is never strictly lower. *)
Theorem C9_outside_cells_untouched (OUTSIDEBASIN : Z) (Map : MAPSIZE)
    (FM : grid FINEPIX) :
  (forall c, In c (OrderedCellsfine Map) ->
     valid_cell_fine Map (ITEM.x c) (ITEM.y c) = true /\
     Mask (FM (ITEM.y c) (ITEM.x c)) <> 0%Z) ->
  (forall x y n,
     (n < 8)%nat ->
     valid_cell_fine Map (xn_of 8 x n) (yn_of 8 y n) = false \/
     Mask (FM (yn_of 8 y n) (xn_of 8 x n)) = 0%Z ->
     flat_elev OUTSIDEBASIN Map FM x y n = Dem (FM y x) /\
     is_lower OUTSIDEBASIN Map FM x y n = false) /\
  (forall y x,
     valid_cell_fine Map x y = false \/ Mask (FM y x) = 0%Z ->
     let s := final (CalcTopoIndex OUTSIDEBASIN 8 Map FM) in
     FineMap s y x = FM y x /\
     a s y x = 0 /\ tanbeta s y x = 0 /\ contour_length s y x = 0).
Proof.
  intros Hcells. split.
  - intros x y n Hn Hout.
    assert (Hflat : flat_elev OUTSIDEBASIN Map FM x y n = Dem (FM y x)).
    { unfold flat_elev, raw_elev.
      destruct Hout as [-> | ->]; [|rewrite Z.eqb_refl].
      - destruct (Req_dec_T _ _); [reflexivity | congruence].
      - destruct (valid_cell_fine _ _ _);
          (destruct (Req_dec_T _ _); [reflexivity | congruence]). }
    split; [exact Hflat|]. unfold is_lower. rewrite Hflat.
    destruct (Rlt_dec _ _); [lra | reflexivity].
  - intros y x Hout s.
    assert (Hnot : ~ In (ITEM.mk x y) (visited Map)).
    { rewrite visited_rev. intros Hin. apply in_rev in Hin.
      destruct (Hcells _ Hin) as [Hv Hm]. cbn in Hv, Hm.
      destruct Hout; congruence. }
    subst s. rewrite CalcTopoIndex_run. unfold final.
    set (s0 := run (init_cell Map) (visited Map) (initial_state FM)).
    set (s1 := run _ (visited Map) s0).
    destruct (run_final_grids (visited Map) s1) as (-> & -> & ->).
    destruct (run_init_FineMap Map (visited Map) (initial_state FM))
      as (Hf & Ht & Hc). fold s0 in Hf, Ht, Hc.
    repeat split.
    + rewrite run_final_out by exact Hnot. subst s1.
      now rewrite run_process_FineMap, Hf.
    + subst s1. rewrite run_process_a_frame.
      * subst s0. now rewrite run_init_a_out.
      * intros c _. rewrite Hf. cbn. tauto.
    + subst s1.
      rewrite (run_process_tanbeta_out _ _ _ _ _ (ITEM.mk x y)) by exact Hnot.
      now rewrite Ht.
    + subst s1.
      rewrite (run_process_contour_out _ _ _ _ _ (ITEM.mk x y)) by exact Hnot.
      now rewrite Hc.
Qed.

Lemma C9_outside_cells_untouched_witness :
  (forall c, In c (OrderedCellsfine row2_map) ->
     valid_cell_fine row2_map (ITEM.x c) (ITEM.y c) = true /\
     Mask (row2_fine (ITEM.y c) (ITEM.x c)) <> 0%Z) /\
  valid_cell_fine row2_map 2 0 = false /\
  FineMap (final (CalcTopoIndex 0 8 row2_map row2_fine)) 0%Z 2%Z = row2_fine 0%Z 2%Z /\
  a (final (CalcTopoIndex 0 8 row2_map row2_fine)) 0%Z 2%Z = 0.
Proof.
  assert (H : forall c, In c (OrderedCellsfine row2_map) ->
     valid_cell_fine row2_map (ITEM.x c) (ITEM.y c) = true /\
     Mask (row2_fine (ITEM.y c) (ITEM.x c)) <> 0%Z).
  { intros c [<- | [<- | []]]; split; (reflexivity || discriminate). }
  split; [exact H|]. split; [reflexivity|].
  destruct (C9_outside_cells_untouched 0 row2_map row2_fine H) as [_ Hout].
  destruct (Hout 0%Z 2%Z (or_introl eq_refl)) as (Hf & Ha & _).
  split; [exact Hf | exact Ha].
Defined.

(** C10: a neighbor inside the grid and the basin whose elevation equals the
    sentinel [OUTSIDEBASIN] is treated as a neighbor outside the basin: the
    slope loop replaces its elevation by the elevation of the cell, it is not
    counted as strictly lower, and the step routes no area into it, whatever
    the elevation of the cell. *)
Theorem C10_sentinel_elevation_is_flat (OUTSIDEBASIN : Z) (Map : MAPSIZE)
    (ld : R) (k : nat) (s : state) (n : nat) :
  let x := ITEM.x (cell_at Map k) in
  let y := ITEM.y (cell_at Map k) in
  let xn := xn_of 8 x n in
  let yn := yn_of 8 y n in
  (n < 8)%nat ->
  valid_cell_fine Map xn yn = true ->
  Mask (FineMap s yn xn) <> 0%Z ->
  Dem (FineMap s yn xn) = IZR OUTSIDEBASIN ->
  neighbor_elev (snd (before_routing OUTSIDEBASIN 8 Map ld k s)) n =
    Dem (FineMap s y x) /\
  is_lower OUTSIDEBASIN Map (FineMap s) x y n = false /\
  exists s', sweep_body OUTSIDEBASIN 8 Map ld k s = Ok s' /\
             a s' yn xn = a s yn xn.
Proof.
  intros x y xn yn Hn Hv Hm Hd.
  assert (Hflat : flat_elev OUTSIDEBASIN Map (FineMap s) x y n = Dem (FineMap s y x)).
  { unfold flat_elev, raw_elev. fold xn yn. rewrite Hv.
    destruct (Z.eqb_spec (Mask (FineMap s yn xn)) 0); [contradiction|].
    destruct (Req_dec_T _ _); [reflexivity | contradiction]. }
  assert (Hlow : is_lower OUTSIDEBASIN Map (FineMap s) x y n = false).
  { unfold is_lower. rewrite Hflat. destruct (Rlt_dec _ _); [lra | reflexivity]. }
  split; [|split; [exact Hlow|]].
  - destruct (before_routing_spec OUTSIDEBASIN Map ld k s) as (_ & Hne & _).
    rewrite Hne by exact Hn. exact Hflat.
  - exists (process_cell OUTSIDEBASIN Map ld (cell_at Map k) s).
    split; [apply sweep_body_8|].
    apply process_a_frame. right. right. left. exact Hd.
Qed.

Lemma C10_sentinel_elevation_is_flat_witness :
  IZR 0 < Dem (pit_fine 0%Z 0%Z) /\
  is_lower 0 row2_map pit_fine 0 0 3 = false /\
  exists s', sweep_body 0 8 row2_map (length_diagonal_of row2_map) 1
               (init_pass row2_map (initial_state pit_fine)) = Ok s' /\
             a s' 0%Z 1%Z = a (init_pass row2_map (initial_state pit_fine)) 0%Z 1%Z.
Proof.
  split; [simpl; lra|].
  assert (Hm : Mask (FineMap (init_pass row2_map (initial_state pit_fine)) 0%Z 1%Z)
               <> 0%Z) by discriminate.
  destruct (C10_sentinel_elevation_is_flat 0 row2_map (length_diagonal_of row2_map)
              1 (init_pass row2_map (initial_state pit_fine)) 3
              ltac:(lia) eq_refl Hm eq_refl) as (_ & Hl & Hs).
  split; [exact Hl | exact Hs].
Defined.

(** * Further properties of the code *)

(** ** The allocations *)

Lemma calloc_loop_ok (calloc_ok : nat -> bool) (n calls : nat) :
  (forall i, (calls <= i < calls + n)%nat -> calloc_ok i = true) ->
  for_eachM (countup n) (fun _ => calloc_call calloc_ok) calls = Ok (calls + n)%nat.
Proof.
  induction n as [|n IH]; intros H.
  - simpl. now rewrite Nat.add_0_r.
  - rewrite countup_S. erewrite for_eachM_app by (apply IH; intros; apply H; lia).
    simpl. unfold calloc_call. rewrite H by lia. f_equal. lia.
Qed.

Lemma calloc_loop_fatal (calloc_ok : nat -> bool) (n calls j : nat) :
  (calls <= j < calls + n)%nat ->
  (forall i, (calls <= i < j)%nat -> calloc_ok i = true) ->
  calloc_ok j = false ->
  for_eachM (countup n) (fun _ => calloc_call calloc_ok) calls = Fatal j.
Proof.
  intros Hj Hbefore Hfail.
  assert (E : n = ((j - calls) + S (n - S (j - calls)))%nat) by lia.
  rewrite E. unfold countup. rewrite seq_app.
  erewrite for_eachM_app.
  2:{ apply (calloc_loop_ok calloc_ok (j - calls) calls).
      intros i Hi. apply Hbefore. lia. }
  replace (calls + (j - calls))%nat with j by lia.
  simpl. unfold calloc_call. now rewrite Hfail.
Qed.

Lemma alloc_grid_ok (calloc_ok : nat -> bool) (Map : MAPSIZE) (calls : nat) :
  (forall i, (calls <= i < calls + S (Z.to_nat (NYfine Map)))%nat ->
             calloc_ok i = true) ->
  alloc_grid calloc_ok Map calls = Ok (calls + S (Z.to_nat (NYfine Map)))%nat.
Proof.
  intros H. unfold alloc_grid, calloc_call at 1. rewrite H by lia. simpl.
  rewrite calloc_loop_ok by (intros; apply H; lia). f_equal. lia.
Qed.

Lemma alloc_grid_fatal (calloc_ok : nat -> bool) (Map : MAPSIZE) (calls j : nat) :
  (calls <= j < calls + S (Z.to_nat (NYfine Map)))%nat ->
  (forall i, (calls <= i < j)%nat -> calloc_ok i = true) ->
  calloc_ok j = false ->
  alloc_grid calloc_ok Map calls = Fatal j.
Proof.
  intros Hj Hbefore Hfail. unfold alloc_grid, calloc_call at 1.
  destruct (Nat.eq_dec j calls) as [->|Hne].
  - now rewrite Hfail.
  - rewrite Hbefore by lia. simpl.
    apply calloc_loop_fatal; [lia | intros; apply Hbefore; lia | exact Hfail].
Qed.

Lemma allocate_ok (calloc_ok : nat -> bool) (Map : MAPSIZE) :
  (forall i, (i < 3 * S (Z.to_nat (NYfine Map)))%nat -> calloc_ok i = true) ->
  allocate calloc_ok Map = Ok (3 * S (Z.to_nat (NYfine Map)))%nat.
Proof.
  intros H. unfold allocate.
  rewrite alloc_grid_ok by (intros; apply H; lia). simpl bind.
  rewrite alloc_grid_ok by (intros; apply H; lia). simpl bind.
  rewrite alloc_grid_ok by (intros; apply H; lia). f_equal. lia.
Qed.

Lemma allocate_fatal (calloc_ok : nat -> bool) (Map : MAPSIZE) (j : nat) :
  (j < 3 * S (Z.to_nat (NYfine Map)))%nat ->
  (forall i, (i < j)%nat -> calloc_ok i = true) ->
  calloc_ok j = false ->
  allocate calloc_ok Map = Fatal j.
Proof.
  intros Hj Hbefore Hfail. unfold allocate.
  destruct (Nat.lt_ge_cases j (S (Z.to_nat (NYfine Map)))) as [H1|H1].
  - rewrite (alloc_grid_fatal calloc_ok Map 0 j); auto; [lia | intros; apply Hbefore; lia].
  - rewrite alloc_grid_ok by (intros; apply Hbefore; lia).
    simpl bind.
    destruct (Nat.lt_ge_cases j (2 * S (Z.to_nat (NYfine Map)))) as [H2|H2].
    + rewrite (alloc_grid_fatal calloc_ok Map _ j); auto;
        [lia | intros; apply Hbefore; lia].
    + rewrite alloc_grid_ok by (intros; apply Hbefore; lia).
      simpl bind.
      rewrite (alloc_grid_fatal calloc_ok Map _ j); auto;
        [lia | intros; apply Hbefore; lia].
Qed.

(** X1: the function makes 3 x (NYfine + 1) calls of [calloc] before it
    touches a grid.  When all of them succeed the result is that of the
    computation; when one fails the run is fatal at the first call that
    fails, and the fine map is as it was. *)
Theorem X1_allocation_failure_is_fatal (calloc_ok : nat -> bool)
    (OUTSIDEBASIN NDIRSfine : Z) (Map : MAPSIZE) (FM : grid FINEPIX) :
  let calls := (3 * S (Z.to_nat (NYfine Map)))%nat in
  ((forall i, (i < calls)%nat -> calloc_ok i = true) ->
   allocate calloc_ok Map = Ok calls /\
   CalcTopoIndex_alloc calloc_ok OUTSIDEBASIN NDIRSfine Map FM =
   CalcTopoIndex OUTSIDEBASIN NDIRSfine Map FM) /\
  (forall j, (j < calls)%nat ->
     (forall i, (i < j)%nat -> calloc_ok i = true) ->
     calloc_ok j = false ->
     allocate calloc_ok Map = Fatal j /\
     exists s, CalcTopoIndex_alloc calloc_ok OUTSIDEBASIN NDIRSfine Map FM = Fatal s /\
               FineMap s = FM).
Proof.
  intros calls. split.
  - intros H. pose proof (allocate_ok calloc_ok Map H) as E.
    split; [exact E|]. unfold CalcTopoIndex_alloc. now rewrite E.
  - intros j Hj Hbefore Hfail.
    pose proof (allocate_fatal calloc_ok Map j Hj Hbefore Hfail) as E.
    split; [exact E|]. exists (initial_state FM).
    unfold CalcTopoIndex_alloc. now rewrite E.
Qed.

Lemma X1_allocation_failure_is_fatal_witness :
  allocate (fun i => negb (i =? 4)%nat) row2_map = Fatal 4%nat /\
  is_fatal (CalcTopoIndex_alloc (fun i => negb (i =? 4)%nat) 0 8 row2_map row2_fine)
  = true.
Proof.
  destruct (X1_allocation_failure_is_fatal (fun i => negb (i =? 4)%nat) 0 8
              row2_map row2_fine) as [_ H].
  assert (Hj : (4 < 3 * S (Z.to_nat (NYfine row2_map)))%nat) by (simpl; lia).
  assert (Hb : forall i, (i < 4)%nat -> negb (i =? 4)%nat = true).
  { intros i Hi. apply negb_true_iff. apply Nat.eqb_neq. lia. }
  destruct (H 4%nat Hj Hb eq_refl) as (E & s & Es & _).
  split; [exact E|]. now rewrite Es.
Defined.

(** ** The cell size *)

Lemma float_to_int_floor (r : R) :
  0 <= r -> IZR (float_to_int r) <= r < IZR (float_to_int r) + 1.
Proof.
  intros H. unfold float_to_int. destruct (Rle_dec 0 r) as [_|H0]; [|lra].
  destruct (base_Int_part r) as [H1 H2]. lra.
Qed.

Lemma float_to_int_nonneg (r : R) : 0 <= r -> (0 <= float_to_int r)%Z.
Proof.
  intros H. destruct (float_to_int_floor r H) as [_ H2].
  assert (H3 : IZR (-1) < IZR (float_to_int r)) by (simpl; lra).
  apply lt_IZR in H3. lia.
Qed.

Lemma cell_size_in_range (Map : MAPSIZE) :
  1 <= DMASS Map -> DMASS Map < 46341 ->
  (1 <= dx_of Map * dy_of Map <= 2147483647)%Z.
Proof.
  intros H1 H2. unfold dy_of, dx_of.
  pose proof (float_to_int_ge_1 _ H1) as Hlo.
  assert (H0 : 0 <= DMASS Map) by lra.
  destruct (float_to_int_floor _ H0) as [Hle _].
  assert (Hlt : IZR (float_to_int (DMASS Map)) < IZR 46341) by lra.
  apply lt_IZR in Hlt. nia.
Qed.

(** X2: for a cell size from 0 to below 46341, [dx] and [dy] are the cell
    size [DMASS] cut down to a whole number and the [int] product [dx * dy]
    does not overflow; as a real number it is never more than DMASS squared,
    and it is DMASS squared only when the cell size is a whole number. *)
Theorem X2_cell_area_is_truncated (Map : MAPSIZE) :
  0 <= DMASS Map < 46341 ->
  dy_of Map = dx_of Map /\
  IZR (dx_of Map) <= DMASS Map < IZR (dx_of Map) + 1 /\
  (0 <= dx_of Map * dy_of Map <= 2147483647)%Z /\
  0 <= IZR (dx_of Map * dy_of Map) <= DMASS Map ^ 2 /\
  (IZR (dx_of Map * dy_of Map) = DMASS Map ^ 2 <-> DMASS Map = IZR (dx_of Map)).
Proof.
  intros [H HM]. unfold dy_of, dx_of.
  pose proof (float_to_int_floor _ H) as [H1 H2].
  pose proof (float_to_int_nonneg _ H) as H3.
  assert (H4 : (float_to_int (DMASS Map) < 46341)%Z).
  { apply lt_IZR. lra. }
  split; [reflexivity|]. split; [lra|]. split; [nia|].
  apply IZR_le in H3.
  rewrite mult_IZR. set (d := IZR (float_to_int (DMASS Map))) in *.
  split; [nra|].
  split; intros E; nra.
Qed.

Lemma X2_cell_area_is_truncated_witness :
  0 <= DMASS row2_map < 46341 /\
  (dx_of row2_map * dy_of row2_map <= 2147483647)%Z /\
  IZR (dx_of row2_map * dy_of row2_map) <= DMASS row2_map ^ 2.
Proof.
  assert (H : 0 <= DMASS row2_map < 46341) by (simpl; lra).
  split; [exact H|].
  destruct (X2_cell_area_is_truncated row2_map H) as (_ & _ & [_ Hz] & [_ Hle] & _).
  split; [exact Hz | exact Hle].
Defined.

(** X3: with a cell size below 1 the truncation gives [dx = dy = 0]: every
    cell starts with area 0, and [length_diagonal], by which the slope to a
    diagonal neighbor and the flat-area constant are divided, is 0. *)
Theorem X3_cell_size_below_one (Map : MAPSIZE) (FM : grid FINEPIX) :
  0 <= DMASS Map < 1 ->
  dx_of Map = 0%Z /\ dy_of Map = 0%Z /\
  length_diagonal_of Map = 0 /\
  forall y x, a (init_pass Map (initial_state FM)) y x = 0.
Proof.
  intros [H0 H1].
  assert (Hd : dx_of Map = 0%Z).
  { unfold dx_of. pose proof (float_to_int_floor _ H0) as [H2 H3].
    pose proof (float_to_int_nonneg _ H0) as H4.
    assert (H5 : IZR (float_to_int (DMASS Map)) < IZR 1) by (simpl; lra).
    apply lt_IZR in H5. lia. }
  assert (Hy : dy_of Map = 0%Z) by exact Hd.
  repeat split; try assumption.
  - unfold length_diagonal_of. rewrite Hd, Hy.
    replace (0 ^ 2 + 0 ^ 2) with 0 by lra. apply sqrt_0.
  - intros y x. rewrite init_pass_run.
    generalize (visited Map). intros cells.
    induction cells as [|c cells IH] using rev_ind; [reflexivity|].
    rewrite run_app. cbn [run fold_left init_cell set_a a]. unfold grid_set.
    destruct ((y =? ITEM.y c)%Z && (x =? ITEM.x c)%Z); [|exact IH].
    now rewrite Hd, Hy.
Qed.

Lemma X3_cell_size_below_one_witness :
  0 <= DMASS (mkMAPSIZE 2 1 0.5 [cell 1 0; cell 0 0]) < 1 /\
  length_diagonal_of (mkMAPSIZE 2 1 0.5 [cell 1 0; cell 0 0]) = 0 /\
  a (init_pass (mkMAPSIZE 2 1 0.5 [cell 1 0; cell 0 0]) (initial_state row2_fine))
    0%Z 0%Z = 0.
Proof.
  assert (H : 0 <= DMASS (mkMAPSIZE 2 1 0.5 [cell 1 0; cell 0 0]) < 1)
    by (simpl; lra).
  split; [exact H|].
  destruct (X3_cell_size_below_one (mkMAPSIZE 2 1 0.5 [cell 1 0; cell 0 0])
              row2_fine H) as (_ & _ & Hl & Ha).
  split; [exact Hl | apply Ha].
Defined.

(** ** The value of [tanbeta] *)







(** ** Steps that do not feed each other *)

Lemma grid_set_swap {A : Type} (g : grid A) (y1 x1 y2 x2 : Z) (v1 v2 : A) :
  (y1, x1) <> (y2, x2) ->
  grid_set (grid_set g y2 x2 v2) y1 x1 v1 = grid_set (grid_set g y1 x1 v1) y2 x2 v2.
Proof.
  intros H. apply grid_ext. intros y x. unfold grid_set.
  destruct (Z.eqb_spec y y1); destruct (Z.eqb_spec x x1);
    destruct (Z.eqb_spec y y2); destruct (Z.eqb_spec x x2); simpl;
    try reflexivity.
  subst. now elim H.
Qed.

Lemma inflow_not_fed (OB : Z) (Map : MAPSIZE) (ld : R) (FM : grid FINEPIX)
    (c c' : ITEM.t) (area tb : R) :
  ~ feeds OB Map FM c c' ->
  inflow OB Map ld FM (ITEM.x c) (ITEM.y c) area tb (ITEM.y c') (ITEM.x c') = 0.
Proof.
  intros H. apply inflow_zero. intros n Hn Hl E. apply H.
  exists n. split; [exact Hn | split; [exact Hl|]].
  destruct c' as [x' y']. simpl in E. now inversion E.
Qed.

Lemma feeds_lower (OB : Z) (Map : MAPSIZE) (FM : grid FINEPIX) (c c' : ITEM.t) :
  feeds OB Map FM c c' -> elev FM c' < elev FM c.
Proof.
  intros (n & Hn & Hl & ->).
  now destruct (is_lower_target OB Map FM _ _ n Hl) as (_ & _ & _ & H).
Qed.

Lemma process_cell_commute (OB : Z) (Map : MAPSIZE) (ld : R) (c1 c2 : ITEM.t)
    (s : state) :
  c1 <> c2 ->
  ~ feeds OB Map (FineMap s) c1 c2 ->
  ~ feeds OB Map (FineMap s) c2 c1 ->
  process_cell OB Map ld c1 (process_cell OB Map ld c2 s) =
  process_cell OB Map ld c2 (process_cell OB Map ld c1 s).
Proof.
  intros Hne H12 H21.
  assert (Hc : (ITEM.y c1, ITEM.x c1) <> (ITEM.y c2, ITEM.x c2)).
  { intros E. apply Hne. now apply cell_coords_eq. }
  assert (Hc' : (ITEM.y c2, ITEM.x c2) <> (ITEM.y c1, ITEM.x c1)) by congruence.
  unfold process_cell. cbn [a tanbeta contour_length FineMap].
  rewrite (inflow_not_fed OB Map ld (FineMap s) c2 c1) by exact H21.
  rewrite (inflow_not_fed OB Map ld (FineMap s) c1 c2) by exact H12.
  rewrite !Rplus_0_r.
  rewrite (grid_set_other (tanbeta s) _ _ _ _ _ Hc).
  rewrite (grid_set_other (tanbeta s) _ _ _ _ _ Hc').
  rewrite (grid_set_other (contour_length s) _ _ _ _ _ Hc).
  rewrite (grid_set_other (contour_length s) _ _ _ _ _ Hc').
  f_equal.
  - apply grid_ext. intros y x. lra.
  - now apply grid_set_swap.
  - now apply grid_set_swap.
Qed.

(** X5: in exact arithmetic, two steps of the sweep can be exchanged when
    neither cell is a strictly lower neighbor of the other; in particular
    two cells of equal elevation can be processed in either order (a tie in
    the order of elevation can be broken either way). *)
Theorem X5_independent_steps_commute (OUTSIDEBASIN : Z) (Map : MAPSIZE) (ld : R)
    (k1 k2 : nat) (s : state) :
  let body := sweep_body OUTSIDEBASIN 8 Map ld in
  let c1 := cell_at Map k1 in
  let c2 := cell_at Map k2 in
  (~ feeds OUTSIDEBASIN Map (FineMap s) c1 c2 ->
   ~ feeds OUTSIDEBASIN Map (FineMap s) c2 c1 ->
   for_eachM [k1; k2] body s = for_eachM [k2; k1] body s) /\
  (elev (FineMap s) c1 = elev (FineMap s) c2 ->
   for_eachM [k1; k2] body s = for_eachM [k2; k1] body s).
Proof.
  intros body c1 c2.
  assert (H : ~ feeds OUTSIDEBASIN Map (FineMap s) c1 c2 ->
              ~ feeds OUTSIDEBASIN Map (FineMap s) c2 c1 ->
              for_eachM [k1; k2] body s = for_eachM [k2; k1] body s).
  { intros H12 H21. unfold body. cbn [for_eachM].
    rewrite !sweep_body_8. cbv beta iota. fold c1 c2.
    f_equal. destruct (cell_eq_dec c1 c2) as [E|Hne].
    - now rewrite E.
    - symmetry. now apply process_cell_commute. }
  split; [exact H|].
  intros E. apply H; intros Hf; apply feeds_lower in Hf; lra.
Qed.

Lemma X5_independent_steps_commute_witness :
  elev flat3_fine (cell_at flat3_map 0) = elev flat3_fine (cell_at flat3_map 1) /\
  for_eachM [0%nat; 1%nat] (sweep_body 0 8 flat3_map (length_diagonal_of flat3_map))
    (init_pass flat3_map (initial_state flat3_fine)) =
  for_eachM [1%nat; 0%nat] (sweep_body 0 8 flat3_map (length_diagonal_of flat3_map))
    (init_pass flat3_map (initial_state flat3_fine)).
Proof.
  split; [reflexivity|].
  destruct (X5_independent_steps_commute 0 flat3_map (length_diagonal_of flat3_map)
              0 1 (init_pass flat3_map (initial_state flat3_fine))) as [_ H].
  apply H. reflexivity.
Defined.

(** ** What one step writes *)

Lemma sum_lower_nonzero (OB : Z) (Map : MAPSIZE) (FM : grid FINEPIX) (x y : Z)
    (f : nat -> R) (k : nat) :
  sum_lower OB Map FM x y f k <> 0 ->
  exists n, (n < k)%nat /\ is_lower OB Map FM x y n = true /\ f n <> 0.
Proof.
  induction k as [|k IH]; simpl; intros H; [now elim H|].
  destruct (is_lower OB Map FM x y k) eqn:Hl.
  - destruct (Req_dec_T (f k) 0) as [E|E].
    + destruct IH as (n & Hn & Hln & Hf); [rewrite E in H; lra|].
      exists n. repeat split; auto.
    + exists k. repeat split; auto.
  - destruct IH as (n & Hn & Hln & Hf); [lra|].
    exists n. repeat split; auto.
Qed.

(** X6: a step of the sweep writes [tanbeta] and [contour_length] at its own
    cell only, leaves the fine map and the area of its own cell as they are,
    and changes the area of no cell but a neighbor that lies in the grid, is
    inside the basin and is strictly lower than the cell: it never routes
    area off the grid, out of the basin, level or uphill. *)
Theorem X6_step_routes_downhill_only (OUTSIDEBASIN : Z) (Map : MAPSIZE) (ld : R)
    (k : nat) (s : state) :
  let x := ITEM.x (cell_at Map k) in
  let y := ITEM.y (cell_at Map k) in
  exists s',
    sweep_body OUTSIDEBASIN 8 Map ld k s = Ok s' /\
    FineMap s' = FineMap s /\
    a s' y x = a s y x /\
    (forall y' x', (y', x') <> (y, x) ->
       tanbeta s' y' x' = tanbeta s y' x' /\
       contour_length s' y' x' = contour_length s y' x') /\
    (forall y' x', a s' y' x' <> a s y' x' ->
       exists n, (n < 8)%nat /\
         y' = yn_of 8 y n /\ x' = xn_of 8 x n /\
         valid_cell_fine Map x' y' = true /\
         Mask (FineMap s y' x') <> 0%Z /\
         Dem (FineMap s y' x') < Dem (FineMap s y x)).
Proof.
  intros x y. exists (process_cell OUTSIDEBASIN Map ld (cell_at Map k) s).
  split; [apply sweep_body_8|]. split; [reflexivity|]. split; [|split].
  - apply process_a_frame. right. right. right. apply Rle_refl.
  - intros y' x' Hne. unfold process_cell.
    cbn [tanbeta contour_length]. fold x y.
    now rewrite !grid_set_other by exact Hne.
  - intros y' x' Hch. unfold process_cell in Hch. cbn [a] in Hch. fold x y in Hch.
    assert (Hin : inflow OUTSIDEBASIN Map ld (FineMap s) x y (a s y x)
                    (tanbeta s y x) y' x' <> 0) by (intros E; apply Hch; lra).
    unfold inflow in Hin. apply sum_lower_nonzero in Hin.
    destruct Hin as (n & Hn & Hl & Hf).
    destruct ((y' =? yn_of 8 y n)%Z && (x' =? xn_of 8 x n)%Z) eqn:E;
      [|now elim Hf].
    apply andb_true_iff in E. destruct E as [Ey%Z.eqb_eq Ex%Z.eqb_eq].
    destruct (is_lower_target OUTSIDEBASIN Map (FineMap s) x y n Hl)
      as (Hv & Hm & _ & Hlt).
    exists n. subst y' x'. repeat split; assumption.
Qed.

(** ** A cell with no neighbor in the basin *)

Lemma neighbor_opposite (x y : Z) (n : nat) :
  (n < 8)%nat ->
  xn_of 8 (xn_of 8 x n) ((n + 4) mod 8) = x /\
  yn_of 8 (yn_of 8 y n) ((n + 4) mod 8) = y.
Proof.
  intros Hn. unfold xn_of, yn_of.
  do 8 (try destruct n as [|n]); try lia; cbn; lia.
Qed.

Lemma run_process_a_not_fed (OB : Z) (Map : MAPSIZE) (ld : R)
    (cells : list ITEM.t) (s : state) (c : ITEM.t) :
  (forall c', In c' cells -> ~ feeds OB Map (FineMap s) c' c) ->
  a (run (process_cell OB Map ld) cells s) (ITEM.y c) (ITEM.x c) =
  a s (ITEM.y c) (ITEM.x c).
Proof.
  revert s. induction cells as [|c0 cells IH]; intros s H; [reflexivity|].
  cbn [run fold_left].
  fold (run (process_cell OB Map ld) cells (process_cell OB Map ld c0 s)).
  rewrite IH.
  - unfold process_cell. cbn [a].
    rewrite inflow_not_fed by (apply H; now left). lra.
  - intros c' Hc'. change (FineMap (process_cell OB Map ld c0 s)) with (FineMap s).
    apply H. now right.
Qed.

Lemma isolated_no_lower (OB : Z) (Map : MAPSIZE) (FM : grid FINEPIX) (c : ITEM.t) :
  isolated Map FM c -> no_lower OB Map FM c.
Proof.
  intros H n Hn. unfold is_lower, flat_elev, raw_elev.
  destruct (H n Hn) as [-> | ->]; [|rewrite Z.eqb_refl].
  - destruct (Req_dec_T _ _); [|congruence].
    destruct (Rlt_dec _ _); [lra | reflexivity].
  - destruct (valid_cell_fine _ _ _);
      (destruct (Req_dec_T _ _); [|congruence]);
      (destruct (Rlt_dec _ _); [lra | reflexivity]).
Qed.

Lemma isolated_not_fed (OB : Z) (Map : MAPSIZE) (FM : grid FINEPIX) (c c' : ITEM.t) :
  isolated Map FM c ->
  valid_cell_fine Map (ITEM.x c') (ITEM.y c') = true ->
  Mask (FM (ITEM.y c') (ITEM.x c')) <> 0%Z ->
  ~ feeds OB Map FM c' c.
Proof.
  intros Hiso Hv Hm (n & Hn & _ & ->). unfold isolated in Hiso.
  cbn [ITEM.x ITEM.y] in Hiso.
  destruct (neighbor_opposite (ITEM.x c') (ITEM.y c') n Hn) as [Ex Ey].
  assert (Hm4 : ((n + 4) mod 8 < 8)%nat) by (apply Nat.mod_upper_bound; lia).
  specialize (Hiso _ Hm4). rewrite Ex, Ey in Hiso.
  destruct Hiso; congruence.
Qed.

(** X7: when every cell of [OrderedCellsfine] lies in the grid and in the
    basin, a processed cell whose 8 neighbors are all off the grid or outside
    the basin receives nothing and distributes nothing: it ends with the
    flat-area [tanbeta], with its own area [dx * dy], and with the index
    ln(dx * dy / flat-area constant). *)
Theorem X7_isolated_cell (OUTSIDEBASIN : Z) (Map : MAPSIZE) (FM : grid FINEPIX)
    (c : ITEM.t) :
  (forall c', In c' (OrderedCellsfine Map) ->
     valid_cell_fine Map (ITEM.x c') (ITEM.y c') = true /\
     Mask (FM (ITEM.y c') (ITEM.x c')) <> 0%Z) ->
  In c (OrderedCellsfine Map) ->
  isolated Map FM c ->
  let s := final (CalcTopoIndex OUTSIDEBASIN 8 Map FM) in
  let flat := flat_tanbeta 8 Map (length_diagonal_of Map) in
  tanbeta s (ITEM.y c) (ITEM.x c) = flat /\
  a s (ITEM.y c) (ITEM.x c) = IZR (dx_of Map * dy_of Map) /\
  TopoIndex (FineMap s (ITEM.y c) (ITEM.x c)) =
  ln (IZR (dx_of Map * dy_of Map) / flat).
Proof.
  intros Hcells Hin Hiso s flat.
  assert (Hinv : In c (visited Map)) by (rewrite visited_rev; now apply in_rev in Hin).
  assert (Ht : tanbeta s (ITEM.y c) (ITEM.x c) = flat).
  { apply CalcTopoIndex_flat_tanbeta; [exact Hin | now apply isolated_no_lower]. }
  assert (Ha : a s (ITEM.y c) (ITEM.x c) = IZR (dx_of Map * dy_of Map)).
  { subst s. rewrite CalcTopoIndex_run. unfold final.
    match goal with
    | |- a (run final_cell ?l ?s) _ _ = _ =>
        destruct (run_final_grids l s) as (-> & _ & _)
    end.
    rewrite run_process_a_not_fed; [now apply run_init_a_in|].
    intros c' Hc'.
    destruct (run_init_FineMap Map (visited Map) (initial_state FM)) as (-> & _).
    cbn [FineMap initial_state].
    rewrite visited_rev in Hc'. apply in_rev in Hc'.
    destruct (Hcells c' Hc') as [Hv Hm]. now apply isolated_not_fed. }
  split; [exact Ht | split; [exact Ha|]].
  rewrite <- Ht, <- Ha. subst s. rewrite CalcTopoIndex_run. unfold final.
  match goal with
  | |- TopoIndex (FineMap (run final_cell ?l ?s1) _ _) = _ =>
      rewrite (run_final_in l s1 c Hinv);
      destruct (run_final_grids l s1) as (-> & -> & _)
  end.
  reflexivity.
Qed.

Lemma X7_isolated_cell_witness :
  isolated single_map flat3_fine (cell 0 0) /\
  a (final (CalcTopoIndex 0 8 single_map flat3_fine)) 0%Z 0%Z =
  IZR (dx_of single_map * dy_of single_map).
Proof.
  assert (Hcells : forall c', In c' (OrderedCellsfine single_map) ->
            valid_cell_fine single_map (ITEM.x c') (ITEM.y c') = true /\
            Mask (flat3_fine (ITEM.y c') (ITEM.x c')) <> 0%Z).
  { intros c' [<- | []]. split; [reflexivity | discriminate]. }
  assert (Hin : In (cell 0 0) (OrderedCellsfine single_map)) by (simpl; tauto).
  assert (Hiso : isolated single_map flat3_fine (cell 0 0)).
  { intros n Hn. left. do 8 (try destruct n as [|n]); try lia; reflexivity. }
  split; [exact Hiso|].
  destruct (X7_isolated_cell 0 single_map flat3_fine (cell 0 0) Hcells Hin Hiso)
    as (_ & Ha & _).
  exact Ha.
Defined.

(** ** What the function writes into the fine map *)

Lemma run_final_Dem_Mask (cells : list ITEM.t) (s : state) (y x : Z) :
  Dem (FineMap (run final_cell cells s) y x) = Dem (FineMap s y x) /\
  Mask (FineMap (run final_cell cells s) y x) = Mask (FineMap s y x).
Proof.
  revert s. induction cells as [|c cells IH]; intros s; [now split|].
  cbn [run fold_left]. fold (run final_cell cells (final_cell c s)).
  destruct (IH (final_cell c s)) as [-> ->].
  unfold final_cell, set_TopoIndex. cbn [FineMap]. unfold grid_set.
  destruct ((y =? ITEM.y c)%Z && (x =? ITEM.x c)%Z) eqn:E; [|now split].
  apply andb_true_iff in E. destruct E as [->%Z.eqb_eq ->%Z.eqb_eq]. now split.
Qed.

Lemma CalcTopoIndex_cases (OB ND : Z) (Map : MAPSIZE) (FM : grid FINEPIX) :
  final (CalcTopoIndex OB ND Map FM) =
    run final_cell (visited Map)
      (run (process_cell OB Map (length_diagonal_of Map)) (visited Map)
         (run (init_cell Map) (visited Map) (initial_state FM))) \/
  final (CalcTopoIndex OB ND Map FM) =
    run (init_cell Map) (visited Map) (initial_state FM).
Proof.
  destruct (Z.eq_dec ND 8) as [->|Hne].
  - left. now rewrite CalcTopoIndex_run.
  - right. rewrite <- init_pass_run.
    unfold CalcTopoIndex, sweep_pass, final_pass, NumCellsfine.
    destruct (OrderedCellsfine Map) as [|c cells] eqn:E.
    + reflexivity.
    + cbn [length countdown for_eachM].
      now rewrite sweep_body_unsupported.
Qed.

(** X8: whatever the neighbor count and however the run ends, the function
    never changes the elevation or the mask of a cell of the fine map, and it
    leaves the whole record, [TopoIndex] included, of every cell that is not
    listed in [OrderedCellsfine] as it was. *)
Theorem X8_fine_map_frame (OUTSIDEBASIN NDIRSfine : Z) (Map : MAPSIZE)
    (FM : grid FINEPIX) (y x : Z) :
  let s := final (CalcTopoIndex OUTSIDEBASIN NDIRSfine Map FM) in
  Dem (FineMap s y x) = Dem (FM y x) /\
  Mask (FineMap s y x) = Mask (FM y x) /\
  (~ In (ITEM.mk x y) (OrderedCellsfine Map) -> FineMap s y x = FM y x).
Proof.
  intros s. subst s.
  destruct (run_init_FineMap Map (visited Map) (initial_state FM)) as (Hf & _).
  cbn [FineMap initial_state] in Hf.
  destruct (CalcTopoIndex_cases OUTSIDEBASIN NDIRSfine Map FM) as [-> | ->].
  - match goal with
    | |- Dem (FineMap (run final_cell ?l ?s1) _ _) = _ /\ _ =>
        destruct (run_final_Dem_Mask l s1 y x) as [-> ->];
        assert (Hs1 : FineMap s1 = FM) by (now rewrite run_process_FineMap)
    end.
    rewrite Hs1. repeat split.
    intros Hout. rewrite run_final_out; [exact (f_equal (fun g => g y x) Hs1)|].
    rewrite visited_rev. intros Hin. apply Hout. now apply in_rev.
  - rewrite Hf. now repeat split.
Qed.

(** ** The index *)

Lemma sweep_result_positive (OB : Z) (Map : MAPSIZE) (FM : grid FINEPIX) (c : ITEM.t) :
  1 <= DMASS Map -> In c (OrderedCellsfine Map) ->
  let s := run (process_cell OB Map (length_diagonal_of Map)) (visited Map)
             (run (init_cell Map) (visited Map) (initial_state FM)) in
  1 <= a s (ITEM.y c) (ITEM.x c) /\ 0 < tanbeta s (ITEM.y c) (ITEM.x c).
Proof.
  intros HD Hin s.
  pose proof (length_diagonal_pos Map HD) as Hld.
  pose proof (cell_area_pos Map HD) as Harea.
  assert (HD0 : 0 < DMASS Map) by lra.
  assert (Hinv : In c (visited Map)) by (rewrite visited_rev; now apply in_rev in Hin).
  assert (Hn0 : nonneg_state (run (init_cell Map) (visited Map) (initial_state FM)))
    by (apply init_nonneg; lra).
  split.
  - apply Rle_trans with (IZR (dx_of Map * dy_of Map)); [exact Harea|].
    rewrite <- (run_init_a_in Map (visited Map) (initial_state FM) c Hinv).
    now apply run_process_a_mono.
  - now apply run_process_tanbeta_pos.
Qed.

(** X9: in exact arithmetic, with a cell size of at least 1 and below 46341
    (so that [dx * dy] does not overflow), the index of every processed cell
    is the logarithm of a strictly positive number, so that the ratio of
    area to slope is recovered from it: exp(TopoIndex) = a / tanbeta. *)
Theorem X9_index_is_well_defined (OUTSIDEBASIN : Z) (Map : MAPSIZE)
    (FM : grid FINEPIX) (c : ITEM.t) :
  1 <= DMASS Map < 46341 ->
  In c (OrderedCellsfine Map) ->
  let s := final (CalcTopoIndex OUTSIDEBASIN 8 Map FM) in
  let ratio := a s (ITEM.y c) (ITEM.x c) / tanbeta s (ITEM.y c) (ITEM.x c) in
  0 < ratio /\
  TopoIndex (FineMap s (ITEM.y c) (ITEM.x c)) = ln ratio /\
  exp (TopoIndex (FineMap s (ITEM.y c) (ITEM.x c))) = ratio.
Proof.
  intros [HD HM] Hin s ratio.
  assert (Hinv : In c (visited Map)) by (rewrite visited_rev; now apply in_rev in Hin).
  destruct (sweep_result_positive OUTSIDEBASIN Map FM c HD Hin) as [Ha Ht].
  subst ratio s. rewrite CalcTopoIndex_run. unfold final.
  match goal with
  | |- 0 < a (run final_cell ?l ?s1) _ _ / _ /\ _ =>
      rewrite (run_final_in l s1 c Hinv);
      destruct (run_final_grids l s1) as (-> & -> & _)
  end.
  assert (Hpos : 0 < a (run (process_cell OUTSIDEBASIN Map (length_diagonal_of Map))
                          (visited Map)
                          (run (init_cell Map) (visited Map) (initial_state FM)))
                       (ITEM.y c) (ITEM.x c) /
                     tanbeta (run (process_cell OUTSIDEBASIN Map (length_diagonal_of Map))
                          (visited Map)
                          (run (init_cell Map) (visited Map) (initial_state FM)))
                       (ITEM.y c) (ITEM.x c)).
  { apply Rdiv_lt_0_compat; [lra | exact Ht]. }
  split; [exact Hpos | split; [reflexivity | now apply exp_ln]].
Qed.

Lemma X9_index_is_well_defined_witness :
  1 <= DMASS row2_map < 46341 /\
  exp (TopoIndex (FineMap (final (CalcTopoIndex 0 8 row2_map row2_fine)) 0%Z 1%Z)) =
  a (final (CalcTopoIndex 0 8 row2_map row2_fine)) 0%Z 1%Z /
  tanbeta (final (CalcTopoIndex 0 8 row2_map row2_fine)) 0%Z 1%Z.
Proof.
  assert (H : 1 <= DMASS row2_map < 46341) by (simpl; lra).
  split; [exact H|].
  assert (Hin : In (cell 1 0) (OrderedCellsfine row2_map)) by (simpl; tauto).
  destruct (X9_index_is_well_defined 0 row2_map row2_fine (cell 1 0) H Hin)
    as (_ & _ & He).
  exact He.
Defined.

(** ** No cell holds more than the basin *)

Lemma sum_cells_nonneg (f : ITEM.t -> R) (l : list ITEM.t) :
  (forall c, 0 <= f c) -> 0 <= sum_cells f l.
Proof.
  intros H. induction l as [|c l IH]; simpl; [lra|]. specialize (H c). lra.
Qed.

Lemma NoDup_app_disjoint {A : Type} (l1 l2 : list A) (v : A) :
  NoDup (l1 ++ l2) -> In v l1 -> In v l2 -> False.
Proof.
  induction l1 as [|u l1 IH]; simpl; intros Hnd H1 H2; [easy|].
  apply NoDup_cons_iff in Hnd. destruct Hnd as [Hu Hnd].
  destruct H1 as [-> | H1].
  - apply Hu. apply in_or_app. now right.
  - now apply IH.
Qed.

Lemma covers_visited (Map : MAPSIZE) (FM : grid FINEPIX) :
  covers Map FM (OrderedCellsfine Map) -> covers Map FM (visited Map).
Proof.
  intros H x y Hv Hm. rewrite visited_rev. apply -> in_rev. now apply H.
Qed.

(** X10: in exact arithmetic, with a cell size of at least 1 and below 46341
    (so that [dx * dy] does not overflow), no cell listed twice, every cell
    of the basin processed, and the cells processed in descending order of
    elevation, the area a cell ends with is never more than the area of all
    processed cells together, NumCellsfine x dx x dy. *)
Theorem X10_area_at_most_basin_area (OUTSIDEBASIN : Z) (Map : MAPSIZE)
    (FM : grid FINEPIX) (c : ITEM.t) :
  1 <= DMASS Map < 46341 ->
  NoDup (OrderedCellsfine Map) ->
  covers Map FM (OrderedCellsfine Map) ->
  descending FM (visited Map) ->
  In c (OrderedCellsfine Map) ->
  a (final (CalcTopoIndex OUTSIDEBASIN 8 Map FM)) (ITEM.y c) (ITEM.x c) <=
  INR (NumCellsfine Map) * IZR (dx_of Map * dy_of Map).
Proof.
  intros [HD HM] Hnd Hcov Hdesc Hin.
  pose proof (length_diagonal_pos Map HD) as Hld.
  pose proof (cell_area_pos Map HD) as Harea.
  assert (HD0 : 0 < DMASS Map) by lra.
  pose proof (NoDup_visited Map Hnd) as Hndv.
  pose proof (covers_visited Map FM Hcov) as Hcovv.
  assert (Hinv : In c (visited Map)) by (rewrite visited_rev; now apply in_rev in Hin).
  rewrite CalcTopoIndex_run. unfold final.
  match goal with
  | |- a (run final_cell ?l ?s) _ _ <= _ =>
      destruct (run_final_grids l s) as (-> & _ & _)
  end.
  pose (ld := length_diagonal_of Map).
  set (s0 := run (init_cell Map) (visited Map) (initial_state FM)).
  assert (Hf0 : FineMap s0 = FM /\ tanbeta s0 = zero_grid).
  { subst s0.
    destruct (run_init_FineMap Map (visited Map) (initial_state FM)) as (-> & -> & _).
    now split. }
  destruct Hf0 as [Hf0 Ht0].
  assert (Hn0 : nonneg_state s0) by (apply init_nonneg; lra).
  assert (Htotal : sink_area OUTSIDEBASIN Map FM
                     (run (process_cell OUTSIDEBASIN Map ld) (visited Map) s0)
                     (visited Map) =
                   INR (NumCellsfine Map) * IZR (dx_of Map * dy_of Map)).
  { unfold ld. rewrite (conservation_run OUTSIDEBASIN Map FM (visited Map) HD Hndv Hcovv Hdesc
               (visited Map) [] s0 eq_refl Hf0 ltac:(intros; now rewrite Ht0)).
    unfold sink_area at 1. cbn [sum_cells fold_right]. rewrite Rplus_0_r.
    unfold area_of.
    rewrite (sum_cells_ext _ (fun _ => IZR (dx_of Map * dy_of Map))).
    - rewrite sum_cells_const. unfold NumCellsfine.
      now rewrite visited_rev, length_rev.
    - intros c' Hc'. now apply run_init_a_in. }
  destruct (in_split _ _ Hinv) as (l1 & l2 & Hv).
  set (s1 := run (process_cell OUTSIDEBASIN Map ld) l1 s0).
  assert (Hf1 : FineMap s1 = FM) by (subst s1; now rewrite run_process_FineMap).
  assert (Hn1 : nonneg_state s1) by (now apply run_process_nonneg).
  assert (Ht1 : forall c', In c' (c :: l2) -> tanbeta s1 (ITEM.y c') (ITEM.x c') = 0).
  { intros c' Hc'. subst s1. rewrite run_process_tanbeta_out; [now rewrite Ht0|].
    intros Hl1. rewrite Hv in Hndv.
    exact (NoDup_app_disjoint _ _ _ Hndv Hl1 Hc'). }
  assert (Hrun : run (process_cell OUTSIDEBASIN Map ld) (visited Map) s0 =
                 run (process_cell OUTSIDEBASIN Map ld) (c :: l2) s1).
  { rewrite Hv at 1. now rewrite run_app. }
  pose proof (conservation_run OUTSIDEBASIN Map FM (visited Map) HD Hndv Hcovv Hdesc
                (c :: l2) l1 s1 Hv Hf1 Ht1) as Hmid.
  fold ld in Hmid. unfold ld in *. rewrite <- Hrun, Htotal in Hmid.
  rewrite Hrun.
  rewrite run_process_a_frame.
  - assert (H1 : 0 <= area_of s1 l2).
    { apply sum_cells_nonneg. intros c'. apply Hn1. }
    assert (H2 : 0 <= sink_area OUTSIDEBASIN Map FM s1 l1).
    { apply sum_cells_nonneg. intros c'.
      destruct (is_sink OUTSIDEBASIN Map FM c'); [apply Hn1 | lra]. }
    unfold area_of in Hmid at 1. cbn [sum_cells fold_right] in Hmid.
    fold (sum_cells (fun c0 => a s1 (ITEM.y c0) (ITEM.x c0)) l2) in Hmid.
    fold (area_of s1 l2) in Hmid. lra.
  - intros c' Hc'. right. right. right. rewrite Hf1.
    destruct Hc' as [<- | Hc']; [apply Rle_refl|].
    unfold descending in Hdesc. rewrite Hv in Hdesc.
    exact (StronglySorted_split _ _ _ _ _ Hdesc Hc').
Qed.

Lemma X10_area_at_most_basin_area_witness :
  1 <= DMASS row2_map < 46341 /\
  a (final (CalcTopoIndex 0 8 row2_map row2_fine)) 0%Z 1%Z <=
  INR (NumCellsfine row2_map) * IZR (dx_of row2_map * dy_of row2_map).
Proof.
  assert (H : 1 <= DMASS row2_map < 46341) by (simpl; lra).
  assert (Hnd : NoDup (OrderedCellsfine row2_map)).
  { simpl. repeat constructor; simpl; intuition discriminate. }
  assert (Hcov : covers row2_map row2_fine (OrderedCellsfine row2_map)).
  { intros x y Hv _. unfold valid_cell_fine in Hv. simpl in Hv.
    apply andb_true_iff in Hv. destruct Hv as [Hv Hy2].
    apply andb_true_iff in Hv. destruct Hv as [Hv Hy1].
    apply andb_true_iff in Hv. destruct Hv as [Hx1 Hx2].
    apply Z.leb_le in Hx1, Hy1. apply Z.ltb_lt in Hx2, Hy2.
    assert (Ey : y = 0%Z) by lia. subst y.
    assert (Ex : x = 0%Z \/ x = 1%Z) by lia.
    destruct Ex as [-> | ->]; simpl; tauto. }
  assert (Hdesc : descending row2_fine (visited row2_map)).
  { unfold descending, visited, elev. cbn. repeat constructor; cbn; lra. }
  assert (Hin : In (cell 1 0) (OrderedCellsfine row2_map)) by (simpl; tauto).
  split; [exact H|].
  exact (X10_area_at_most_basin_area 0 row2_map row2_fine (cell 1 0)
           H Hnd Hcov Hdesc Hin).
Defined.

(** ** A cell listed twice *)




(** ** The contour length *)

Lemma contour_sum_bounds (OB : Z) (Map : MAPSIZE) (FM : grid FINEPIX) (x y : Z) :
  0 <= DMASS Map ->
  0 <= sum_lower OB Map FM x y (contour_to Map) 8 <= 4 * DMASS Map.
Proof.
  intros HD. cbn [sum_lower]. unfold contour_to, diagonal. cbn.
  repeat match goal with
         | |- context [is_lower ?o ?m ?f ?u ?v ?n] => destruct (is_lower o m f u v n)
         end; lra.
Qed.

Lemma run_process_contour_value (OB : Z) (Map : MAPSIZE) (ld : R)
    (cells : list ITEM.t) (s : state) (c : ITEM.t) :
  NoDup cells -> In c cells ->
  contour_length (run (process_cell OB Map ld) cells s) (ITEM.y c) (ITEM.x c) =
  contour_length s (ITEM.y c) (ITEM.x c) +
  sum_lower OB Map (FineMap s) (ITEM.x c) (ITEM.y c) (contour_to Map) 8.
Proof.
  intros Hnd Hin. apply in_split in Hin. destruct Hin as (l1 & l2 & ->).
  apply NoDup_remove_2 in Hnd.
  rewrite run_app. cbn [run fold_left].
  fold (run (process_cell OB Map ld) l1 s).
  fold (run (process_cell OB Map ld) l2
          (process_cell OB Map ld c (run (process_cell OB Map ld) l1 s))).
  rewrite run_process_contour_out
    by (intros H; apply Hnd; apply in_or_app; now right).
  unfold process_cell at 1. cbn [contour_length]. rewrite grid_set_same.
  rewrite run_process_FineMap.
  rewrite run_process_contour_out
    by (intros H; apply Hnd; apply in_or_app; now left).
  reflexivity.
Qed.

(** X12: [contour_length] is written and never read: a step started with
    any other [contour_length] grid computes the same areas, the same
    [tanbeta] and the same fine map.  In exact arithmetic, with no cell
    listed twice, a processed cell ends with 0.4 x DMASS for each strictly
    lower diagonal neighbor plus 0.6 x DMASS for each strictly lower
    orthogonal one, a value between 0 and 4 x DMASS. *)
Theorem X12_contour_length_is_dead_state (OUTSIDEBASIN : Z) (Map : MAPSIZE)
    (FM : grid FINEPIX) :
  0 <= DMASS Map ->
  NoDup (OrderedCellsfine Map) ->
  (forall c, In c (OrderedCellsfine Map) ->
     let cl := contour_length (final (CalcTopoIndex OUTSIDEBASIN 8 Map FM))
                 (ITEM.y c) (ITEM.x c) in
     cl = sum_lower OUTSIDEBASIN Map FM (ITEM.x c) (ITEM.y c) (contour_to Map) 8 /\
     0 <= cl <= 4 * DMASS Map) /\
  (forall ld k s (g : grid R),
     exists s1 s2,
       sweep_body OUTSIDEBASIN 8 Map ld k s = Ok s1 /\
       sweep_body OUTSIDEBASIN 8 Map ld k
         (mkstate (a s) (tanbeta s) g (FineMap s)) = Ok s2 /\
       a s2 = a s1 /\ tanbeta s2 = tanbeta s1 /\ FineMap s2 = FineMap s1).
Proof.
  intros HD Hnd. split.
  - intros c Hin cl.
    assert (E : cl = sum_lower OUTSIDEBASIN Map FM (ITEM.x c) (ITEM.y c)
                       (contour_to Map) 8).
    { subst cl. rewrite CalcTopoIndex_run. unfold final.
      match goal with
      | |- contour_length (run final_cell ?l ?s) _ _ = _ =>
          destruct (run_final_grids l s) as (_ & _ & ->)
      end.
      rewrite run_process_contour_value.
      - destruct (run_init_FineMap Map (visited Map) (initial_state FM))
          as (-> & _ & ->).
        cbn [contour_length FineMap initial_state]. unfold zero_grid. lra.
      - now apply NoDup_visited.
      - rewrite visited_rev. now apply in_rev in Hin. }
    split; [exact E|]. rewrite E. now apply contour_sum_bounds.
  - intros ld k s g.
    exists (process_cell OUTSIDEBASIN Map ld (cell_at Map k) s).
    exists (process_cell OUTSIDEBASIN Map ld (cell_at Map k)
              (mkstate (a s) (tanbeta s) g (FineMap s))).
    split; [apply sweep_body_8|]. split; [apply sweep_body_8|].
    now repeat split.
Qed.

Lemma X12_contour_length_is_dead_state_witness :
  0 <= DMASS row2_map /\ NoDup (OrderedCellsfine row2_map) /\
  0 <= contour_length (final (CalcTopoIndex 0 8 row2_map row2_fine)) 0%Z 0%Z
    <= 4 * DMASS row2_map.
Proof.
  assert (H : 0 <= DMASS row2_map) by (simpl; lra).
  assert (Hnd : NoDup (OrderedCellsfine row2_map)).
  { simpl. repeat constructor; simpl; intuition discriminate. }
  split; [exact H | split; [exact Hnd|]].
  destruct (X12_contour_length_is_dead_state 0 row2_map row2_fine H Hnd) as [Hv _].
  destruct (Hv (cell 0 0)) as [_ Hb]; [simpl; tauto|]. exact Hb.
Defined.

(** ** The stencil *)

(** X13: the three places where the code spells out the 8 neighbors agree.
    For each n < 8 the offsets of [xneighbor] and [yneighbor] are -1, 0 or 1
    and not both 0; the neighbors the slope loop treats as diagonal are
    those with both offsets non-zero; the routing loop adds the routed amount
    to the very cell whose elevation the fill loop read for n; and neighbor
    (n + 4) mod 8 lies opposite to neighbor n. *)
Theorem X13_stencil_is_consistent (n : nat) :
  (n < 8)%nat ->
  let dx := nth n (xneighbor 8) 0%Z in
  let dy := nth n (yneighbor 8) 0%Z in
  ((-1 <= dx <= 1)%Z /\ (-1 <= dy <= 1)%Z /\ (dx, dy) <> (0, 0)%Z) /\
  (diagonal n = true <-> (dx <> 0 /\ dy <> 0)%Z) /\
  (nth ((n + 4) mod 8) (xneighbor 8) 0%Z = (- dx)%Z /\
   nth ((n + 4) mod 8) (yneighbor 8) 0%Z = (- dy)%Z) /\
  (forall (l : locals) (celev : R) (y x : Z) (s : state),
     neighbor_elev l n < celev ->
     route_body l celev y x n s =
     Ok (set_a s (y + dy) (x + dx)
           (a s (y + dy)%Z (x + dx)%Z + delta_a l n / tanbeta s y x))).
Proof.
  intros Hn dx dy. subst dx dy.
  split; [|split; [|split]].
  - do 8 (try destruct n as [|n]); try lia; cbn [nth xneighbor yneighbor Z.eqb Pos.eqb];
      (split; [lia | split; [lia | intros E; inversion E]]).
  - do 8 (try destruct n as [|n]); try lia; cbn [nth xneighbor yneighbor Z.eqb Pos.eqb];
      (split; [intros H | intros [H1 H2]]);
      first [ discriminate H | reflexivity | now elim H1 | now elim H2
            | split; discriminate ].
  - do 8 (try destruct n as [|n]); try lia; split; reflexivity.
  - intros l celev y x s Hlt. unfold route_body.
    destruct (Rlt_dec (neighbor_elev l n) celev) as [_|Hc]; [|contradiction].
    do 8 (try destruct n as [|n]); try lia;
      unfold route_to; cbn [nth xneighbor yneighbor Z.eqb Pos.eqb];
      rewrite ?Z.add_0_r; reflexivity.
Qed.

Lemma X13_stencil_is_consistent_witness :
  (3 < 8)%nat /\ (diagonal 3 = true <-> (1 <> 0 /\ 0 <> 0)%Z).
Proof.
  assert (H : (3 < 8)%nat) by lia.
  split; [exact H|].
  destruct (X13_stencil_is_consistent 3 H) as (_ & Hd & _). exact Hd.
Defined.

(** ** A level basin *)

Lemma level_no_lower (OB : Z) (Map : MAPSIZE) (FM : grid FINEPIX) (e : R)
    (c : ITEM.t) :
  (forall y x, Dem (FM y x) = e) -> no_lower OB Map FM c.
Proof.
  intros H n Hn. unfold is_lower, flat_elev, raw_elev. rewrite !H.
  destruct (valid_cell_fine _ _ _);
    [destruct (Mask _ =? 0)%Z|]; split_R; try reflexivity; absurd_R.
Qed.

(** X14: on a grid where every elevation is the same, whatever its size, its
    mask and the order of the cells, nothing is routed: every processed cell
    ends with the flat-area [tanbeta], with its own area [dx * dy], and with
    the index ln(dx * dy / flat-area constant). *)
Theorem X14_level_basin (OUTSIDEBASIN : Z) (Map : MAPSIZE) (FM : grid FINEPIX)
    (e : R) (c : ITEM.t) :
  (forall y x, Dem (FM y x) = e) ->
  In c (OrderedCellsfine Map) ->
  let s := final (CalcTopoIndex OUTSIDEBASIN 8 Map FM) in
  let flat := flat_tanbeta 8 Map (length_diagonal_of Map) in
  tanbeta s (ITEM.y c) (ITEM.x c) = flat /\
  a s (ITEM.y c) (ITEM.x c) = IZR (dx_of Map * dy_of Map) /\
  TopoIndex (FineMap s (ITEM.y c) (ITEM.x c)) =
  ln (IZR (dx_of Map * dy_of Map) / flat).
Proof.
  intros Hlevel Hin s flat.
  assert (Hinv : In c (visited Map)) by (rewrite visited_rev; now apply in_rev in Hin).
  assert (Ht : tanbeta s (ITEM.y c) (ITEM.x c) = flat).
  { apply CalcTopoIndex_flat_tanbeta; [exact Hin | now apply (level_no_lower _ _ _ e)]. }
  assert (Ha : a s (ITEM.y c) (ITEM.x c) = IZR (dx_of Map * dy_of Map)).
  { subst s. rewrite CalcTopoIndex_run. unfold final.
    match goal with
    | |- a (run final_cell ?l ?s) _ _ = _ =>
        destruct (run_final_grids l s) as (-> & _ & _)
    end.
    rewrite run_process_flat_a; [now apply run_init_a_in|].
    intros c' _.
    destruct (run_init_FineMap Map (visited Map) (initial_state FM)) as (-> & _).
    now apply (level_no_lower _ _ _ e). }
  split; [exact Ht | split; [exact Ha|]].
  rewrite <- Ht, <- Ha. subst s. rewrite CalcTopoIndex_run. unfold final.
  match goal with
  | |- TopoIndex (FineMap (run final_cell ?l ?s1) _ _) = _ =>
      rewrite (run_final_in l s1 c Hinv);
      destruct (run_final_grids l s1) as (-> & -> & _)
  end.
  reflexivity.
Qed.

Lemma X14_level_basin_witness :
  (forall y x, Dem (flat3_fine y x) = 10) /\
  a (final (CalcTopoIndex 0 8 flat3_map flat3_fine)) 2%Z 0%Z =
  IZR (dx_of flat3_map * dy_of flat3_map).
Proof.
  assert (H : forall y x, Dem (flat3_fine y x) = 10) by reflexivity.
  split; [exact H|].
  assert (Hin : In (cell 0 2) (OrderedCellsfine flat3_map)) by (simpl; tauto).
  destruct (X14_level_basin 0 flat3_map flat3_fine 10 (cell 0 2) H Hin)
    as (_ & Ha & _).
  exact Ha.
Defined.

(** ** A cell on a ridge *)

Lemma feeds_adjacent (OB : Z) (Map : MAPSIZE) (FM : grid FINEPIX) (c c' : ITEM.t) :
  feeds OB Map FM c' c -> adjacent c c'.
Proof.
  intros (n & Hn & _ & ->).
  destruct (neighbor_opposite (ITEM.x c') (ITEM.y c') n Hn) as [Ex Ey].
  exists ((n + 4) mod 8)%nat. split; [apply Nat.mod_upper_bound; lia|].
  cbn [ITEM.x ITEM.y]. rewrite Ex, Ey. now destruct c'.
Qed.

(** X15: a processed cell that has no strictly higher processed cell among
    its 8 neighbors receives nothing: it ends with its own area [dx * dy]. *)
Theorem X15_ridge_cell_keeps_own_area (OUTSIDEBASIN : Z) (Map : MAPSIZE)
    (FM : grid FINEPIX) (c : ITEM.t) :
  In c (OrderedCellsfine Map) ->
  (forall c', In c' (OrderedCellsfine Map) -> adjacent c c' ->
     elev FM c' <= elev FM c) ->
  a (final (CalcTopoIndex OUTSIDEBASIN 8 Map FM)) (ITEM.y c) (ITEM.x c) =
  IZR (dx_of Map * dy_of Map).
Proof.
  intros Hin Hridge.
  rewrite CalcTopoIndex_run. unfold final.
  match goal with
  | |- a (run final_cell ?l ?s) _ _ = _ =>
      destruct (run_final_grids l s) as (-> & _ & _)
  end.
  rewrite run_process_a_not_fed.
  - apply run_init_a_in. rewrite visited_rev. now apply in_rev in Hin.
  - intros c' Hc' Hf.
    destruct (run_init_FineMap Map (visited Map) (initial_state FM)) as (Hfm & _).
    rewrite Hfm in Hf. cbn [FineMap initial_state] in Hf.
    rewrite visited_rev in Hc'. apply in_rev in Hc'.
    pose proof (feeds_lower _ _ _ _ _ Hf) as Hlt.
    pose proof (Hridge c' Hc' (feeds_adjacent _ _ _ _ _ Hf)) as Hle. lra.
Qed.

Lemma X15_ridge_cell_keeps_own_area_witness :
  In (cell 0 0) (OrderedCellsfine row3_map) /\
  a (final (CalcTopoIndex 0 8 row3_map row3_fine)) 0%Z 0%Z =
  IZR (dx_of row3_map * dy_of row3_map).
Proof.
  assert (Hin : In (cell 0 0) (OrderedCellsfine row3_map)) by (simpl; tauto).
  split; [exact Hin|].
  apply (X15_ridge_cell_keeps_own_area 0 row3_map row3_fine (cell 0 0) Hin).
  intros c' Hc' _. unfold elev.
  destruct Hc' as [<- | [<- | [<- | []]]]; cbn; lra.
Defined.

(** ** No order of the cells creates area *)

Section AnyOrder.

Variable OUTSIDEBASIN : Z.
Variable Map : MAPSIZE.
Variable FM : grid FINEPIX.

Hypothesis Hsize : 1 <= DMASS Map.

Let ld := length_diagonal_of Map.
Let process := process_cell OUTSIDEBASIN Map ld.

Lemma sum_lower_le (x y : Z) (f g : nat -> R) (k : nat) :
  (forall n, (n < k)%nat -> is_lower OUTSIDEBASIN Map FM x y n = true -> f n <= g n) ->
  sum_lower OUTSIDEBASIN Map FM x y f k <= sum_lower OUTSIDEBASIN Map FM x y g k.
Proof.
  induction k as [|k IH]; intros H; simpl; [lra|].
  assert (H1 : sum_lower OUTSIDEBASIN Map FM x y f k <=
               sum_lower OUTSIDEBASIN Map FM x y g k) by (apply IH; intros; apply H; auto; lia).
  destruct (is_lower OUTSIDEBASIN Map FM x y k) eqn:E; [|lra].
  specialize (H k (Nat.lt_succ_diag_r k) E). lra.
Qed.

Lemma sum_cells_le (f g : ITEM.t -> R) (l : list ITEM.t) :
  (forall c, In c l -> f c <= g c) -> sum_cells f l <= sum_cells g l.
Proof.
  induction l as [|c l IH]; intros H; [simpl; lra|].
  assert (H1 : f c <= g c) by (apply H; now left).
  assert (H2 : sum_cells f l <= sum_cells g l) by (apply IH; intros; apply H; now right).
  unfold sum_cells in *. simpl. lra.
Qed.

(** The cells of a list without repetition receive at most the area of the
    cell of the step. *)
Lemma sum_cells_inflow_le (c : ITEM.t) (area : R) (l : list ITEM.t) :
  NoDup l -> 0 <= area ->
  sum_cells
    (fun c' => inflow OUTSIDEBASIN Map ld FM (ITEM.x c) (ITEM.y c) area 0
                 (ITEM.y c') (ITEM.x c')) l <= area.
Proof.
  intros Hnd Harea.
  pose proof (length_diagonal_pos Map Hsize) as Hld. fold ld in Hld.
  assert (HD0 : 0 < DMASS Map) by lra.
  set (x := ITEM.x c). set (y := ITEM.y c).
  destruct (count_not_lower OUTSIDEBASIN Map FM x y 8 =? 8)%Z eqn:Hc.
  - rewrite (sum_cells_ext _ (fun _ => 0)); [rewrite sum_cells_zero; lra|].
    intros c' _. unfold inflow. apply sum_lower_none.
    apply (count_not_lower_full OUTSIDEBASIN Map FM x y 8). now apply Z.eqb_eq.
  - eapply Rle_trans;
      [|right; exact (routed_total OUTSIDEBASIN Map ld FM x y area Hld HD0 Hc)].
    unfold inflow.
    rewrite (sum_cells_sum_lower OUTSIDEBASIN Map FM x y
               (fun n c' =>
                  if ((ITEM.y c' =? yn_of 8 y n) && (ITEM.x c' =? xn_of 8 x n))%Z
                  then area * slope_to OUTSIDEBASIN Map ld FM x y n *
                       contour_to Map n /
                       tanbeta_after OUTSIDEBASIN Map ld FM x y 0
                  else 0)).
    apply sum_lower_le. intros n Hn Hl.
    assert (Hw : 0 <= area * slope_to OUTSIDEBASIN Map ld FM x y n *
                      contour_to Map n /
                      tanbeta_after OUTSIDEBASIN Map ld FM x y 0).
    { pose proof (tanbeta_after_pos OUTSIDEBASIN Map ld FM x y Hld HD0 0
                    (Rle_refl 0)) as Ht.
      pose proof (term_pos OUTSIDEBASIN Map ld FM x y Hld HD0 n Hl) as Hp.
      apply Rmult_le_pos; [|left; now apply Rinv_0_lt_compat].
      rewrite Rmult_assoc. apply Rmult_le_pos; lra. }
    destruct (in_dec cell_eq_dec (ITEM.mk (xn_of 8 x n) (yn_of 8 y n)) l) as [Hin|Hout].
    + rewrite sum_cells_point_in by assumption. lra.
    + rewrite sum_cells_point_out by assumption. exact Hw.
Qed.

Lemma any_order_step (done rest : list ITEM.t) (c : ITEM.t) (s : state) :
  NoDup (done ++ c :: rest) ->
  FineMap s = FM ->
  nonneg_state s ->
  tanbeta s (ITEM.y c) (ITEM.x c) = 0 ->
  area_of (process c s) rest +
  sink_area OUTSIDEBASIN Map FM (process c s) (done ++ [c]) <=
  area_of s (c :: rest) + sink_area OUTSIDEBASIN Map FM s done.
Proof.
  intros Hnd Hf Hn Ht.
  pose proof (length_diagonal_pos Map Hsize) as Hld. fold ld in Hld.
  assert (HD0 : 0 < DMASS Map) by lra.
  pose proof (NoDup_remove_1 _ _ _ Hnd) as Hnd'.
  set (inf := fun c' => inflow OUTSIDEBASIN Map ld FM (ITEM.x c) (ITEM.y c)
                          (a s (ITEM.y c) (ITEM.x c)) 0 (ITEM.y c') (ITEM.x c')).
  assert (Ha : forall c', a (process c s) (ITEM.y c') (ITEM.x c') =
                          a s (ITEM.y c') (ITEM.x c') + inf c').
  { intros c'. unfold process, process_cell, inf. cbn [a]. now rewrite Hf, Ht. }
  assert (Hinf : forall c', 0 <= inf c').
  { intros c'. unfold inf. apply inflow_nonneg; try assumption; [apply Hn | lra]. }
  assert (Hself : a (process c s) (ITEM.y c) (ITEM.x c) = a s (ITEM.y c) (ITEM.x c)).
  { apply process_a_frame. right. right. right. apply Rle_refl. }
  assert (Hrest : area_of (process c s) rest = area_of s rest + sum_cells inf rest).
  { unfold area_of. rewrite <- sum_cells_plus. apply sum_cells_ext.
    intros c' _. apply Ha. }
  assert (Hdone : sink_area OUTSIDEBASIN Map FM (process c s) done <=
                  sink_area OUTSIDEBASIN Map FM s done + sum_cells inf done).
  { unfold sink_area. rewrite <- sum_cells_plus. apply sum_cells_le.
    intros c' _. rewrite Ha. specialize (Hinf c').
    destruct (is_sink OUTSIDEBASIN Map FM c'); lra. }
  assert (Hall : sum_cells inf done + sum_cells inf rest <= a s (ITEM.y c) (ITEM.x c)).
  { rewrite <- sum_cells_app. apply sum_cells_inflow_le; [exact Hnd' | apply Hn]. }
  assert (Hc : sink_area OUTSIDEBASIN Map FM (process c s) (done ++ [c]) =
               sink_area OUTSIDEBASIN Map FM (process c s) done +
               (if is_sink OUTSIDEBASIN Map FM c
                then a s (ITEM.y c) (ITEM.x c) else 0)).
  { unfold sink_area. rewrite sum_cells_app. cbn [sum_cells fold_right].
    rewrite Hself. destruct (is_sink OUTSIDEBASIN Map FM c); lra. }
  assert (Hsink : is_sink OUTSIDEBASIN Map FM c = true ->
                  sum_cells inf done + sum_cells inf rest = 0).
  { intros E. rewrite <- sum_cells_app.
    rewrite (sum_cells_ext _ (fun _ => 0)); [apply sum_cells_zero|].
    intros c' _. unfold inf, inflow. apply sum_lower_none.
    apply (count_not_lower_full OUTSIDEBASIN Map FM (ITEM.x c) (ITEM.y c) 8).
    now apply Z.eqb_eq. }
  rewrite Hrest, Hc. unfold area_of at 2. cbn [sum_cells fold_right].
  fold (sum_cells (fun c0 => a s (ITEM.y c0) (ITEM.x c0)) rest).
  fold (area_of s rest).
  destruct (is_sink OUTSIDEBASIN Map FM c) eqn:E.
  - specialize (Hsink eq_refl). lra.
  - lra.
Qed.

Lemma any_order_run (rest done : list ITEM.t) (s : state) :
  NoDup (done ++ rest) ->
  FineMap s = FM ->
  nonneg_state s ->
  (forall c, In c rest -> tanbeta s (ITEM.y c) (ITEM.x c) = 0) ->
  sink_area OUTSIDEBASIN Map FM (run process rest s) (done ++ rest) <=
  area_of s rest + sink_area OUTSIDEBASIN Map FM s done.
Proof.
  pose proof (length_diagonal_pos Map Hsize) as Hld. fold ld in Hld.
  assert (HD0 : 0 < DMASS Map) by lra.
  revert done s. induction rest as [|c rest IH]; intros done s Hnd Hf Hn Ht.
  - rewrite app_nil_r. cbn. unfold area_of. cbn. lra.
  - cbn [run fold_left]. fold (run process rest (process c s)).
    replace (done ++ c :: rest) with ((done ++ [c]) ++ rest)
      by (now rewrite <- app_assoc).
    apply Rle_trans with
      (area_of (process c s) rest +
       sink_area OUTSIDEBASIN Map FM (process c s) (done ++ [c])).
    + apply IH.
      * now rewrite <- app_assoc.
      * exact Hf.
      * now apply process_nonneg.
      * intros c' Hc'. unfold process. rewrite process_tanbeta_other.
        -- apply Ht. now right.
        -- intros E. apply cell_coords_eq in E. subst c'.
           apply NoDup_remove_2 in Hnd. apply Hnd. apply in_or_app. now right.
    + apply any_order_step; [exact Hnd | exact Hf | exact Hn | apply Ht; now left].
Qed.

End AnyOrder.

(** X16: in exact arithmetic, whatever the order of the cells, with a cell
    size of at least 1 and below 46341 (so that [dx * dy] does not overflow)
    and no cell listed twice, the cells without a strictly lower neighbor
    never end up holding more than the cell area of all processed cells,
    NumCellsfine x dx x dy: an order that is not descending can lose area on
    the way, and no order creates any. *)
Theorem X16_no_order_creates_area (OUTSIDEBASIN : Z) (Map : MAPSIZE)
    (FM : grid FINEPIX) :
  1 <= DMASS Map < 46341 ->
  NoDup (OrderedCellsfine Map) ->
  sink_area OUTSIDEBASIN Map FM (final (CalcTopoIndex OUTSIDEBASIN 8 Map FM))
    (OrderedCellsfine Map) <=
  INR (NumCellsfine Map) * IZR (dx_of Map * dy_of Map).
Proof.
  intros [HD HM] Hnd.
  pose proof (cell_area_pos Map HD) as Harea.
  rewrite CalcTopoIndex_run. unfold final.
  set (s0 := run (init_cell Map) (visited Map) (initial_state FM)).
  set (s2 := run _ (visited Map) s0).
  assert (Ea : sink_area OUTSIDEBASIN Map FM (run final_cell (visited Map) s2)
                 (OrderedCellsfine Map) =
               sink_area OUTSIDEBASIN Map FM s2 (visited Map)).
  { unfold sink_area. rewrite visited_rev, sum_cells_rev.
    now destruct (run_final_grids (rev (OrderedCellsfine Map)) s2) as (-> & _). }
  rewrite Ea. subst s2.
  assert (Hf0 : FineMap s0 = FM /\ tanbeta s0 = zero_grid).
  { subst s0.
    destruct (run_init_FineMap Map (visited Map) (initial_state FM)) as (-> & -> & _).
    now split. }
  destruct Hf0 as [Hf0 Ht0].
  assert (Hn0 : nonneg_state s0) by (apply init_nonneg; lra).
  pose proof (any_order_run OUTSIDEBASIN Map FM HD (visited Map) [] s0
                (NoDup_visited Map Hnd) Hf0 Hn0
                ltac:(intros; now rewrite Ht0)) as H.
  cbn [app] in H. eapply Rle_trans; [exact H|].
  unfold sink_area. cbn [sum_cells fold_right]. rewrite Rplus_0_r.
  unfold area_of. rewrite (sum_cells_ext _ (fun _ => IZR (dx_of Map * dy_of Map))).
  - rewrite sum_cells_const. unfold NumCellsfine.
    rewrite visited_rev, length_rev. apply Rle_refl.
  - intros c Hc. now apply run_init_a_in.
Qed.

Lemma X16_no_order_creates_area_witness :
  1 <= DMASS row3_map < 46341 /\ NoDup (OrderedCellsfine row3_map) /\
  sink_area 0 row3_map row3_fine (final (CalcTopoIndex 0 8 row3_map row3_fine))
    (OrderedCellsfine row3_map) <=
  INR (NumCellsfine row3_map) * IZR (dx_of row3_map * dy_of row3_map).
Proof.
  assert (H : 1 <= DMASS row3_map < 46341) by (simpl; lra).
  assert (Hnd : NoDup (OrderedCellsfine row3_map)).
  { simpl. repeat constructor; simpl; intuition discriminate. }
  split; [exact H | split; [exact Hnd|]].
  exact (X16_no_order_creates_area 0 row3_map row3_fine H Hnd).
Defined.

(** ** The invariants of the sweep on exact numbers *)

(** X17: in exact arithmetic, with a cell size of at least 1 and below
    46341, the product [dx * dy] is at least 1 and within the range of
    [int]; the first loop gives every cell of [OrderedCellsfine] the area
    [dx * dy]; no step of the sweep lowers an area, every routed amount
    being non-negative; so every such cell ends with an area of at least
    [dx * dy]. *)
Theorem X17_exact_area_at_least_cell_area (OUTSIDEBASIN : Z) (Map : MAPSIZE)
    (FM : grid FINEPIX) :
  1 <= DMASS Map < 46341 ->
  let body := sweep_body OUTSIDEBASIN 8 Map (length_diagonal_of Map) in
  let s0 := init_pass Map (initial_state FM) in
  (1 <= dx_of Map * dy_of Map <= 2147483647)%Z /\
  (forall c, In c (OrderedCellsfine Map) ->
     a s0 (ITEM.y c) (ITEM.x c) = IZR (dx_of Map * dy_of Map)) /\
  (forall idx1 idx2 s1 s2,
     for_eachM idx1 body s0 = Ok s1 ->
     for_eachM idx2 body s1 = Ok s2 ->
     forall y x, a s1 y x <= a s2 y x) /\
  (forall c, In c (OrderedCellsfine Map) ->
     IZR (dx_of Map * dy_of Map) <=
     a (final (CalcTopoIndex OUTSIDEBASIN 8 Map FM)) (ITEM.y c) (ITEM.x c)).
Proof.
  intros [HD HM] body s0.
  pose proof (length_diagonal_pos Map HD) as Hld.
  pose proof (cell_area_pos Map HD) as Harea.
  assert (HD0 : 0 < DMASS Map) by lra.
  assert (Hs0 : s0 = run (init_cell Map) (visited Map) (initial_state FM))
    by apply init_pass_run.
  assert (Hn0 : nonneg_state s0).
  { rewrite Hs0. apply init_nonneg. lra. }
  assert (Hinit : forall c, In c (OrderedCellsfine Map) ->
            a s0 (ITEM.y c) (ITEM.x c) = IZR (dx_of Map * dy_of Map)).
  { intros c Hin. rewrite Hs0. apply run_init_a_in.
    rewrite visited_rev. now apply in_rev in Hin. }
  split; [now apply cell_size_in_range|].
  split; [exact Hinit|]. split.
  - intros idx1 idx2 s1 s2 H1 H2 y x.
    apply sweep_idx_inv in H1, H2. subst s1 s2.
    apply run_process_a_mono; try assumption.
    now apply run_process_nonneg.
  - intros c Hin. rewrite CalcTopoIndex_run. unfold final.
    match goal with
    | |- _ <= a (run final_cell ?l ?s) _ _ =>
        destruct (run_final_grids l s) as (-> & _ & _)
    end.
    rewrite <- Hs0, <- (Hinit c Hin).
    now apply run_process_a_mono.
Qed.

Lemma X17_exact_area_at_least_cell_area_witness :
  1 <= DMASS row2_map < 46341 /\
  IZR (dx_of row2_map * dy_of row2_map) <=
  a (final (CalcTopoIndex 0 8 row2_map row2_fine)) 0%Z 1%Z.
Proof.
  assert (H : 1 <= DMASS row2_map < 46341) by (simpl; lra).
  split; [exact H|].
  destruct (X17_exact_area_at_least_cell_area 0 row2_map row2_fine H)
    as (_ & _ & _ & Hfin).
  apply (Hfin (cell 1 0)). simpl. tauto.
Defined.

(** X18: in exact arithmetic, with a cell size of at least 1 and no cell
    listed twice, [tanbeta] of a cell is strictly positive when its routing
    loop starts and from the end of its step of the sweep onward:
    it is the flat-area constant when no neighbor is strictly lower, and
    otherwise the sum over the strictly lower neighbors of slope x contour
    length, each of them strictly positive. *)
Theorem X18_exact_tanbeta_positive (OUTSIDEBASIN : Z) (Map : MAPSIZE) (FM : grid FINEPIX) :
  1 <= DMASS Map ->
  NoDup (OrderedCellsfine Map) ->
  let ld := length_diagonal_of Map in
  let body := sweep_body OUTSIDEBASIN 8 Map ld in
  let s0 := init_pass Map (initial_state FM) in
  (forall idx1 k idx2 idx3 s',
     countdown (NumCellsfine Map) = idx1 ++ k :: idx2 ++ idx3 ->
     for_eachM (idx1 ++ k :: idx2) body s0 = Ok s' ->
     let x := ITEM.x (cell_at Map k) in
     let y := ITEM.y (cell_at Map k) in
     0 < tanbeta s' y x /\
     tanbeta s' y x = tanbeta_after OUTSIDEBASIN Map ld FM x y 0 /\
     0 < flat_tanbeta 8 Map ld /\
     (forall n, is_lower OUTSIDEBASIN Map FM x y n = true ->
        0 < slope_to OUTSIDEBASIN Map ld FM x y n * contour_to Map n)) /\
  (forall idx1 k idx2 s1,
     countdown (NumCellsfine Map) = idx1 ++ k :: idx2 ->
     for_eachM idx1 body s0 = Ok s1 ->
     0 < tanbeta (fst (before_routing OUTSIDEBASIN 8 Map ld k s1))
           (ITEM.y (cell_at Map k)) (ITEM.x (cell_at Map k))) /\
  (forall c, In c (OrderedCellsfine Map) ->
     0 < tanbeta (final (CalcTopoIndex OUTSIDEBASIN 8 Map FM)) (ITEM.y c) (ITEM.x c)).
Proof.
  intros HD Hnd ld body s0.
  pose proof (length_diagonal_pos Map HD) as Hld. fold ld in Hld.
  pose proof (cell_area_pos Map HD) as Harea.
  assert (HD0 : 0 < DMASS Map) by lra.
  assert (Hs0 : s0 = run (init_cell Map) (visited Map) (initial_state FM))
    by apply init_pass_run.
  assert (Hn0 : nonneg_state s0) by (rewrite Hs0; apply init_nonneg; lra).
  assert (Hf0 : FineMap s0 = FM /\ tanbeta s0 = zero_grid).
  { rewrite Hs0.
    destruct (run_init_FineMap Map (visited Map) (initial_state FM)) as (-> & -> & _).
    now split. }
  destruct Hf0 as [Hf0 Ht0].
  split; [|split].
  - intros idx1 k idx2 idx3 s' Hsplit Hrun x y. subst x y.
    apply sweep_idx_inv in Hrun. fold ld in Hrun.
    rewrite map_app in Hrun. cbn [map] in Hrun.
    rewrite run_app in Hrun. cbn [run fold_left] in Hrun.
    fold (run (process_cell OUTSIDEBASIN Map ld) (map (cell_at Map) idx1) s0) in Hrun.
    set (s1 := run _ (map (cell_at Map) idx1) s0) in Hrun.
    fold (run (process_cell OUTSIDEBASIN Map ld) (map (cell_at Map) idx2)
            (process_cell OUTSIDEBASIN Map ld (cell_at Map k) s1)) in Hrun.
    pose proof (NoDup_visited Map Hnd) as Hv.
    rewrite (visited_split Map idx1 (idx2 ++ idx3) k Hsplit), map_app in Hv.
    apply NoDup_remove_2 in Hv.
    assert (Hout1 : ~ In (cell_at Map k) (map (cell_at Map) idx1)).
    { intros H. apply Hv. apply in_or_app. now left. }
    assert (Hout2 : ~ In (cell_at Map k) (map (cell_at Map) idx2)).
    { intros H. apply Hv. apply in_or_app. right. apply in_or_app. now left. }
    set (c := cell_at Map k) in *.
    assert (Hval : tanbeta s' (ITEM.y c) (ITEM.x c) =
                   tanbeta_after OUTSIDEBASIN Map ld FM (ITEM.x c) (ITEM.y c) 0).
    { rewrite Hrun, run_process_tanbeta_out by exact Hout2.
      unfold process_cell. cbn [tanbeta]. rewrite grid_set_same.
      subst s1. rewrite run_process_FineMap, Hf0.
      rewrite run_process_tanbeta_out by exact Hout1.
      now rewrite Ht0. }
    split; [|split; [exact Hval | split]].
    + rewrite Hval. apply tanbeta_after_pos; lra.
    + now apply flat_tanbeta_pos.
    + intros n Hn.
      now apply (term_pos OUTSIDEBASIN Map ld FM (ITEM.x c) (ITEM.y c) Hld HD0 n).
  - intros idx1 k idx2 s1 Hsplit Hrun.
    apply sweep_idx_inv in Hrun. fold ld in Hrun.
    destruct (before_routing_spec OUTSIDEBASIN Map ld k s1) as (-> & _).
    cbn [tanbeta]. rewrite grid_set_same.
    apply tanbeta_after_pos; try assumption.
    assert (Hn1 : nonneg_state s1).
    { rewrite Hrun. now apply run_process_nonneg. }
    apply Hn1.
  - intros c Hin. rewrite CalcTopoIndex_run. unfold final.
    match goal with
    | |- _ < tanbeta (run final_cell ?l ?s) _ _ =>
        destruct (run_final_grids l s) as (_ & -> & _)
    end.
    rewrite <- Hs0.
    apply run_process_tanbeta_pos; try assumption.
    rewrite visited_rev. now apply in_rev in Hin.
Qed.

Lemma X18_exact_tanbeta_positive_witness :
  1 <= DMASS row2_map /\ NoDup (OrderedCellsfine row2_map) /\
  (forall s',
     for_eachM [1%nat]
       (sweep_body 0 8 row2_map (length_diagonal_of row2_map))
       (init_pass row2_map (initial_state row2_fine)) = Ok s' ->
     0 < tanbeta s' 0%Z 0%Z) /\
  0 < tanbeta (final (CalcTopoIndex 0 8 row2_map row2_fine)) 0%Z 0%Z.
Proof.
  assert (H : 1 <= DMASS row2_map) by (simpl; lra).
  assert (Hnd : NoDup (OrderedCellsfine row2_map)).
  { simpl. repeat constructor; simpl; intuition discriminate. }
  split; [exact H | split; [exact Hnd|]].
  destruct (X18_exact_tanbeta_positive 0 row2_map row2_fine H Hnd) as (Hstep & _ & Hfin).
  split.
  - intros s' Hs'.
    exact (proj1 (Hstep [] 1%nat [] [0%nat] s' eq_refl Hs')).
  - apply (Hfin (cell 0 0)). simpl. tauto.
Defined.
